(** * ProToken / PT-DiT: nearest-neighbour projection, RePaint masks,
      residue-name tables and the structure-module configuration.

    The notebooks of the repository define a handful of array utilities
    around the diffusion sampler.  They are embedded here as functions on
    lists: a 1-D array is a [list R], a 2-D array a list of rows, a batch a
    list of 2-D arrays.  Array entries are real numbers (the idealisation of
    the float32 values the notebooks compute with: rounding, infinities and
    NaN are outside the model).  Whatever raises in Python (shape mismatch
    of a broadcast, [argmin] of an empty axis, an [assert], [IndexError],
    [ValueError]) is the result [None]. *)

From Stdlib Require Import String Ascii List ZArith QArith Reals Lra Lia Bool.
Import ListNotations.

Set Implicit Arguments.

(** ** A small error monad *)

Definition bind {A B : Type} (m : option A) (k : A -> option B) : option B :=
  match m with
  | Some a => k a
  | None => None
  end.

Notation "x <- m ;; k" := (bind m (fun x => k))
  (at level 61, m at next level, right associativity).

Fixpoint mapM {A B : Type} (f : A -> option B) (l : list A) : option (list B) :=
  match l with
  | [] => Some []
  | a :: l' =>
      b <- f a ;;
      bs <- mapM f l' ;;
      Some (b :: bs)
  end.

(** ** Array primitives *)

(** [jnp.argmin(_, axis=-1)] on one row: the position of the first entry that
    no later entry is strictly below; an empty row raises. *)
Section Argmin.
Context {A : Type} (ltb : A -> A -> bool).

Fixpoint argmin_from (best : nat) (bv : A) (i : nat) (l : list A) : nat :=
  match l with
  | [] => best
  | v :: l' =>
      if ltb v bv then argmin_from i v (S i) l'
      else argmin_from best bv (S i) l'
  end.

Definition argmin_by (l : list A) : option nat :=
  match l with
  | [] => None
  | v :: l' => Some (argmin_from 0 v 1 l')
  end.
End Argmin.

Open Scope R_scope.

Definition Rltb (a b : R) : bool := if Rlt_dec a b then true else false.

Definition argmin : list R -> option nat := argmin_by Rltb.

(** [k] is the lowest position at which the row [ds] attains its minimum. *)
Definition first_minimum (ds : list R) (k : nat) : Prop :=
  (k < length ds)%nat /\
  forall j, (j < length ds)%nat ->
    nth k ds 0 <= nth j ds 0 /\ ((j < k)%nat -> nth k ds 0 < nth j ds 0).

(** [jnp.sum(_, axis=-1)] on one row. *)
Definition np_sum (v : list R) : R := fold_right Rplus 0 v.

(** An elementwise binary operation on two 1-D arrays with NumPy
    broadcasting of the last axis: equal lengths pair up, a length-1 array is
    stretched, anything else is a shape error. *)
Definition broadcast2 (f : R -> R -> R) (x y : list R) : option (list R) :=
  if Nat.eqb (length x) (length y) then
    Some (map (fun p => f (fst p) (snd p)) (combine x y))
  else match x, y with
       | [a], _ => Some (map (fun b => f a b) y)
       | _, [b] => Some (map (fun a => f a b) x)
       | _, _ => None
       end.

(** [jnp.linalg.norm(x, axis=-1, keepdims=True)]: the 2-norm of the row, kept
    as an array of length 1. *)
Definition norm (x : list R) : R := sqrt (np_sum (map (fun a => a * a) x)).

Definition norm_keepdims (x : list R) : list R := [norm x].

(** ** The two distance functions *)

Definition eps : R := 1e-6.

(** [x / (jnp.linalg.norm(x, axis=-1, keepdims=True) + 1e-6)] *)
Definition normalized (x : list R) : option (list R) :=
  broadcast2 Rdiv x (map (fun n => n + eps) (norm_keepdims x)).

Definition protoken_emb_distance_fn (x y : list R) : option R :=
  x_ <- normalized x ;;
  y_ <- normalized y ;;
  p <- broadcast2 Rmult x_ y_ ;;
  Some (- np_sum p).

Definition aatype_emb_distance_fn (x y : list R) : option R :=
  d <- broadcast2 Rminus x y ;;
  Some (np_sum (map (fun a => a ^ 2) d)).

(** *** The division of the normalisation, with its failure

    Over the real numbers [a / 0] is a number like any other; in the
    program's arithmetic a division by zero gives [inf] or [nan].  The
    definitions below read [protoken_emb_distance_fn] once more with the
    division made partial: dividing by zero is a failure. *)

Definition checked_divide (a b : R) : option R :=
  if Req_dec_T b 0 then None else Some (a / b).

(** [broadcast2] for an operation that can fail on a pair of entries. *)
Definition broadcast2_checked (f : R -> R -> option R) (x y : list R)
  : option (list R) :=
  if Nat.eqb (length x) (length y) then
    mapM (fun p => f (fst p) (snd p)) (combine x y)
  else match x, y with
       | [a], _ => mapM (fun b => f a b) y
       | _, [b] => mapM (fun a => f a b) x
       | _, _ => None
       end.

(** [jnp.linalg.norm(x, axis=-1, keepdims=True) + 1e-6], the divisor of the
    normalisation. *)
Definition denominator (x : list R) : list R :=
  map (fun n => n + eps) (norm_keepdims x).

Definition normalized_checked (x : list R) : option (list R) :=
  broadcast2_checked checked_divide x (denominator x).

Definition protoken_emb_distance_fn_checked (x y : list R) : option R :=
  x_ <- normalized_checked x ;;
  y_ <- normalized_checked y ;;
  p <- broadcast2 Rmult x_ y_ ;;
  Some (- np_sum p).

(** The reference definitions of the two distances, written from the
    specification: the negative dot product of the two vectors after each is
    divided by its Euclidean norm plus 1e-6, and the sum over the coordinates
    of the squared differences. *)
Module Reference.

Fixpoint dot (x y : list R) : R :=
  match x, y with
  | a :: x', b :: y' => a * b + dot x' y'
  | _, _ => 0
  end.

Definition euclidean_norm (x : list R) : R := sqrt (dot x x).

Definition unit (x : list R) : list R :=
  map (fun a => a / (euclidean_norm x + 1e-6)) x.

Definition cosine_distance (x y : list R) : R := - dot (unit x) (unit y).

Fixpoint squared_euclidean (x y : list R) : R :=
  match x, y with
  | a :: x', b :: y' => (a - b) ^ 2 + squared_euclidean x' y'
  | _, _ => 0
  end.

End Reference.

(** ** Nearest-neighbour projection onto the codebooks *)

(** [protoken_emb.shape[-1]] of a table stored as a list of rows. *)
Definition shape_last (emb : list (list R)) : nat :=
  match emb with
  | [] => 0
  | r :: _ => length r
  end.

(** [jnp.argmin(dist(v[None, :], emb), axis=-1)]: the distance of [v] to every
    row of the table, then the arg-min over the table axis. *)
Definition nearest (dist : list R -> list R -> option R)
    (emb : list (list R)) (v : list R) : option nat :=
  ds <- mapM (dist v) emb ;;
  argmin ds.

Record index_dict : Type := {
  protoken_indexes : list (list nat);
  aatype_indexes : option (list (list nat))
}.

Definition infer_protuple : bool := true.

Section Codebooks.
Variables protoken_emb aatype_emb : list (list R).

Definition DIM_EMB_PTK : nat := shape_last protoken_emb.
Definition DIM_EMB_AA : nat := shape_last aatype_emb.
Definition DIM_EMB : nat := DIM_EMB_PTK + DIM_EMB_AA.

(** [x] has shape (B, Nres, Nemb). *)
Definition index_from_embedding (x : list (list (list R))) : option index_dict :=
  protoken_indexes <-
    mapM (mapM (fun v =>
      nearest protoken_emb_distance_fn protoken_emb (firstn DIM_EMB_PTK v))) x ;;
  if infer_protuple then
    aatype_indexes <-
      mapM (mapM (fun v =>
        nearest aatype_emb_distance_fn aatype_emb (skipn DIM_EMB_PTK v))) x ;;
    Some {| protoken_indexes := protoken_indexes;
            aatype_indexes := Some aatype_indexes |}
  else
    Some {| protoken_indexes := protoken_indexes; aatype_indexes := None |}.

End Codebooks.

(** Entry [a[b][i]] of a 2-D array, when there is one. *)
Definition lookup2 {A : Type} (a : list (list A)) (b i : nat) : option A :=
  row <- nth_error a b ;;
  nth_error row i.

(** The two entries of the returned dictionary at batch element [b] and
    residue position [i]. *)
Definition protoken_index_at (ret : index_dict) (b i : nat) : option nat :=
  lookup2 (protoken_indexes ret) b i.

Definition aatype_index_at (ret : index_dict) (b i : nat) : option nat :=
  a <- aatype_indexes ret ;;
  lookup2 a b i.

(** A table with at least one row, all rows of the length of the first. *)
Definition rectangular (emb : list (list R)) : Prop :=
  emb <> [] /\ Forall (fun r => length r = shape_last emb) emb.

(** [k] is the index of a row of [emb] at minimal distance from [v], and the
    lowest such index. *)
Definition nearest_entry (dist : list R -> list R -> option R)
    (emb : list (list R)) (v : list R) (k : nat) : Prop :=
  (k < length emb)%nat /\
  exists dk, dist v (nth k emb []) = Some dk /\
    forall j, (j < length emb)%nat ->
      exists dj, dist v (nth j emb []) = Some dj /\
                 dk <= dj /\ ((j < k)%nat -> dk < dj).

(** By the distances that [dist] computes, every row of the table is at
    least as near to itself as to any row of the table, and exactly as near
    only to a row equal to it. *)
Definition self_nearest (dist : list R -> list R -> option R)
    (emb : list (list R)) : Prop :=
  forall k j dkk dkj,
    (k < length emb)%nat -> (j < length emb)%nat ->
    dist (nth k emb []) (nth k emb []) = Some dkk ->
    dist (nth k emb []) (nth j emb []) = Some dkj ->
    dkk <= dkj /\ (dkj = dkk -> nth j emb [] = nth k emb []).

(** The two-entry, two-dimensional codebook of the specification's concrete
    scenario. *)
Definition scenario_codebook : list (list R) := [[1; 0]; [-1; 0]].

(** ** RePaint context and mask *)

(** Row lookup [emb[idx]] with an integer index array, as the array library
    does it: a negative index counts from the end, an index past either end
    is clamped to it. *)
Definition jnp_take (emb : list (list R)) (idx : list Z) : list (list R) :=
  let n := Z.of_nat (length emb) in
  map (fun i : Z =>
         let i' := if (i <? 0)%Z then (i + n)%Z else i in
         nth (Z.to_nat (Z.min (Z.max i' 0) (n - 1))) emb []) idx.

(** [i in ids] for a position [i] of [range(seq_len)]. *)
Definition in_ids (i : nat) (ids : list Z) : bool :=
  existsb (Z.eqb (Z.of_nat i)) ids.

(** [np.concatenate([a, b], axis=-1)] of two 2-D arrays with as many rows. *)
Definition concatenate_last (a b : list (list R)) : list (list R) :=
  map (fun p => fst p ++ snd p) (combine a b).

(** [np.logical_or] of two boolean 2-D arrays of one shape. *)
Definition logical_or (a b : list (list bool)) : list (list bool) :=
  map (fun p => map (fun q => orb (fst q) (snd q)) (combine (fst p) (snd p)))
      (combine a b).

(** [mask.astype(np.float32)] *)
Definition astype_float32 (m : list (list bool)) : list (list R) :=
  map (map (fun b : bool => if b then 1 else 0)) m.

Section RePaint.
Variables protoken_emb aatype_emb : list (list R).

Let dim_ptk : nat := DIM_EMB_PTK protoken_emb.
Let dim_aa : nat := DIM_EMB_AA aatype_emb.
Let dim_emb : nat := DIM_EMB protoken_emb aatype_emb.

Definition repaint_mask_aa (seq_len : nat) (aatype_context_ids : list Z)
  : list (list bool) :=
  map (fun i => if in_ids i aatype_context_ids
                then repeat false dim_ptk ++ repeat true dim_aa
                else repeat false dim_emb)
      (seq 0 seq_len).

Definition repaint_mask_ptk (seq_len : nat) (protoken_context_ids : list Z)
  : list (list bool) :=
  map (fun i => if in_ids i protoken_context_ids
                then repeat true dim_ptk ++ repeat false dim_aa
                else repeat false dim_emb)
      (seq 0 seq_len).

(** The [assert] on the two context lengths is the [None] result. *)
Definition make_repaint_info (aatypes protokens : list Z)
    (aatype_context_ids protoken_context_ids : list Z)
  : option (list (list R) * list (list bool)) :=
  let protoken_context := jnp_take protoken_emb protokens in
  let aatype_context := jnp_take aatype_emb aatypes in
  if Nat.eqb (length protoken_context) (length aatype_context) then
    let seq_len := length protoken_context in
    let repaint_context := concatenate_last protoken_context aatype_context in
    Some (repaint_context,
          logical_or (repaint_mask_aa seq_len aatype_context_ids)
                     (repaint_mask_ptk seq_len protoken_context_ids))
  else None.

End RePaint.

(** The blending line of [run_infer],
    [x = repaint_mask_ * repaint_context_t + (1 - repaint_mask_) * x],
    on one residue row ... *)
Definition repaint_blend_row (mask ctx x : list R) : option (list R) :=
  a <- broadcast2 Rmult mask ctx ;;
  b <- broadcast2 Rmult (map (fun m => 1 - m) mask) x ;;
  broadcast2 Rplus a b.

(** ... and on a (Nres, Nemb) array: the three operands have one shape in
    [run_infer], so the rows pair up. *)
Fixpoint repaint_blend (mask ctx x : list (list R)) : option (list (list R)) :=
  match mask, ctx, x with
  | [], [], [] => Some []
  | m :: mask', c :: ctx', v :: x' =>
      r <- repaint_blend_row m c v ;;
      rs <- repaint_blend mask' ctx' x' ;;
      Some (r :: rs)
  | _, _, _ => None
  end.

(** ** Residue names *)

Definition restypes : list ascii :=
  ["A"; "R"; "N"; "D"; "C"; "Q"; "E"; "G"; "H"; "I"; "L"; "K"; "M"; "F"; "P";
   "S"; "T"; "W"; "Y"; "V"]%char.

(** Python list indexing [l[i]]: a negative index counts from the end, an
    index outside [-len(l), len(l)) raises [IndexError]. *)
Definition py_getitem {A : Type} (l : list A) (i : Z) : option A :=
  let n := Z.of_nat (length l) in
  if (0 <=? i)%Z then nth_error l (Z.to_nat i)
  else if (- n <=? i)%Z then nth_error l (Z.to_nat (n + i))
  else None.

(** Python [l.index(a)]: the first position of [a], [ValueError] when absent. *)
Fixpoint py_index (a : ascii) (l : list ascii) : option Z :=
  match l with
  | [] => None
  | b :: l' =>
      if Ascii.eqb b a then Some 0%Z
      else option_map Z.succ (py_index a l')
  end.

Definition aatype_index_to_resname (aatype_index : list Z) : option string :=
  cs <- mapM (py_getitem restypes) aatype_index ;;
  Some (string_of_list_ascii cs).

Definition resname_to_aatype_index (resnames : string) : option (list Z) :=
  mapM (fun a => py_index a restypes) (list_ascii_of_string resnames).

(** The indexes of the 20 canonical residue types of [restypes]. *)
Definition canonical (i : Z) : Prop := (0 <= i < 20)%Z.

(** ** The structure-module sections of the model configuration *)

Module Sidechain.
Record t : Type := { num_channel : Z }.
End Sidechain.

Module StructureModule.
Record t : Type := {
  sink_attention : bool;
  stop_grad_ipa : bool;
  single_channel : Z;
  pair_channel : Z;
  num_layer : Z;
  position_scale : option Q;
  num_channel : Z;
  num_head : Z;
  num_layer_in_transition : Z;
  num_point_qk : Z;
  num_point_v : Z;
  num_scalar_qk : Z;
  num_scalar_v : Z;
  dropout : Q;
  sidechain : Sidechain.t
}.
End StructureModule.

Module PredictedLddt.
Record t : Type := {
  fold_iteration : StructureModule.t;
  num_channel : Z;
  num_bins : Z
}.
End PredictedLddt.

Module Config.
Import StructureModule.

Definition extended_structure_module : StructureModule.t := {|
  sink_attention := false;
  stop_grad_ipa := true;
  single_channel := 384;
  pair_channel := 128;
  num_layer := 8;
  position_scale := Some 10.0%Q;
  num_channel := 384;
  num_head := 12;
  num_layer_in_transition := 3;
  num_point_qk := 4;
  num_point_v := 8;
  num_scalar_qk := 16;
  num_scalar_v := 16;
  dropout := 0.05%Q;
  sidechain := {| Sidechain.num_channel := 128 |}
|}.

Definition frame_initializer : StructureModule.t := {|
  sink_attention := false;
  stop_grad_ipa := false;
  single_channel := 384;
  pair_channel := 128;
  num_layer := 1;
  position_scale := None;
  num_channel := 384;
  num_head := 12;
  num_layer_in_transition := 3;
  num_point_qk := 4;
  num_point_v := 8;
  num_scalar_qk := 16;
  num_scalar_v := 16;
  dropout := 0.05%Q;
  sidechain := {| Sidechain.num_channel := 128 |}
|}.

Definition predicted_lddt : PredictedLddt.t := {|
  PredictedLddt.fold_iteration := {|
    sink_attention := false;
    stop_grad_ipa := true;
    single_channel := 384;
    pair_channel := 128;
    num_layer := 8;
    position_scale := Some 10.0%Q;
    num_channel := 384;
    num_head := 12;
    num_layer_in_transition := 3;
    num_point_qk := 4;
    num_point_v := 8;
    num_scalar_qk := 16;
    num_scalar_v := 16;
    dropout := 0.05%Q;
    sidechain := {| Sidechain.num_channel := 128 |}
  |};
  PredictedLddt.num_channel := 128;
  PredictedLddt.num_bins := 50
|}.

(** The three places where the configuration instantiates the shared
    structure-module block, in the order of the file. *)
Definition structure_module_instances : list (string * StructureModule.t) :=
  [("extended_structure_module"%string, extended_structure_module);
   ("frame_initializer"%string, frame_initializer);
   ("predicted_lddt.fold_iteration"%string,
    PredictedLddt.fold_iteration predicted_lddt)].
End Config.

(** ** Flattening a list of dictionaries *)

(** A Python dict with string keys, as the list of its items in insertion
    order. *)
Definition dict (V : Type) : Type := list (string * V).

(** [d[k]], when the key is there. *)
Definition dict_get {V : Type} (k : string) (d : dict V) : option V :=
  option_map snd (find (fun kv => String.eqb (fst kv) k) d).

(** [len(next(iter(d.values())))], where there is a first value. *)
Definition dict_rows {V : Type} (d : dict (list V)) : nat :=
  match d with
  | [] => 0
  | (_, v) :: _ => length v
  end.

(** [{k: v[i] for k, v in d.items()}]: [IndexError] when a value has no
    element [i]. *)
Definition dict_row {V : Type} (d : dict (list V)) (i : nat) : option (dict V) :=
  mapM (fun kv => e <- nth_error (snd kv) i ;; Some (fst kv, e)) d.

(** One dictionary of columns into the list of its rows; [next] on the
    values of an empty dictionary raises [StopIteration]. *)
Definition flatten_dict {V : Type} (d : dict (list V)) : option (list (dict V)) :=
  match d with
  | [] => None
  | _ :: _ => mapM (dict_row d) (seq 0 (dict_rows d))
  end.

Definition flatten_list_of_dicts {V : Type} (list_of_dicts : list (dict (list V)))
  : option (list (dict V)) :=
  flattened_lists <- mapM flatten_dict list_of_dicts ;;
  Some (fold_left (fun x y => x ++ y) flattened_lists []).

(** What makes [flatten_dict] go through: a first value, and no value
    shorter than it. *)
Definition flattenable {V : Type} (d : dict (list V)) : Prop :=
  d <> [] /\ Forall (fun kv => (dict_rows d <= length (snd kv))%nat) d.

(** ** Clamping a predicted embedding onto the codebooks *)

Section Clamp.
Variables protoken_emb aatype_emb : list (list R).

(** [x0] has shape (B, Nres, Nemb); the index arrays have shape (B, Nres)
    and select rows of the two tables, which are joined along the last
    axis. *)
Definition clamp_x0_fn (x0 : list (list (list R)))
  : option (list (list (list R))) :=
  protoken_indexes <-
    mapM (mapM (fun v =>
      nearest protoken_emb_distance_fn protoken_emb
              (firstn (DIM_EMB_PTK protoken_emb) v))) x0 ;;
  if infer_protuple then
    aatype_indexes <-
      mapM (mapM (fun v =>
        nearest aatype_emb_distance_fn aatype_emb
                (skipn (DIM_EMB_PTK protoken_emb) v))) x0 ;;
    Some (map (fun p =>
                 concatenate_last
                   (jnp_take protoken_emb (map Z.of_nat (fst p)))
                   (jnp_take aatype_emb (map Z.of_nat (snd p))))
              (combine protoken_indexes aatype_indexes))
  else
    Some (map (fun r => jnp_take protoken_emb (map Z.of_nat r))
              protoken_indexes).

End Clamp.

(** ** Padding and tiling the inputs of the sampler *)

Definition NRES : nat := 512.
Definition NSAMPLE_PER_DEVICE : nat := 8.

(** [np.pad(x, ((0, n - x.shape[0]),) + ((0, 0),) * ...)]: constant (zero)
    padding after the end of the first axis; a negative pad width raises
    [ValueError]. *)
Definition np_pad_first {T : Type} (zero : T) (n : nat) (x : list T)
  : option (list T) :=
  if Nat.leb (length x) n then Some (x ++ repeat zero (n - length x))
  else None.

(** [a.reshape(n, k, ...)] of an array whose first axis has [n * k]
    entries: consecutive groups of [k]. *)
Fixpoint reshape_first {T : Type} (n k : nat) (a : list T) : list (list T) :=
  match n with
  | O => []
  | S n' => firstn k a :: reshape_first n' k (skipn k a)
  end.

Section Tiling.
(** [len(jax.devices())] *)
Variable NDEVICES : nat.

Definition BATCH_SIZE : nat := NSAMPLE_PER_DEVICE * NDEVICES.

(** [zero] is the padding entry of the first axis: a zero scalar for a 1-D
    array, a zero row for a 2-D array. *)
Definition reshape_tile_pad_x {T : Type} (zero : T) (x : list T)
  : option (list (list (list T))) :=
  x <- np_pad_first zero NRES x ;;
  let x := repeat x BATCH_SIZE in
  Some (reshape_first NDEVICES NSAMPLE_PER_DEVICE x).

(** The 2-D case: the padding rows are as wide as the rows of [x] (a list
    of rows only knows its width when it has a row). *)
Definition reshape_tile_pad_x_2d (x : list (list R))
  : option (list (list (list (list R)))) :=
  reshape_tile_pad_x (repeat 0 (shape_last x)) x.

End Tiling.

(** ** Residue ids of annotated segments *)

(** Python [s.find(sub)]: the lowest index at which [sub] occurs in [s],
    -1 when it does not occur. *)
Fixpoint str_find (s sub : string) : Z :=
  if String.prefix sub s then 0%Z
  else match s with
       | EmptyString => (-1)%Z
       | String _ s' =>
           let r := str_find s' sub in
           if (r <? 0)%Z then (-1)%Z else (r + 1)%Z
       end.

(** [np.arange(start, stop)] on integers. *)
Definition np_arange (start stop : Z) : list Z :=
  map (fun i => (start + Z.of_nat i)%Z) (seq 0 (Z.to_nat (stop - start))).

(** The dictionary that the function reads from the first line of the
    annotation file is the argument [annotation_dict]; a segment that does
    not occur in the sequence is the [ValueError]. *)
Definition parse_annotation (annotation_dict : dict string)
    (aatype_indexes : list Z) : option (dict (list Z)) :=
  seq_str <- aatype_index_to_resname aatype_indexes ;;
  mapM (fun kv =>
          let start_id := str_find seq_str (snd kv) in
          if (start_id =? -1)%Z then None
          else
            let end_id := (start_id + Z.of_nat (String.length (snd kv)))%Z in
            Some (fst kv, np_arange start_id end_id))
       annotation_dict.

(** ** The sampling loop with RePaint *)

Definition num_diffusion_timesteps : Z := 500.
Definition n_eq_steps : nat := 50.
Definition phasing_time : Z := 250.

(** The default [repaint_time_steps], [np.arange(num_diffusion_timesteps)]. *)
Definition default_repaint_time_steps : list Z :=
  np_arange 0 num_diffusion_timesteps.

(** A batch on the devices: shape (NDEVICES, NSAMPLE_PER_DEVICE, Nres, Nemb). *)
Definition batch : Type := list (list (list (list R))).

(** A RePaint array is either of the rank of [x] and used as it is, or has
    one more, trailing, time axis, of which [a[..., t-1]] is taken; the
    function stands for that indexing. *)
Inductive repaint_array : Type :=
| SameRank (a : batch)
| TimeAxis (a : Z -> batch).

Definition at_time (a : repaint_array) (t : Z) : batch :=
  match a with
  | SameRank a => a
  | TimeAxis a => a (t - 1)%Z
  end.

(** An operation on three arrays of one shape, along the first axis. *)
Fixpoint zip3M {A B C D : Type} (f : A -> B -> C -> option D)
    (a : list A) (b : list B) (c : list C) : option (list D) :=
  match a, b, c with
  | [], [], [] => Some []
  | x :: a', y :: b', z :: c' =>
      r <- f x y z ;;
      rs <- zip3M f a' b' c' ;;
      Some (r :: rs)
  | _, _, _ => None
  end.

(** The blending line on a whole batch. *)
Definition repaint_blend_batch (mask ctx x : batch) : option batch :=
  zip3M (zip3M repaint_blend) mask ctx x.

Fixpoint iterM {S : Type} (n : nat) (f : S -> option S) (s : S) : option S :=
  match n with
  | O => Some s
  | S n' => s' <- f s ;; iterM n' f s'
  end.

Fixpoint foldM {S T : Type} (f : T -> S -> option S) (l : list T) (s : S)
  : option S :=
  match l with
  | [] => Some s
  | t :: l' => s' <- f t s ;; foldM f l' s'
  end.

Module InferRet.
Record t (SeqMask ResidueIndex : Type) : Type := {
  embedding : batch;
  seq_mask : SeqMask;
  residue_index : ResidueIndex;
  protoken_indexes : list (list (list nat));
  aatype_indexes : option (list (list (list nat)))
}.
End InferRet.

Section RunInfer.
(** The random keys, the sequence mask and the residue index are passed
    along untouched; the jitted model steps are the four functions below
    (model parameters included). *)
Variables Key SeqMask ResidueIndex : Type.
Variables pjit_denoise_step pjit_denoise_step_clamped :
  batch -> SeqMask -> Z -> ResidueIndex -> Key -> batch * Key.
Variables pjit_noise_step pjit_q_sample : batch -> Z -> Key -> batch * Key.
Variables protoken_emb aatype_emb : list (list R).

Definition denoise_fn (t : Z)
  : batch -> SeqMask -> Z -> ResidueIndex -> Key -> batch * Key :=
  if (phasing_time <? t)%Z then pjit_denoise_step
  else pjit_denoise_step_clamped.

(** The [if repaint_context is not None and t in repaint_time_steps] block;
    a missing mask raises when its shape is asked for. *)
Definition repaint (repaint_context repaint_mask : option repaint_array)
    (repaint_time_steps : list Z) (t : Z) (x : batch) (rng_keys : Key)
  : option (batch * Key) :=
  match repaint_context with
  | Some repaint_context =>
      if existsb (Z.eqb t) repaint_time_steps then
        repaint_mask <- repaint_mask ;;
        let repaint_context_ := at_time repaint_context t in
        let repaint_mask_ := at_time repaint_mask t in
        let (repaint_context_t, rng_keys) :=
          pjit_q_sample repaint_context_ t rng_keys in
        x <- repaint_blend_batch repaint_mask_ repaint_context_t x ;;
        Some (x, rng_keys)
      else Some (x, rng_keys)
  | None => Some (x, rng_keys)
  end.

(** The body of the loop over [eq_step]. *)
Definition eq_step (seq_mask : SeqMask) (residue_index : ResidueIndex)
    (repaint_context repaint_mask : option repaint_array)
    (repaint_time_steps : list Z) (t : Z) (st : batch * Key)
  : option (batch * Key) :=
  let (x, rng_keys) := denoise_fn t (fst st) seq_mask t residue_index (snd st) in
  let (x, rng_keys) := pjit_noise_step x t rng_keys in
  repaint repaint_context repaint_mask repaint_time_steps t x rng_keys.

(** The body of the loop over [ti]: [n_eq_steps] equilibrium steps, then one
    more denoising step with the [denoise_fn] they used ([n_eq_steps] is
    positive, so that it is bound). *)
Definition timestep (seq_mask : SeqMask) (residue_index : ResidueIndex)
    (repaint_context repaint_mask : option repaint_array)
    (repaint_time_steps : list Z) (t : Z) (st : batch * Key)
  : option (batch * Key) :=
  st <- iterM n_eq_steps
          (eq_step seq_mask residue_index repaint_context repaint_mask
                   repaint_time_steps t) st ;;
  Some (denoise_fn t (fst st) seq_mask t residue_index (snd st)).

(** [t = num_diffusion_timesteps - ti] for [ti] in
    [range(num_diffusion_timesteps)]. *)
Definition timesteps : list Z :=
  map (fun ti => (num_diffusion_timesteps - Z.of_nat ti)%Z)
      (seq 0 (Z.to_nat num_diffusion_timesteps)).

(** [pjit_index_from_embedding]: [index_from_embedding] on every device,
    the results stacked along the device axis. *)
Definition pjit_index_from_embedding (x : batch)
  : option (list (list (list nat)) * option (list (list (list nat)))) :=
  rets <- mapM (index_from_embedding protoken_emb aatype_emb) x ;;
  Some (map protoken_indexes rets,
        if infer_protuple then mapM aatype_indexes rets else None).

Definition run_infer (x : batch) (seq_mask : SeqMask)
    (residue_index : ResidueIndex) (rng_keys : Key)
    (repaint_context repaint_mask : option repaint_array)
    (repaint_time_steps : list Z)
  : option (InferRet.t SeqMask ResidueIndex) :=
  st <- foldM (timestep seq_mask residue_index repaint_context repaint_mask
                        repaint_time_steps)
              timesteps (x, rng_keys) ;;
  idx <- pjit_index_from_embedding (fst st) ;;
  Some {| InferRet.embedding := fst st;
          InferRet.seq_mask := seq_mask;
          InferRet.residue_index := residue_index;
          InferRet.protoken_indexes := fst idx;
          InferRet.aatype_indexes := snd idx |}.

End RunInfer.

(** The shape of a batch down to the length of every embedding vector. *)
Definition batch_shape (a : batch) : list (list (list nat)) :=
  map (map (map (@length R))) a.

(** * Properties *)

Unset Implicit Arguments.

(** ** The error monad *)

Lemma bind_Some {A B : Type} (m : option A) (k : A -> option B) (b : B) :
  bind m k = Some b <-> exists a, m = Some a /\ k a = Some b.
Proof.
  destruct m as [a|]; simpl; split.
  - intros H. exists a. auto.
  - intros (a' & E & H). inversion E. subst. exact H.
  - discriminate.
  - intros (a' & E & _). discriminate.
Qed.

Lemma mapM_cons_Some {A B : Type} (f : A -> option B) a l r :
  mapM f (a :: l) = Some r <->
  exists b bs, f a = Some b /\ mapM f l = Some bs /\ r = b :: bs.
Proof.
  simpl. rewrite bind_Some. split.
  - intros (b & Hb & H). apply bind_Some in H. destruct H as (bs & Hbs & E).
    inversion E. eauto.
  - intros (b & bs & Hb & Hbs & ->). exists b. split; [exact Hb|].
    rewrite Hbs. reflexivity.
Qed.

Lemma mapM_length {A B : Type} (f : A -> option B) l r :
  mapM f l = Some r -> length r = length l.
Proof.
  revert r. induction l as [|a l IH]; intros r H.
  - inversion H. reflexivity.
  - apply mapM_cons_Some in H. destruct H as (b & bs & _ & Hbs & ->).
    simpl. f_equal. auto.
Qed.

(** Position [i] of a successful [mapM] is [f] at position [i] of the input. *)
Lemma mapM_nth_error {A B : Type} (f : A -> option B) l r i :
  mapM f l = Some r ->
  nth_error r i = bind (nth_error l i) f.
Proof.
  revert r i. induction l as [|a l IH]; intros r i H.
  - inversion H. destruct i; reflexivity.
  - apply mapM_cons_Some in H. destruct H as (b & bs & Hb & Hbs & ->).
    destruct i as [|i]; simpl.
    + symmetry. exact Hb.
    + apply IH. exact Hbs.
Qed.

Lemma mapM_total {A B : Type} (f : A -> option B) l :
  Forall (fun a => exists b, f a = Some b) l ->
  exists r, mapM f l = Some r.
Proof.
  induction 1 as [|a l (b & Hb) _ (r & Hr)].
  - exists []. reflexivity.
  - exists (b :: r). simpl. rewrite Hb. simpl. rewrite Hr. reflexivity.
Qed.

(** ** Residue names *)

Section Resnames.
Local Open Scope Z_scope.

Example aatype_index_to_resname_sample :
  aatype_index_to_resname [12; 0; 19; 4] = Some "MAVC"%string.
Proof. reflexivity. Qed.

Example aatype_index_to_resname_negative :
  aatype_index_to_resname [-1; -20] = Some "VA"%string.
Proof. reflexivity. Qed.

Example resname_to_aatype_index_sample :
  resname_to_aatype_index "MAVC" = Some [12; 0; 19; 4].
Proof. reflexivity. Qed.

Example resname_to_aatype_index_unknown :
  resname_to_aatype_index "AXA" = None.
Proof. reflexivity. Qed.

Lemma canonical_cases i :
  canonical i -> In i (map Z.of_nat (seq 0 20)).
Proof.
  intros [H0 H20]. apply in_map_iff. exists (Z.to_nat i). split; [lia|].
  apply in_seq. lia.
Qed.

Lemma getitem_index i :
  canonical i ->
  exists c, py_getitem restypes i = Some c /\ py_index c restypes = Some i.
Proof.
  intros H. apply canonical_cases in H. simpl in H.
  repeat (destruct H as [<- | H]; [eexists; split; reflexivity|]).
  contradiction.
Qed.

Lemma index_getitem c :
  In c restypes ->
  exists i, py_index c restypes = Some i /\ py_getitem restypes i = Some c.
Proof.
  intros H. simpl in H.
  repeat (destruct H as [<- | H]; [eexists; split; reflexivity|]).
  contradiction.
Qed.

Lemma mapM_getitem_index idx :
  Forall canonical idx ->
  exists cs, mapM (py_getitem restypes) idx = Some cs /\
             mapM (fun a => py_index a restypes) cs = Some idx.
Proof.
  induction 1 as [|i idx Hi _ (cs & H1 & H2)].
  - exists []. split; reflexivity.
  - destruct (getitem_index i Hi) as (c & Hc & Hc').
    exists (c :: cs). split; cbn [mapM].
    + rewrite Hc. cbn [bind]. rewrite H1. reflexivity.
    + rewrite Hc'. cbn [bind]. rewrite H2. reflexivity.
Qed.

Lemma mapM_index_getitem cs :
  Forall (fun c => In c restypes) cs ->
  exists idx, mapM (fun a => py_index a restypes) cs = Some idx /\
              mapM (py_getitem restypes) idx = Some cs.
Proof.
  induction 1 as [|c cs Hc _ (idx & H1 & H2)].
  - exists []. split; reflexivity.
  - destruct (index_getitem c Hc) as (i & Hi & Hi').
    exists (i :: idx). split; cbn [mapM].
    + rewrite Hi. cbn [bind]. rewrite H1. reflexivity.
    + rewrite Hi'. cbn [bind]. rewrite H2. reflexivity.
Qed.

End Resnames.

Lemma mapM_In_None {A B : Type} (f : A -> option B) l a :
  In a l -> f a = None -> mapM f l = None.
Proof.
  induction l as [|b l IH]; intros Hin Hf; [contradiction|].
  destruct Hin as [-> | Hin]; cbn [mapM].
  - rewrite Hf. reflexivity.
  - rewrite (IH Hin Hf). destruct (f b); reflexivity.
Qed.

Lemma getitem_restypes_symbol i c :
  py_getitem restypes i = Some c -> In c restypes.
Proof.
  unfold py_getitem. intros H.
  destruct (0 <=? i)%Z; [|destruct (- Z.of_nat (length restypes) <=? i)%Z];
    try discriminate; eapply nth_error_In; exact H.
Qed.

Lemma getitem_restypes_past_end i :
  (20 <= i)%Z -> py_getitem restypes i = None.
Proof.
  intros H. unfold py_getitem.
  destruct (Z.leb_spec 0 i) as [_|]; [|lia].
  apply nth_error_None. simpl. lia.
Qed.

(** C7 (as the claim states it, refuted): index 20 lies in the 22-way range
    0..21 and the 20-entry table has no symbol for it. *)
Lemma aatype_index_20_out_of_table :
  (0 <= 20 <= 21)%Z /\ aatype_index_to_resname [20%Z] = None.
Proof. split; [lia | reflexivity]. Qed.

(** C7 (amended): every array of indexes of the 20 canonical residue types
    (0..19) is turned into a string of as many residue symbols of the table;
    an array that also holds index 20 or 21 makes the table lookup raise. *)
Theorem aatype_index_to_resname_canonical (aatype_index : list Z) :
  Forall canonical aatype_index ->
  (exists names,
      aatype_index_to_resname aatype_index = Some names /\
      String.length names = length aatype_index /\
      Forall (fun c => In c restypes) (list_ascii_of_string names)) /\
  (forall i, (20 <= i <= 21)%Z ->
      aatype_index_to_resname (aatype_index ++ [i]) = None).
Proof.
  intros H. split.
  - destruct (mapM_getitem_index _ H) as (cs & Hcs & _).
    exists (string_of_list_ascii cs). unfold aatype_index_to_resname.
    rewrite Hcs. cbn [bind]. split; [reflexivity|].
    rewrite list_ascii_of_string_of_list_ascii. split.
    + rewrite <- (mapM_length _ _ _ Hcs).
      clear. induction cs as [|c cs IH]; simpl; congruence.
    + apply Forall_forall. intros c Hc.
      apply In_nth_error in Hc. destruct Hc as [n Hn].
      rewrite (mapM_nth_error _ _ _ n Hcs) in Hn.
      destruct (nth_error aatype_index n) as [i|]; [|discriminate].
      eapply getitem_restypes_symbol. exact Hn.
  - intros i Hi. unfold aatype_index_to_resname.
    rewrite (mapM_In_None (py_getitem restypes) _ i); [reflexivity| |].
    + apply in_or_app. right. left. reflexivity.
    + apply getitem_restypes_past_end. lia.
Qed.

Lemma aatype_index_to_resname_canonical_witness :
  Forall canonical [12; 0; 19; 4]%Z /\
  (exists names,
      aatype_index_to_resname [12; 0; 19; 4]%Z = Some names /\
      String.length names = 4%nat /\
      Forall (fun c => In c restypes) (list_ascii_of_string names)) /\
  (forall i, (20 <= i <= 21)%Z ->
      aatype_index_to_resname ([12; 0; 19; 4] ++ [i])%Z = None).
Proof.
  assert (H : Forall canonical [12; 0; 19; 4]%Z).
  { repeat (apply Forall_cons; [unfold canonical; lia|]). apply Forall_nil. }
  split; [exact H|].
  exact (aatype_index_to_resname_canonical _ H).
Defined.

(** C10: on the 20 canonical residue types the two conversions are inverse
    to each other: an index array with all entries in [0, 20) is recovered
    from its residue string, and a string over the 20 one-letter symbols is
    recovered from its index array. *)
Theorem resname_aatype_index_roundtrip (indexes : list Z) (resnames : string) :
  Forall canonical indexes ->
  Forall (fun c => In c restypes) (list_ascii_of_string resnames) ->
  (exists names,
      aatype_index_to_resname indexes = Some names /\
      resname_to_aatype_index names = Some indexes) /\
  (exists idx,
      resname_to_aatype_index resnames = Some idx /\
      aatype_index_to_resname idx = Some resnames).
Proof.
  intros Hi Hs. split.
  - destruct (mapM_getitem_index _ Hi) as (cs & H1 & H2).
    exists (string_of_list_ascii cs). unfold aatype_index_to_resname.
    rewrite H1. cbn [bind]. split; [reflexivity|].
    unfold resname_to_aatype_index.
    rewrite list_ascii_of_string_of_list_ascii. exact H2.
  - destruct (mapM_index_getitem _ Hs) as (idx & H1 & H2).
    exists idx. split; [exact H1|].
    unfold aatype_index_to_resname. rewrite H2. cbn [bind].
    rewrite string_of_list_ascii_of_string. reflexivity.
Qed.

Lemma resname_aatype_index_roundtrip_witness :
  Forall canonical [12; 0; 19; 4]%Z /\
  Forall (fun c => In c restypes) (list_ascii_of_string "MKV") /\
  (exists names,
      aatype_index_to_resname [12; 0; 19; 4]%Z = Some names /\
      resname_to_aatype_index names = Some [12; 0; 19; 4]%Z) /\
  (exists idx,
      resname_to_aatype_index "MKV" = Some idx /\
      aatype_index_to_resname idx = Some "MKV"%string).
Proof.
  assert (Hi : Forall canonical [12; 0; 19; 4]%Z).
  { repeat (apply Forall_cons; [unfold canonical; lia|]). apply Forall_nil. }
  assert (Hs : Forall (fun c => In c restypes) (list_ascii_of_string "MKV")).
  { repeat (apply Forall_cons; [simpl; tauto|]). apply Forall_nil. }
  split; [exact Hi|]. split; [exact Hs|].
  exact (resname_aatype_index_roundtrip _ _ Hi Hs).
Defined.

(** ** Configuration *)

(** C8: the configuration instantiates the structure-module block three
    times, as [extended_structure_module], [frame_initializer] and
    [predicted_lddt.fold_iteration], with [num_layer] 8, 1 and 8 and
    [stop_grad_ipa] True, False and True. *)
Theorem config_structure_module_instances :
  map (fun p => (fst p, StructureModule.num_layer (snd p),
                 StructureModule.stop_grad_ipa (snd p)))
      Config.structure_module_instances =
  [("extended_structure_module"%string, 8%Z, true);
   ("frame_initializer"%string, 1%Z, false);
   ("predicted_lddt.fold_iteration"%string, 8%Z, true)].
Proof. reflexivity. Qed.

(** ** The distance functions *)

Lemma eps_pos : 0 < eps.
Proof. unfold eps. lra. Qed.

Lemma np_sum_squares_nonneg x : 0 <= np_sum (map (fun a => a * a) x).
Proof.
  induction x as [|a x IH]; simpl; [lra|].
  pose proof (Rle_0_sqr a) as Ha. unfold Rsqr in Ha. lra.
Qed.

Lemma norm_nonneg x : 0 <= norm x.
Proof. apply sqrt_pos. Qed.

Lemma norm_squared x : norm x * norm x = np_sum (map (fun a => a * a) x).
Proof. apply sqrt_sqrt, np_sum_squares_nonneg. Qed.

Lemma denominator_pos x : 0 < norm x + eps.
Proof. pose proof (norm_nonneg x). pose proof eps_pos. lra. Qed.

Lemma broadcast2_same_length f x y :
  length x = length y ->
  broadcast2 f x y = Some (map (fun p => f (fst p) (snd p)) (combine x y)).
Proof.
  intros H. unfold broadcast2. rewrite H, Nat.eqb_refl. reflexivity.
Qed.

(** Dividing a row by its kept-dimension norm never fails: the norm array
    has length 1 and is stretched over the row. *)
Lemma normalized_eq x :
  normalized x = Some (map (fun a => a / (norm x + eps)) x).
Proof.
  unfold normalized, norm_keepdims. cbn [map].
  destruct x as [|a [|b x]]; reflexivity.
Qed.

Lemma np_sum_products u v :
  np_sum (map (fun p => fst p * snd p) (combine u v)) = Reference.dot u v.
Proof.
  revert v. induction u as [|a u IH]; intros [|b v]; simpl; try reflexivity.
  rewrite IH. reflexivity.
Qed.

Lemma np_sum_squares_dot x :
  np_sum (map (fun a => a * a) x) = Reference.dot x x.
Proof. induction x as [|a x IH]; simpl; [|rewrite IH]; reflexivity. Qed.

Lemma norm_reference x : norm x = Reference.euclidean_norm x.
Proof.
  unfold norm, Reference.euclidean_norm. rewrite np_sum_squares_dot.
  reflexivity.
Qed.

Lemma np_sum_squared_differences u v :
  np_sum (map (fun a => a ^ 2) (map (fun p => fst p - snd p) (combine u v))) =
  Reference.squared_euclidean u v.
Proof.
  revert v. induction u as [|a u IH]; intros [|b v]; simpl; try reflexivity.
  rewrite <- IH. simpl. reflexivity.
Qed.

Lemma protoken_emb_distance_fn_eq x y :
  length x = length y ->
  protoken_emb_distance_fn x y =
  Some (- Reference.dot (map (fun a => a / (norm x + eps)) x)
                        (map (fun a => a / (norm y + eps)) y)).
Proof.
  intros H. unfold protoken_emb_distance_fn.
  rewrite !normalized_eq. cbn [bind].
  rewrite broadcast2_same_length by (rewrite !length_map; exact H).
  cbn [bind]. rewrite np_sum_products. reflexivity.
Qed.

(** C2: on two vectors of one dimension the two distance functions compute
    the reference definitions: the negative dot product of the vectors
    divided by their Euclidean norms plus 1e-6, and the sum of the squared
    coordinate differences. *)
Theorem distance_fns_refine_reference (x y : list R) :
  length x = length y ->
  protoken_emb_distance_fn x y = Some (Reference.cosine_distance x y) /\
  aatype_emb_distance_fn x y = Some (Reference.squared_euclidean x y).
Proof.
  intros H. split.
  - rewrite (protoken_emb_distance_fn_eq x y H).
    unfold Reference.cosine_distance, Reference.unit.
    rewrite <- !norm_reference. reflexivity.
  - unfold aatype_emb_distance_fn.
    rewrite (broadcast2_same_length Rminus x y H). cbn [bind].
    rewrite np_sum_squared_differences. reflexivity.
Qed.

Lemma distance_fns_refine_reference_witness :
  length [0.9; 0.1] = length [1; 0] /\
  protoken_emb_distance_fn [0.9; 0.1] [1; 0] =
    Some (Reference.cosine_distance [0.9; 0.1] [1; 0]) /\
  aatype_emb_distance_fn [0.9; 0.1] [1; 0] =
    Some (Reference.squared_euclidean [0.9; 0.1] [1; 0]).
Proof.
  split; [reflexivity|].
  apply (distance_fns_refine_reference [0.9; 0.1] [1; 0]). reflexivity.
Defined.

Example aatype_emb_distance_fn_sample :
  aatype_emb_distance_fn [1; 2] [3; 5] = Some 13.
Proof. unfold aatype_emb_distance_fn. simpl. f_equal. ring. Qed.

Example aatype_emb_distance_fn_stretch :
  aatype_emb_distance_fn [1] [2; 3] = Some 5.
Proof. unfold aatype_emb_distance_fn. simpl. f_equal. ring. Qed.

Example aatype_emb_distance_fn_shape_error :
  aatype_emb_distance_fn [1; 2; 3] [1; 2] = None.
Proof. reflexivity. Qed.

Example protoken_emb_distance_fn_zero_vector :
  protoken_emb_distance_fn [0; 0] [1; 0] = Some 0.
Proof.
  rewrite protoken_emb_distance_fn_eq by reflexivity.
  f_equal. simpl. unfold Rdiv. ring.
Qed.

(** The division that fails on a zero divisor separates the guarded
    normalisation from an unguarded one: without the [+ 1e-6] the zero
    vector is divided by zero. *)
Lemma checked_divide_by_zero a : checked_divide a 0 = None.
Proof.
  unfold checked_divide. destruct (Req_dec_T 0 0) as [_|H]; [reflexivity|].
  exfalso. apply H. reflexivity.
Qed.

Lemma norm_zero_vector n : norm (repeat 0 n) = 0.
Proof.
  unfold norm. replace (np_sum _) with 0; [apply sqrt_0|].
  induction n as [|n IH]; simpl; [reflexivity|]. rewrite <- IH. ring.
Qed.

Example unguarded_division_fails_on_zero_vector :
  broadcast2_checked checked_divide [0; 0] (norm_keepdims [0; 0]) = None.
Proof.
  unfold norm_keepdims. change [0; 0] with (repeat 0 2).
  rewrite norm_zero_vector.
  unfold broadcast2_checked. cbn [repeat length Nat.eqb mapM].
  rewrite checked_divide_by_zero. reflexivity.
Qed.

Lemma checked_divide_nonzero a b : b <> 0 -> checked_divide a b = Some (a / b).
Proof.
  intros H. unfold checked_divide.
  destruct (Req_dec_T b 0) as [E|_]; [contradiction|reflexivity].
Qed.

Lemma mapM_as_map {A B : Type} (f : A -> option B) (g : A -> B) l :
  (forall a, In a l -> f a = Some (g a)) -> mapM f l = Some (map g l).
Proof.
  induction l as [|a l IH]; intros H; [reflexivity|].
  cbn [mapM map]. rewrite (H a (or_introl eq_refl)). cbn [bind].
  rewrite IH by (intros b Hb; apply H; right; exact Hb). reflexivity.
Qed.

Lemma denominator_eq x : denominator x = [norm x + eps].
Proof. reflexivity. Qed.

(** With the guard the checked division never fails: the checked
    normalisation is the normalisation. *)
Lemma normalized_checked_eq x : normalized_checked x = normalized x.
Proof.
  rewrite normalized_eq. unfold normalized_checked.
  rewrite denominator_eq.
  assert (Hc : norm x + eps <> 0)
    by (pose proof (denominator_pos x); lra).
  assert (Hm : mapM (fun a => checked_divide a (norm x + eps)) x =
               Some (map (fun a => a / (norm x + eps)) x))
    by (apply mapM_as_map; intros a _; apply checked_divide_nonzero, Hc).
  unfold broadcast2_checked.
  destruct x as [|a [|b x]].
  - reflexivity.
  - cbn [length Nat.eqb combine mapM fst snd map].
    rewrite (checked_divide_nonzero a _ Hc). reflexivity.
  - exact Hm.
Qed.

(** C3: for every input vector, the all-zero vector included, the divisor
    [norm(x) + 1e-6] of the normalisation inside
    [protoken_emb_distance_fn] is strictly positive; hence the function
    read with a division that fails on a zero divisor never takes the
    failing branch, it agrees with the function on all inputs, and on two
    vectors of one dimension it returns a number, the negative dot product
    of the two normalised vectors. *)
Theorem protoken_emb_distance_fn_well_defined (x y : list R) :
  Forall (fun c => 0 < c) (denominator x) /\
  Forall (fun c => 0 < c) (denominator y) /\
  protoken_emb_distance_fn_checked x y = protoken_emb_distance_fn x y /\
  (length x = length y ->
   protoken_emb_distance_fn_checked x y =
   Some (Reference.cosine_distance x y)).
Proof.
  assert (E : protoken_emb_distance_fn_checked x y =
              protoken_emb_distance_fn x y).
  { unfold protoken_emb_distance_fn_checked, protoken_emb_distance_fn.
    rewrite !normalized_checked_eq. reflexivity. }
  split; [rewrite denominator_eq; repeat constructor; apply denominator_pos|].
  split; [rewrite denominator_eq; repeat constructor; apply denominator_pos|].
  split; [exact E|].
  intros H. rewrite E, (protoken_emb_distance_fn_eq x y H).
  unfold Reference.cosine_distance, Reference.unit.
  rewrite <- !norm_reference. reflexivity.
Qed.

Lemma protoken_emb_distance_fn_well_defined_witness :
  length [0; 0] = length [1; 0] /\
  protoken_emb_distance_fn_checked [0; 0] [1; 0] =
  Some (Reference.cosine_distance [0; 0] [1; 0]).
Proof.
  split; [reflexivity|].
  apply (protoken_emb_distance_fn_well_defined [0; 0] [1; 0]). reflexivity.
Defined.

(** ** The arg-min *)

Example argmin_by_first_of_ties :
  argmin_by Z.ltb [3; 1; 2; 1; 5]%Z = Some 1%nat.
Proof. reflexivity. Qed.

Example argmin_by_empty_row : argmin_by Z.ltb [] = None.
Proof. reflexivity. Qed.

Lemma Rltb_true a b : Rltb a b = true <-> a < b.
Proof. unfold Rltb. destruct (Rlt_dec a b); split; auto; discriminate. Qed.

Lemma Rltb_false a b : Rltb a b = false <-> b <= a.
Proof.
  unfold Rltb. destruct (Rlt_dec a b); split; auto; try discriminate; lra.
Qed.

(** The scan keeps, after the prefix [pre], the lowest position of the
    minimum of [pre]; at the end it is the one of the whole row. *)
Lemma argmin_from_first_minimum l :
  forall pre best bv,
    (best < length pre)%nat ->
    nth best pre 0 = bv ->
    (forall j, (j < length pre)%nat ->
       bv <= nth j pre 0 /\ ((j < best)%nat -> bv < nth j pre 0)) ->
    first_minimum (pre ++ l) (argmin_from Rltb best bv (length pre) l).
Proof.
  induction l as [|v l IH]; intros pre best bv Hbest Hbv Hpre.
  - simpl. rewrite app_nil_r. subst bv. split; assumption.
  - assert (Hlen : length (pre ++ [v]) = S (length pre))
      by (rewrite length_app; simpl; lia).
    assert (Hv : nth (length pre) (pre ++ [v]) 0 = v)
      by (rewrite app_nth2, Nat.sub_diag by lia; reflexivity).
    replace (pre ++ v :: l) with ((pre ++ [v]) ++ l)
      by (rewrite <- app_assoc; reflexivity).
    cbn [argmin_from]. rewrite <- Hlen.
    destruct (Rltb v bv) eqn:E.
    + apply Rltb_true in E. apply (IH (pre ++ [v]) (length pre) v).
      * lia.
      * exact Hv.
      * intros j Hj. destruct (Nat.eq_dec j (length pre)) as [->|Hne].
        -- rewrite Hv. split; [lra | lia].
        -- assert (Hj' : (j < length pre)%nat) by lia.
           rewrite app_nth1 by exact Hj'.
           destruct (Hpre j Hj') as [Hle _]. split; intros; lra.
    + apply Rltb_false in E. apply (IH (pre ++ [v]) best bv).
      * lia.
      * rewrite app_nth1 by exact Hbest. exact Hbv.
      * intros j Hj. destruct (Nat.eq_dec j (length pre)) as [->|Hne].
        -- rewrite Hv. split; [exact E | lia].
        -- assert (Hj' : (j < length pre)%nat) by lia.
           rewrite app_nth1 by exact Hj'. apply Hpre. exact Hj'.
Qed.

Lemma argmin_first_minimum ds :
  ds <> [] -> exists k, argmin ds = Some k /\ first_minimum ds k.
Proof.
  destruct ds as [|v l]; [congruence|]. intros _.
  eexists. split; [reflexivity|].
  apply (argmin_from_first_minimum l [v] 0%nat v).
  - simpl. lia.
  - reflexivity.
  - intros j Hj. simpl in Hj. assert (j = 0%nat) as -> by lia.
    simpl. split; [lra | lia].
Qed.

(** The lowest position of the minimum is unique: the arg-min is determined
    by the row. *)
Lemma first_minimum_unique ds k k' :
  first_minimum ds k -> first_minimum ds k' -> k = k'.
Proof.
  intros [Hk Hmin] [Hk' Hmin'].
  destruct (Hmin k' Hk') as [H1 H2]. destruct (Hmin' k Hk) as [H3 H4].
  destruct (Nat.lt_trichotomy k k') as [Hlt | [Heq | Hgt]]; [|exact Heq|].
  - specialize (H4 Hlt). lra.
  - specialize (H2 Hgt). lra.
Qed.

Lemma argmin_pair d0 d1 :
  argmin [d0; d1] = Some (if Rltb d1 d0 then 1%nat else 0%nat).
Proof. unfold argmin. simpl. destruct (Rltb d1 d0); reflexivity. Qed.

(** ** The concrete two-entry codebook *)

(** The cosine-style distance of two 2-dimensional vectors, the second one
    on the first axis, in terms of the two (positive) divisors. *)
Lemma protoken_distance_to_axis a b s :
  protoken_emb_distance_fn [a; b] [s; 0] =
  Some (- (a * s * / (norm [a; b] + eps) * / (norm [s; 0] + eps))).
Proof.
  rewrite protoken_emb_distance_fn_eq by reflexivity.
  f_equal. cbn [map Reference.dot]. unfold Rdiv. ring.
Qed.

Lemma nearest_scenario a b :
  nearest protoken_emb_distance_fn scenario_codebook [a; b] =
  Some (if Rltb (- (a * -1 * / (norm [a; b] + eps) * / (norm [-1; 0] + eps)))
                (- (a * 1 * / (norm [a; b] + eps) * / (norm [1; 0] + eps)))
        then 1%nat else 0%nat).
Proof.
  unfold nearest, scenario_codebook. cbn [mapM].
  rewrite !protoken_distance_to_axis. cbn [bind].
  apply argmin_pair.
Qed.

Lemma inverse_denominator_pos x : 0 < / (norm x + eps).
Proof. apply Rinv_0_lt_compat, denominator_pos. Qed.

Lemma nearest_scenario_sign a b :
  a <> 0 ->
  nearest protoken_emb_distance_fn scenario_codebook [a; b] =
  Some (if Rltb a 0 then 1%nat else 0%nat).
Proof.
  intros Ha. rewrite nearest_scenario. f_equal.
  pose proof (inverse_denominator_pos [a; b]) as Hz.
  pose proof (inverse_denominator_pos [-1; 0]) as Hm.
  pose proof (inverse_denominator_pos [1; 0]) as Hp.
  pose proof (Rmult_lt_0_compat _ _ Hz Hm) as Hzm.
  pose proof (Rmult_lt_0_compat _ _ Hz Hp) as Hzp.
  set (iz := / (norm [a; b] + eps)) in *.
  set (im := / (norm [-1; 0] + eps)) in *.
  set (ip := / (norm [1; 0] + eps)) in *.
  destruct (Rltb a 0) eqn:E.
  - apply Rltb_true in E. replace (Rltb _ _) with true; [reflexivity|].
    symmetry. apply Rltb_true. nra.
  - apply Rltb_false in E. replace (Rltb _ _) with false; [reflexivity|].
    symmetry. apply Rltb_false. nra.
Qed.

(** C4: with the codebook of the two entries [1,0] and [-1,0] under the
    cosine-style distance, the arg-min maps z = [0.9,0.1] to code id 0 and
    z = [-0.9,-0.1] to code id 1; [index_from_embedding] over that codebook
    returns these two ids for a batch of the two inputs. *)
Theorem two_entry_codebook_scenario :
  nearest protoken_emb_distance_fn scenario_codebook [0.9; 0.1] = Some 0%nat /\
  nearest protoken_emb_distance_fn scenario_codebook [-0.9; -0.1] = Some 1%nat /\
  option_map protoken_indexes
    (index_from_embedding scenario_codebook [[]]
       [[[0.9; 0.1]; [-0.9; -0.1]]]) = Some [[0%nat; 1%nat]].
Proof.
  assert (H0 : nearest protoken_emb_distance_fn scenario_codebook [0.9; 0.1]
               = Some 0%nat).
  { rewrite nearest_scenario_sign by lra.
    replace (Rltb 0.9 0) with false; [reflexivity|].
    symmetry. apply Rltb_false. lra. }
  assert (H1 : nearest protoken_emb_distance_fn scenario_codebook [-0.9; -0.1]
               = Some 1%nat).
  { rewrite nearest_scenario_sign by lra.
    replace (Rltb (-0.9) 0) with true; [reflexivity|].
    symmetry. apply Rltb_true. lra. }
  repeat split; [exact H0 | exact H1 |].
  unfold index_from_embedding, DIM_EMB_PTK.
  cbn [shape_last scenario_codebook length mapM firstn skipn].
  change [[1; 0]; [-1; 0]] with scenario_codebook.
  rewrite H0, H1. reflexivity.
Qed.

(** ** Nearest-neighbour projection *)

Lemma mapM_nth {A B : Type} (f : A -> option B) l r j da db :
  mapM f l = Some r -> (j < length l)%nat ->
  f (nth j l da) = Some (nth j r db).
Proof.
  intros H Hj. pose proof (mapM_nth_error f l r j H) as E.
  rewrite (nth_error_nth' l da Hj) in E.
  rewrite (nth_error_nth' r db) in E
    by (rewrite (mapM_length f l r H); exact Hj).
  cbn [bind] in E. symmetry. exact E.
Qed.

Lemma lookup2_mapM {A B : Type} (f : A -> option B) x r b i :
  mapM (mapM f) x = Some r ->
  lookup2 r b i = bind (lookup2 x b i) f.
Proof.
  intros H. unfold lookup2.
  pose proof (mapM_nth_error (mapM f) x r b H) as Hb.
  destruct (nth_error x b) as [row|] eqn:Ex; cbn [bind] in *.
  - destruct (mapM f row) as [rrow|] eqn:E.
    + rewrite Hb. cbn [bind]. apply mapM_nth_error. exact E.
    + exfalso. apply nth_error_None in Hb.
      assert (b < length x)%nat by (apply nth_error_Some; congruence).
      rewrite (mapM_length _ _ _ H) in Hb. lia.
  - rewrite Hb. reflexivity.
Qed.

Section Projection.
Variables protoken_emb aatype_emb : list (list R).

Local Abbreviation protoken_of :=
  (fun v : list R =>
     nearest protoken_emb_distance_fn protoken_emb
             (firstn (DIM_EMB_PTK protoken_emb) v)).
Local Abbreviation aatype_of :=
  (fun v : list R =>
     nearest aatype_emb_distance_fn aatype_emb
             (skipn (DIM_EMB_PTK protoken_emb) v)).

Lemma index_from_embedding_Some x ret :
  index_from_embedding protoken_emb aatype_emb x = Some ret <->
  exists p a,
    mapM (mapM protoken_of) x = Some p /\
    mapM (mapM aatype_of) x = Some a /\
    ret = {| protoken_indexes := p; aatype_indexes := Some a |}.
Proof.
  unfold index_from_embedding. cbn [infer_protuple]. split.
  - intros H. apply bind_Some in H. destruct H as (p & Hp & H).
    apply bind_Some in H. destruct H as (a & Ha & H).
    inversion H. eauto.
  - intros (p & a & Hp & Ha & ->). rewrite Hp. cbn [bind].
    rewrite Ha. reflexivity.
Qed.

(** Each returned index is the per-position projection of the embedding at
    that position, and of nothing else. *)
Lemma index_from_embedding_at x ret b i :
  index_from_embedding protoken_emb aatype_emb x = Some ret ->
  protoken_index_at ret b i = bind (lookup2 x b i) protoken_of /\
  aatype_index_at ret b i = bind (lookup2 x b i) aatype_of.
Proof.
  intros H. apply index_from_embedding_Some in H.
  destruct H as (p & a & Hp & Ha & ->).
  unfold protoken_index_at, aatype_index_at. cbn.
  split; apply lookup2_mapM; assumption.
Qed.

End Projection.

(** C5: when two embedding batches agree at every unmasked residue position
    (and differ arbitrarily at the padding positions), the protoken_indexes
    and aatype_indexes that [index_from_embedding] returns for them are the
    same at every unmasked position. *)
Theorem index_from_embedding_mask_independence
    (protoken_emb aatype_emb : list (list R))
    (seq_mask : list (list bool)) (x x' : list (list (list R)))
    (ret ret' : index_dict) :
  index_from_embedding protoken_emb aatype_emb x = Some ret ->
  index_from_embedding protoken_emb aatype_emb x' = Some ret' ->
  (forall b i, lookup2 seq_mask b i = Some true ->
               lookup2 x b i = lookup2 x' b i) ->
  forall b i, lookup2 seq_mask b i = Some true ->
    protoken_index_at ret b i = protoken_index_at ret' b i /\
    aatype_index_at ret b i = aatype_index_at ret' b i.
Proof.
  intros H H' Hagree b i Hm.
  destruct (index_from_embedding_at _ _ x ret b i H) as [Hp Ha].
  destruct (index_from_embedding_at _ _ x' ret' b i H') as [Hp' Ha'].
  rewrite Hp, Ha, Hp', Ha', (Hagree b i Hm). split; reflexivity.
Qed.

Lemma index_from_embedding_mask_independence_witness :
  index_from_embedding [[1]] [[1]] [[[0.5; 0.25]; [9; 9]]] =
    Some {| protoken_indexes := [[0; 0]];
            aatype_indexes := Some [[0; 0]] |}%nat /\
  index_from_embedding [[1]] [[1]] [[[0.5; 0.25]; [7; 8]]] =
    Some {| protoken_indexes := [[0; 0]];
            aatype_indexes := Some [[0; 0]] |}%nat /\
  lookup2 [[true; false]] 0 0 = Some true /\
  protoken_index_at {| protoken_indexes := [[0; 0]];
                       aatype_indexes := Some [[0; 0]] |}%nat 0 0 = Some 0%nat /\
  aatype_index_at {| protoken_indexes := [[0; 0]];
                     aatype_indexes := Some [[0; 0]] |}%nat 0 0 = Some 0%nat.
Proof.
  pose (x := [[[0.5; 0.25]; [9; 9]]]).
  pose (x' := [[[0.5; 0.25]; [7; 8]]]).
  pose (ret := {| protoken_indexes := [[0; 0]];
                  aatype_indexes := Some [[0; 0]] |}%nat).
  assert (H : index_from_embedding [[1]] [[1]] x = Some ret) by reflexivity.
  assert (H' : index_from_embedding [[1]] [[1]] x' = Some ret) by reflexivity.
  split; [exact H|]. split; [exact H'|]. split; [reflexivity|].
  apply (index_from_embedding_mask_independence
           [[1]] [[1]] [[true; false]] x x' ret ret H H').
  - intros b i Hm. destruct b as [|b]; [|destruct b; discriminate Hm].
    destruct i as [|[|i]]; try discriminate Hm; [reflexivity|].
    destruct i; discriminate Hm.
  - reflexivity.
Defined.

Lemma nearest_returns_nearest_entry dist emb v :
  emb <> [] ->
  Forall (fun e => exists d, dist v e = Some d) emb ->
  exists k, nearest dist emb v = Some k /\ nearest_entry dist emb v k.
Proof.
  intros Hne Hall.
  destruct (mapM_total (dist v) emb Hall) as (ds & Hds).
  pose proof (mapM_length _ _ _ Hds) as Hlen.
  assert (Hds_ne : ds <> []).
  { intros ->. destruct emb; [congruence | discriminate Hlen]. }
  destruct (argmin_first_minimum ds Hds_ne) as (k & Hk & Hlt & Hmin).
  exists k. split.
  - unfold nearest. rewrite Hds. exact Hk.
  - rewrite Hlen in Hlt, Hmin. split; [exact Hlt|].
    exists (nth k ds 0). split; [apply mapM_nth; assumption|].
    intros j Hj. exists (nth j ds 0).
    split; [apply mapM_nth; assumption|]. apply Hmin. exact Hj.
Qed.

Lemma nearest_entry_unique dist emb v k k' :
  nearest_entry dist emb v k -> nearest_entry dist emb v k' -> k = k'.
Proof.
  intros (Hk & dk & Hdk & Hmin) (Hk' & dk' & Hdk' & Hmin').
  destruct (Hmin k' Hk') as (d1 & E1 & Hle1 & Hlt1).
  destruct (Hmin' k Hk) as (d2 & E2 & Hle2 & Hlt2).
  assert (d1 = dk') by congruence. assert (d2 = dk) by congruence. subst.
  destruct (Nat.lt_trichotomy k k') as [Hlt | [Heq | Hgt]]; [|exact Heq|].
  - specialize (Hlt2 Hlt). lra.
  - specialize (Hlt1 Hgt). lra.
Qed.

Lemma aatype_emb_distance_fn_total x y :
  length x = length y -> exists d, aatype_emb_distance_fn x y = Some d.
Proof.
  intros H. unfold aatype_emb_distance_fn.
  rewrite (broadcast2_same_length Rminus x y H). cbn [bind]. eauto.
Qed.

Lemma protoken_emb_distance_fn_total x y :
  length x = length y -> exists d, protoken_emb_distance_fn x y = Some d.
Proof. intros H. rewrite (protoken_emb_distance_fn_eq x y H). eauto. Qed.

(** C1: over two non-empty rectangular codebooks and a batch whose
    embedding vectors have the dimension of the two tables together,
    [index_from_embedding] returns a dictionary with, at every position, the
    index of a protoken_emb row at minimal protoken_emb_distance_fn from the
    leading DIM_EMB_PTK coordinates and the index of an aatype_emb row at
    minimal aatype_emb_distance_fn from the remaining coordinates; each is
    the lowest index attaining the minimum, hence the only one the embedding
    at that position determines. *)
Theorem index_from_embedding_nearest
    (protoken_emb aatype_emb : list (list R)) (x : list (list (list R))) :
  rectangular protoken_emb ->
  rectangular aatype_emb ->
  Forall (Forall (fun v => length v = DIM_EMB protoken_emb aatype_emb)) x ->
  exists ret,
    index_from_embedding protoken_emb aatype_emb x = Some ret /\
    forall b i v, lookup2 x b i = Some v ->
      exists kp ka,
        protoken_index_at ret b i = Some kp /\
        aatype_index_at ret b i = Some ka /\
        nearest_entry protoken_emb_distance_fn protoken_emb
                      (firstn (DIM_EMB_PTK protoken_emb) v) kp /\
        nearest_entry aatype_emb_distance_fn aatype_emb
                      (skipn (DIM_EMB_PTK protoken_emb) v) ka /\
        (forall k, nearest_entry protoken_emb_distance_fn protoken_emb
                     (firstn (DIM_EMB_PTK protoken_emb) v) k -> k = kp) /\
        (forall k, nearest_entry aatype_emb_distance_fn aatype_emb
                     (skipn (DIM_EMB_PTK protoken_emb) v) k -> k = ka).
Proof.
  intros [Hpne Hprect] [Hane Harect] Hx.
  assert (Hp : forall v, length v = DIM_EMB protoken_emb aatype_emb ->
    exists k, nearest protoken_emb_distance_fn protoken_emb
                (firstn (DIM_EMB_PTK protoken_emb) v) = Some k /\
              nearest_entry protoken_emb_distance_fn protoken_emb
                (firstn (DIM_EMB_PTK protoken_emb) v) k).
  { intros v Hv. apply nearest_returns_nearest_entry; [exact Hpne|].
    eapply Forall_impl; [|exact Hprect]. intros e He.
    apply protoken_emb_distance_fn_total.
    rewrite length_firstn, Hv, He. unfold DIM_EMB, DIM_EMB_PTK. lia. }
  assert (Ha : forall v, length v = DIM_EMB protoken_emb aatype_emb ->
    exists k, nearest aatype_emb_distance_fn aatype_emb
                (skipn (DIM_EMB_PTK protoken_emb) v) = Some k /\
              nearest_entry aatype_emb_distance_fn aatype_emb
                (skipn (DIM_EMB_PTK protoken_emb) v) k).
  { intros v Hv. apply nearest_returns_nearest_entry; [exact Hane|].
    eapply Forall_impl; [|exact Harect]. intros e He.
    apply aatype_emb_distance_fn_total.
    rewrite length_skipn, Hv, He. unfold DIM_EMB, DIM_EMB_AA. lia. }
  assert (Htot : forall f : list R -> option nat,
    (forall v, length v = DIM_EMB protoken_emb aatype_emb ->
               exists k, f v = Some k) ->
    exists r, mapM (mapM f) x = Some r).
  { intros f Hf. apply mapM_total.
    eapply Forall_impl; [|exact Hx]. intros row Hrow. apply mapM_total.
    eapply Forall_impl; [|exact Hrow]. intros v Hv. apply Hf. exact Hv. }
  destruct (Htot _ (fun v Hv => let (k, H) := Hp v Hv in
                                ex_intro _ k (proj1 H))) as (p & Ep).
  destruct (Htot _ (fun v Hv => let (k, H) := Ha v Hv in
                                ex_intro _ k (proj1 H))) as (a & Ea).
  exists {| protoken_indexes := p; aatype_indexes := Some a |}.
  assert (Hret : index_from_embedding protoken_emb aatype_emb x =
                 Some {| protoken_indexes := p; aatype_indexes := Some a |}).
  { apply index_from_embedding_Some. exists p, a. auto. }
  split; [exact Hret|].
  intros b i v Hv.
  destruct (index_from_embedding_at _ _ x _ b i Hret) as [Hpi Hai].
  rewrite Hv in Hpi, Hai. cbn [bind] in Hpi, Hai.
  assert (Hlen : length v = DIM_EMB protoken_emb aatype_emb).
  { unfold lookup2 in Hv. destruct (nth_error x b) as [row|] eqn:Eb;
      [|discriminate]. cbn [bind] in Hv.
    apply nth_error_In in Eb, Hv.
    rewrite Forall_forall in Hx. specialize (Hx row Eb).
    rewrite Forall_forall in Hx. exact (Hx v Hv). }
  destruct (Hp v Hlen) as (kp & Ekp & Hkp).
  destruct (Ha v Hlen) as (ka & Eka & Hka).
  exists kp, ka.
  split; [rewrite Hpi; exact Ekp|]. split; [rewrite Hai; exact Eka|].
  split; [exact Hkp|]. split; [exact Hka|].
  split; intros k Hk; eapply nearest_entry_unique; eassumption.
Qed.

Lemma index_from_embedding_nearest_witness :
  rectangular scenario_codebook /\
  rectangular [[0]; [1]] /\
  Forall (Forall (fun v => length v = DIM_EMB scenario_codebook [[0]; [1]]))
         [[[0.9; 0.1; 0.2]]] /\
  exists ret,
    index_from_embedding scenario_codebook [[0]; [1]] [[[0.9; 0.1; 0.2]]]
      = Some ret /\
    forall b i v, lookup2 [[[0.9; 0.1; 0.2]]] b i = Some v ->
      exists kp ka,
        protoken_index_at ret b i = Some kp /\
        aatype_index_at ret b i = Some ka /\
        nearest_entry protoken_emb_distance_fn scenario_codebook
                      (firstn (DIM_EMB_PTK scenario_codebook) v) kp /\
        nearest_entry aatype_emb_distance_fn [[0]; [1]]
                      (skipn (DIM_EMB_PTK scenario_codebook) v) ka /\
        (forall k, nearest_entry protoken_emb_distance_fn scenario_codebook
                     (firstn (DIM_EMB_PTK scenario_codebook) v) k -> k = kp) /\
        (forall k, nearest_entry aatype_emb_distance_fn [[0]; [1]]
                     (skipn (DIM_EMB_PTK scenario_codebook) v) k -> k = ka).
Proof.
  assert (Hp : rectangular scenario_codebook).
  { split; [discriminate|]. repeat constructor. }
  assert (Ha : rectangular [[0]; [1]]).
  { split; [discriminate|]. repeat constructor. }
  assert (Hx : Forall (Forall (fun v =>
                 length v = DIM_EMB scenario_codebook [[0]; [1]]))
                 [[[0.9; 0.1; 0.2]]]).
  { repeat constructor. }
  split; [exact Hp|]. split; [exact Ha|]. split; [exact Hx|].
  exact (index_from_embedding_nearest
           scenario_codebook [[0]; [1]] [[[0.9; 0.1; 0.2]]] Hp Ha Hx).
Defined.

(** ** RePaint *)

Lemma combine_map_same {A B C : Type} (f : A -> B) (g : A -> C) l :
  combine (map f l) (map g l) = map (fun a => (f a, g a)) l.
Proof. induction l as [|a l IH]; simpl; [|rewrite IH]; reflexivity. Qed.

Lemma combine_repeat {A B : Type} (a : A) (b : B) n :
  combine (repeat a n) (repeat b n) = repeat (a, b) n.
Proof. induction n as [|n IH]; simpl; [|rewrite IH]; reflexivity. Qed.

Lemma combine_app_same {A B : Type} (l1 l2 : list A) (r1 r2 : list B) :
  length l1 = length r1 ->
  combine (l1 ++ l2) (r1 ++ r2) = combine l1 r1 ++ combine l2 r2.
Proof.
  revert r1. induction l1 as [|a l1 IH]; intros [|b r1] H;
    try discriminate; simpl; [reflexivity|].
  rewrite IH by (simpl in H; lia). reflexivity.
Qed.

(** The row-wise disjunction of two two-block rows. *)
Lemma or_blocks (a1 a2 b1 b2 : bool) p q :
  map (fun t => orb (fst t) (snd t))
      (combine (repeat a1 p ++ repeat a2 q) (repeat b1 p ++ repeat b2 q)) =
  repeat (orb a1 b1) p ++ repeat (orb a2 b2) q.
Proof.
  rewrite combine_app_same by (rewrite !repeat_length; reflexivity).
  rewrite map_app, !combine_repeat, !map_repeat. reflexivity.
Qed.

Section RePaintMask.
Variables protoken_emb aatype_emb : list (list R).

Local Abbreviation dim_ptk := (DIM_EMB_PTK protoken_emb).
Local Abbreviation dim_aa := (DIM_EMB_AA aatype_emb).

(** Row [i] of the mask: the ProToken block says whether [i] is a ProToken
    context position, the amino-acid block whether it is an amino-acid
    context position. *)
Lemma make_repaint_info_mask aatypes protokens aa_ids ptk_ids :
  length aatypes = length protokens ->
  exists ctx,
    make_repaint_info protoken_emb aatype_emb aatypes protokens
                      aa_ids ptk_ids =
    Some (ctx,
          map (fun i => repeat (in_ids i ptk_ids) dim_ptk ++
                        repeat (in_ids i aa_ids) dim_aa)
              (seq 0 (length protokens))).
Proof.
  intros H. unfold make_repaint_info, jnp_take.
  rewrite !length_map, H, Nat.eqb_refl.
  eexists. f_equal. f_equal.
  unfold logical_or, repaint_mask_aa, repaint_mask_ptk.
  rewrite combine_map_same, map_map. apply map_ext. intros i. cbn [fst snd].
  unfold DIM_EMB. rewrite repeat_app.
  destruct (in_ids i aa_ids), (in_ids i ptk_ids);
    rewrite or_blocks; reflexivity.
Qed.

End RePaintMask.

Lemma in_ids_spec i ids : in_ids i ids = true <-> In (Z.of_nat i) ids.
Proof.
  unfold in_ids. rewrite existsb_exists. split.
  - intros (z & Hin & E). apply Z.eqb_eq in E. subst. exact Hin.
  - intros H. exists (Z.of_nat i). split; [exact H | apply Z.eqb_refl].
Qed.

Lemma in_ids_false i ids : in_ids i ids = false <-> ~ In (Z.of_nat i) ids.
Proof.
  rewrite <- in_ids_spec. destruct (in_ids i ids); split; congruence.
Qed.

(** Entry (i, j) of a mask built of two-block rows. *)
Lemma two_block_mask_entry (f g : nat -> bool) p q n i j :
  lookup2 (map (fun i => repeat (f i) p ++ repeat (g i) q) (seq 0 n)) i j =
  if (i <? n)%nat then
    if (j <? p)%nat then Some (f i)
    else if (j <? p + q)%nat then Some (g i) else None
  else None.
Proof.
  unfold lookup2. rewrite nth_error_map, nth_error_seq.
  destruct (Nat.ltb_spec i n) as [Hi|Hi]; [|reflexivity].
  cbn [option_map bind Nat.add].
  destruct (Nat.ltb_spec j p) as [Hj|Hj].
  - rewrite nth_error_app1 by (rewrite repeat_length; exact Hj).
    apply nth_error_repeat. exact Hj.
  - rewrite nth_error_app2 by (rewrite repeat_length; exact Hj).
    rewrite repeat_length.
    destruct (Nat.ltb_spec j (p + q)) as [Hq|Hq].
    + apply nth_error_repeat. lia.
    + apply nth_error_None. rewrite repeat_length. lia.
Qed.

(** The blend of one row, coordinate by coordinate: the context where the
    mask is set, the old value elsewhere. *)
Lemma repaint_blend_row_spec (brow : list bool) c x :
  length c = length brow -> length x = length brow ->
  exists out,
    repaint_blend_row (map (fun b : bool => if b then 1 else 0) brow) c x
      = Some out /\
    length out = length brow /\
    forall j, nth_error out j =
              match nth_error brow j with
              | Some true => nth_error c j
              | _ => nth_error x j
              end.
Proof.
  intros Hc Hx. unfold repaint_blend_row.
  rewrite (broadcast2_same_length Rmult _ c)
    by (rewrite length_map; symmetry; exact Hc).
  cbn [bind].
  rewrite (broadcast2_same_length Rmult _ x)
    by (rewrite !length_map; symmetry; exact Hx).
  cbn [bind].
  rewrite broadcast2_same_length
    by (rewrite !length_map, !length_combine, !length_map; lia).
  eexists. split; [reflexivity|].
  revert c x Hc Hx. induction brow as [|b brow IH];
    intros [|c0 c] [|x0 x] Hc Hx; try discriminate.
  - split; [reflexivity|]. intros [|j]; reflexivity.
  - simpl in Hc, Hx.
    destruct (IH c x ltac:(lia) ltac:(lia)) as [Hlen Hnth].
    split; [simpl; f_equal; exact Hlen|].
    intros [|j]; [|apply Hnth].
    cbn. destruct b; f_equal; ring.
Qed.

Lemma lookup2_cons_0 {A : Type} (r : list A) rs j :
  lookup2 (r :: rs) 0 j = nth_error r j.
Proof. reflexivity. Qed.

Lemma lookup2_cons_S {A : Type} (r : list A) rs i j :
  lookup2 (r :: rs) (S i) j = lookup2 rs i j.
Proof. reflexivity. Qed.

Lemma repaint_blend_spec d (bmask : list (list bool)) ctx_t x :
  length ctx_t = length bmask -> length x = length bmask ->
  Forall (fun r => length r = d) bmask ->
  Forall (fun r => length r = d) ctx_t ->
  Forall (fun r => length r = d) x ->
  exists out,
    repaint_blend (astype_float32 bmask) ctx_t x = Some out /\
    length out = length bmask /\
    Forall (fun r => length r = d) out /\
    forall i j, lookup2 out i j =
                match lookup2 bmask i j with
                | Some true => lookup2 ctx_t i j
                | _ => lookup2 x i j
                end.
Proof.
  revert ctx_t x. induction bmask as [|brow bmask IH];
    intros [|c ctx_t] [|v x] Hc Hx Hm Hct Hxs; try discriminate.
  - exists []. repeat split; [constructor|].
    intros i j. destruct i; reflexivity.
  - inversion Hm as [|? ? Hb Hm']. inversion Hct as [|? ? Hc0 Hct'].
    inversion Hxs as [|? ? Hv0 Hxs']. subst.
    destruct (repaint_blend_row_spec brow c v) as (r & Er & Hrlen & Hr);
      [congruence | congruence |].
    destruct (IH ctx_t x) as (rs & Ers & Hlen & Hrs_len & Hrs); auto.
    exists (r :: rs). unfold astype_float32 in *.
    cbn [map repaint_blend]. rewrite Er. cbn [bind]. rewrite Ers. cbn [bind].
    split; [reflexivity|]. split; [simpl; f_equal; exact Hlen|].
    split; [constructor; [congruence | exact Hrs_len]|].
    intros [|i] j.
    + rewrite !lookup2_cons_0. apply Hr.
    + rewrite !lookup2_cons_S. apply Hrs.
Qed.

Lemma rows_equal_by_entries {A : Type} (a b : list (list A)) i :
  (i < length a)%nat -> (i < length b)%nat ->
  (forall j, lookup2 a i j = lookup2 b i j) ->
  nth_error a i = nth_error b i.
Proof.
  intros Ha Hb H. unfold lookup2 in H.
  apply nth_error_Some in Ha, Hb.
  destruct (nth_error a i) as [r|]; [|congruence].
  destruct (nth_error b i) as [r'|]; [|congruence].
  cbn [bind] in H. f_equal. apply nth_error_ext. exact H.
Qed.

(** C9: [make_repaint_info] returns a mask whose row i is entirely False for
    every residue position i that is in neither context id list, and the
    blending step of [run_infer] with that mask leaves the embedding at such
    a position unchanged; a mask entry is set only at a position named in a
    context id list and only in the embedding dimensions of that list's kind
    (the ProToken slice or the amino-acid slice), and only there does the
    blend take the context value instead of the old one. *)
Theorem repaint_leaves_free_positions
    (protoken_emb aatype_emb : list (list R))
    (aatypes protokens aatype_context_ids protoken_context_ids : list Z)
    (repaint_context_t x : list (list R)) :
  length aatypes = length protokens ->
  length repaint_context_t = length protokens ->
  length x = length protokens ->
  Forall (fun r => length r = DIM_EMB protoken_emb aatype_emb)
         repaint_context_t ->
  Forall (fun r => length r = DIM_EMB protoken_emb aatype_emb) x ->
  exists repaint_context repaint_mask out,
    make_repaint_info protoken_emb aatype_emb aatypes protokens
                      aatype_context_ids protoken_context_ids
      = Some (repaint_context, repaint_mask) /\
    repaint_blend (astype_float32 repaint_mask) repaint_context_t x
      = Some out /\
    (forall i, (i < length protokens)%nat ->
       ~ In (Z.of_nat i) aatype_context_ids ->
       ~ In (Z.of_nat i) protoken_context_ids ->
       nth_error repaint_mask i =
         Some (repeat false (DIM_EMB protoken_emb aatype_emb)) /\
       nth_error out i = nth_error x i) /\
    (forall i j, lookup2 repaint_mask i j = Some true <->
       (i < length protokens)%nat /\
       ((j < DIM_EMB_PTK protoken_emb)%nat /\
          In (Z.of_nat i) protoken_context_ids \/
        (DIM_EMB_PTK protoken_emb <= j < DIM_EMB protoken_emb aatype_emb)%nat /\
          In (Z.of_nat i) aatype_context_ids)) /\
    (forall i j, lookup2 out i j =
                 match lookup2 repaint_mask i j with
                 | Some true => lookup2 repaint_context_t i j
                 | _ => lookup2 x i j
                 end).
Proof.
  intros Hlen Hct Hx Hct_rows Hx_rows.
  destruct (make_repaint_info_mask protoken_emb aatype_emb aatypes protokens
              aatype_context_ids protoken_context_ids Hlen) as (ctx & Hmk).
  set (p := DIM_EMB_PTK protoken_emb) in *.
  set (q := DIM_EMB_AA aatype_emb) in *.
  set (n := length protokens) in *.
  assert (Hd : DIM_EMB protoken_emb aatype_emb = (p + q)%nat) by reflexivity.
  set (mask := map (fun i => repeat (in_ids i protoken_context_ids) p ++
                             repeat (in_ids i aatype_context_ids) q)
                   (seq 0 n)) in *.
  assert (Hmask_len : length mask = n)
    by (unfold mask; rewrite length_map, length_seq; reflexivity).
  assert (Hmask_rows : Forall (fun r => length r = (p + q)%nat) mask).
  { apply Forall_forall. intros r Hr. apply in_map_iff in Hr.
    destruct Hr as (i & <- & _).
    rewrite length_app, !repeat_length. reflexivity. }
  rewrite Hd in *.
  destruct (repaint_blend_spec (p + q) mask repaint_context_t x)
    as (out & Hout & Hout_len & _ & Hentries); try congruence.
  exists ctx, mask, out.
  split; [exact Hmk|]. split; [exact Hout|]. split; [|split].
  - intros i Hi Haa Hptk.
    apply in_ids_false in Haa, Hptk.
    assert (Hrow : nth_error mask i = Some (repeat false (p + q))).
    { unfold mask. rewrite nth_error_map, nth_error_seq.
      destruct (Nat.ltb_spec i n) as [_|]; [|lia].
      cbn [option_map Nat.add]. rewrite Haa, Hptk, repeat_app. reflexivity. }
    split; [exact Hrow|].
    apply rows_equal_by_entries; [lia | lia |].
    intros j. rewrite Hentries. unfold mask.
    rewrite two_block_mask_entry, Haa, Hptk.
    destruct (i <? n)%nat, (j <? p)%nat, (j <? p + q)%nat; reflexivity.
  - intros i j. unfold mask. rewrite two_block_mask_entry.
    rewrite <- !in_ids_spec.
    destruct (Nat.ltb_spec i n) as [Hi|Hi];
      [|split; [discriminate | lia]].
    destruct (Nat.ltb_spec j p) as [Hj|Hj].
    + split.
      * intros E. inversion E. split; [exact Hi|]. left. auto.
      * intros (_ & [[_ E] | [Hr _]]); [congruence | lia].
    + destruct (Nat.ltb_spec j (p + q)) as [Hq|Hq].
      * split.
        -- intros E. inversion E. split; [exact Hi|]. right. auto.
        -- intros (_ & [[Hr _] | [_ E]]); [lia | congruence].
      * split; [discriminate | lia].
  - exact Hentries.
Qed.

Example make_repaint_info_sample :
  make_repaint_info [[1; 0]; [0; 1]] [[5]; [6]] [1; 0]%Z [0; 1]%Z [0]%Z [1]%Z =
  Some ([[1; 0; 6]; [0; 1; 5]],
        [[false; false; true]; [true; true; false]]).
Proof. reflexivity. Qed.

Example make_repaint_info_length_mismatch :
  make_repaint_info [[1; 0]] [[5]] [0]%Z [0; 0]%Z [] [] = None.
Proof. reflexivity. Qed.

Lemma repaint_leaves_free_positions_witness :
  length [0; 0]%Z = length [0; 0]%Z /\
  length [[1; 2; 3]; [4; 5; 6]] = length [0; 0]%Z /\
  length [[7; 8; 9]; [10; 11; 12]] = length [0; 0]%Z /\
  Forall (fun r => length r = DIM_EMB [[1; 0]] [[5]]) [[1; 2; 3]; [4; 5; 6]] /\
  Forall (fun r => length r = DIM_EMB [[1; 0]] [[5]])
         [[7; 8; 9]; [10; 11; 12]] /\
  exists repaint_context repaint_mask out,
    make_repaint_info [[1; 0]] [[5]] [0; 0]%Z [0; 0]%Z [0]%Z [0]%Z
      = Some (repaint_context, repaint_mask) /\
    repaint_blend (astype_float32 repaint_mask) [[1; 2; 3]; [4; 5; 6]]
                  [[7; 8; 9]; [10; 11; 12]] = Some out /\
    (forall i, (i < length [0; 0]%Z)%nat ->
       ~ In (Z.of_nat i) [0]%Z ->
       ~ In (Z.of_nat i) [0]%Z ->
       nth_error repaint_mask i = Some (repeat false (DIM_EMB [[1; 0]] [[5]])) /\
       nth_error out i = nth_error [[7; 8; 9]; [10; 11; 12]] i) /\
    (forall i j, lookup2 repaint_mask i j = Some true <->
       (i < length [0; 0]%Z)%nat /\
       ((j < DIM_EMB_PTK [[1; 0]]%R)%nat /\ In (Z.of_nat i) [0]%Z \/
        (DIM_EMB_PTK [[1; 0]]%R <= j < DIM_EMB [[1; 0]]%R [[5]]%R)%nat /\
          In (Z.of_nat i) [0]%Z)) /\
    (forall i j, lookup2 out i j =
                 match lookup2 repaint_mask i j with
                 | Some true => lookup2 [[1; 2; 3]; [4; 5; 6]] i j
                 | _ => lookup2 [[7; 8; 9]; [10; 11; 12]] i j
                 end).
Proof.
  split; [reflexivity|]. split; [reflexivity|]. split; [reflexivity|].
  assert (Hc : Forall (fun r => length r = DIM_EMB [[1; 0]] [[5]])
                      [[1; 2; 3]; [4; 5; 6]]) by (repeat constructor).
  assert (Hx : Forall (fun r => length r = DIM_EMB [[1; 0]] [[5]])
                      [[7; 8; 9]; [10; 11; 12]]) by (repeat constructor).
  split; [exact Hc|]. split; [exact Hx|].
  exact (repaint_leaves_free_positions [[1; 0]] [[5]] [0; 0]%Z [0; 0]%Z
           [0]%Z [0]%Z [[1; 2; 3]; [4; 5; 6]] [[7; 8; 9]; [10; 11; 12]]
           eq_refl eq_refl eq_refl Hc Hx).
Defined.

(** * Further properties of the notebook utilities *)

(** ** [flatten_list_of_dicts] *)

Example flatten_list_of_dicts_sample :
  flatten_list_of_dicts
    [[("a"%string, [1; 2]%Z); ("b"%string, [3; 4; 5]%Z)]; [("a"%string, [6]%Z)]] =
  Some [[("a"%string, 1%Z); ("b"%string, 3%Z)];
        [("a"%string, 2%Z); ("b"%string, 4%Z)];
        [("a"%string, 6%Z)]].
Proof. reflexivity. Qed.

Example flatten_list_of_dicts_short_value :
  flatten_list_of_dicts [[("a"%string, [1; 2]%Z); ("b"%string, [3]%Z)]] = None.
Proof. reflexivity. Qed.

Example flatten_list_of_dicts_empty_dict :
  flatten_list_of_dicts [[("a"%string, [1]%Z)]; []] = None.
Proof. reflexivity. Qed.

Lemma mapM_Some_Forall {A B : Type} (f : A -> option B) l r :
  mapM f l = Some r -> Forall (fun a => exists b, f a = Some b) l.
Proof.
  revert r. induction l as [|a l IH]; intros r H; [constructor|].
  apply mapM_cons_Some in H. destruct H as (b & bs & Hb & Hbs & _).
  constructor; eauto.
Qed.

Lemma mapM_app {A B : Type} (f : A -> option B) l1 l2 :
  mapM f (l1 ++ l2) =
  (r1 <- mapM f l1 ;; r2 <- mapM f l2 ;; Some (r1 ++ r2)).
Proof.
  induction l1 as [|a l1 IH]; simpl.
  - destruct (mapM f l2); reflexivity.
  - destruct (f a) as [b|]; [|reflexivity]. cbn [bind]. rewrite IH.
    destruct (mapM f l1) as [r1|]; [|reflexivity]. cbn [bind].
    destruct (mapM f l2); reflexivity.
Qed.

Lemma fold_left_app_concat {A : Type} (ls : list (list A)) acc :
  fold_left (fun x y => x ++ y) ls acc = acc ++ concat ls.
Proof.
  revert acc. induction ls as [|l ls IH]; intros acc; simpl.
  - rewrite app_nil_r. reflexivity.
  - rewrite IH, app_assoc. reflexivity.
Qed.

Lemma flatten_list_of_dicts_concat {V : Type} (l : list (dict (list V))) :
  flatten_list_of_dicts l = option_map (@concat _) (mapM flatten_dict l).
Proof.
  unfold flatten_list_of_dicts. destruct (mapM flatten_dict l); [|reflexivity].
  cbn [bind option_map]. rewrite fold_left_app_concat. reflexivity.
Qed.

(** X1: flattening a concatenation of two lists of dictionaries gives the
    concatenation of the two flattenings, and fails when either does. *)
Theorem flatten_list_of_dicts_app {V : Type} (l1 l2 : list (dict (list V))) :
  flatten_list_of_dicts (l1 ++ l2) =
  (r1 <- flatten_list_of_dicts l1 ;;
   r2 <- flatten_list_of_dicts l2 ;;
   Some (r1 ++ r2)).
Proof.
  rewrite !flatten_list_of_dicts_concat, mapM_app.
  destruct (mapM flatten_dict l1) as [r1|]; [|reflexivity].
  destruct (mapM flatten_dict l2) as [r2|]; [|reflexivity].
  cbn [bind option_map]. rewrite concat_app. reflexivity.
Qed.

Lemma dict_row_succeeds {V : Type} (d : dict (list V)) i :
  (exists e, dict_row d i = Some e) <->
  Forall (fun kv => (i < length (snd kv))%nat) d.
Proof.
  unfold dict_row. split.
  - intros [e He]. apply mapM_Some_Forall in He.
    eapply Forall_impl; [|exact He]. intros kv [b Hb]. cbn beta in Hb.
    apply nth_error_Some. destruct (nth_error (snd kv) i); [discriminate|].
    discriminate Hb.
  - intros H. apply mapM_total. eapply Forall_impl; [|exact H].
    intros kv Hkv. cbn beta. apply nth_error_Some in Hkv.
    destruct (nth_error (snd kv) i) as [x|]; [|congruence].
    cbn [bind]. eauto.
Qed.

Lemma flatten_dict_succeeds {V : Type} (d : dict (list V)) :
  (exists ds, flatten_dict d = Some ds) <-> flattenable d.
Proof.
  unfold flattenable. destruct d as [|kv0 d'].
  - split; [intros [ds H]; discriminate | intros [H _]; congruence].
  - set (d := kv0 :: d'). cbn [flatten_dict]. fold d. split.
    + intros [ds Hds]. split; [discriminate|].
      apply mapM_Some_Forall in Hds. rewrite Forall_forall in Hds.
      destruct (dict_rows d) as [|n] eqn:En.
      * apply Forall_forall. intros; lia.
      * assert (Hn : In n (seq 0 (S n))) by (apply in_seq; lia).
        apply Hds, dict_row_succeeds in Hn.
        eapply Forall_impl; [|exact Hn]. intros kv Hkv. cbn beta in *. lia.
    + intros [_ H]. apply mapM_total. apply Forall_forall. intros i Hi.
      apply in_seq in Hi. apply dict_row_succeeds.
      eapply Forall_impl; [|exact H]. intros kv Hkv. cbn beta in *. lia.
Qed.

(** X2: [flatten_list_of_dicts] returns exactly when every dictionary of the
    list has a first value and no value shorter than its first one; an empty
    dictionary or a too short value makes it raise. *)
Theorem flatten_list_of_dicts_succeeds {V : Type} (l : list (dict (list V))) :
  (exists out, flatten_list_of_dicts l = Some out) <-> Forall flattenable l.
Proof.
  rewrite flatten_list_of_dicts_concat. split.
  - intros [out H]. destruct (mapM flatten_dict l) as [ls|] eqn:E;
      [|discriminate].
    apply mapM_Some_Forall in E. eapply Forall_impl; [|exact E].
    intros d Hd. apply flatten_dict_succeeds. exact Hd.
  - intros H.
    destruct (mapM_total flatten_dict l) as [ls Hls].
    + eapply Forall_impl; [|exact H]. intros d Hd.
      apply flatten_dict_succeeds. exact Hd.
    + rewrite Hls. cbn. eauto.
Qed.

Lemma flatten_list_of_dicts_succeeds_witness :
  Forall flattenable
    [[("a"%string, [1; 2]%Z); ("b"%string, [3; 4; 5]%Z)]] /\
  exists out,
    flatten_list_of_dicts
      [[("a"%string, [1; 2]%Z); ("b"%string, [3; 4; 5]%Z)]] = Some out.
Proof.
  assert (H : Forall flattenable
                [[("a"%string, [1; 2]%Z); ("b"%string, [3; 4; 5]%Z)]]).
  { repeat constructor; try discriminate; simpl; lia. }
  split; [exact H|].
  exact (proj2 (flatten_list_of_dicts_succeeds _) H).
Defined.

Lemma dict_row_entries {V : Type} (d : dict (list V)) i e :
  dict_row d i = Some e ->
  map fst e = map fst d /\
  forall k v, dict_get k d = Some v -> dict_get k e = nth_error v i.
Proof.
  unfold dict_row, dict_get. revert e.
  induction d as [|[k0 v0] d IH]; intros e H.
  - inversion H. split; [reflexivity|]. intros k v Hk. discriminate Hk.
  - apply mapM_cons_Some in H. destruct H as (b & bs & Hb & Hbs & ->).
    cbn [fst snd] in Hb. destruct (nth_error v0 i) as [x|] eqn:Ex;
      [|discriminate]. cbn [bind] in Hb. inversion Hb. subst b.
    destruct (IH bs Hbs) as [Hkeys Hget]. split.
    + simpl. f_equal. exact Hkeys.
    + intros k v. cbn [find fst snd]. destruct (String.eqb k0 k).
      * cbn [option_map snd]. intros E. inversion E. subst. auto.
      * apply Hget.
Qed.

(** X3: in the flattening of a list of dictionaries, the rows of a
    dictionary [d] come after the rows of the dictionaries before it; row
    [i] of [d] has the keys of [d] in the same order, and maps every key to
    element [i] of the value [d] has for it. *)
Theorem flatten_list_of_dicts_entry {V : Type}
    (l1 : list (dict (list V))) (d : dict (list V))
    (l2 : list (dict (list V))) (out : list (dict V)) :
  flatten_list_of_dicts (l1 ++ d :: l2) = Some out ->
  exists o1,
    flatten_list_of_dicts l1 = Some o1 /\
    forall i, (i < dict_rows d)%nat ->
      exists e,
        nth_error out (length o1 + i) = Some e /\
        map fst e = map fst d /\
        forall k v, dict_get k d = Some v -> dict_get k e = nth_error v i.
Proof.
  rewrite !flatten_list_of_dicts_concat, mapM_app. intros H.
  destruct (mapM flatten_dict l1) as [r1|]; [|discriminate].
  cbn [bind option_map] in *. exists (concat r1). split; [reflexivity|].
  cbn [mapM] in H. destruct (flatten_dict d) as [ds|] eqn:Ed; [|discriminate].
  cbn [bind] in H. destruct (mapM flatten_dict l2) as [r2|]; [|discriminate].
  cbn [bind option_map] in H. inversion H. subst out. clear H.
  intros i Hi. rewrite concat_app. cbn [concat].
  rewrite nth_error_app2 by lia.
  replace (length (concat r1) + i - length (concat r1))%nat with i by lia.
  destruct d as [|kv0 d']; [discriminate|].
  cbn [flatten_dict] in Ed.
  pose proof (mapM_length _ _ _ Ed) as Hlen. rewrite length_seq in Hlen.
  pose proof (mapM_nth_error _ _ _ i Ed) as Hnth.
  rewrite nth_error_seq in Hnth.
  destruct (Nat.ltb_spec i (dict_rows (kv0 :: d'))) as [_|]; [|lia].
  cbn [bind Nat.add] in Hnth.
  destruct (dict_row (kv0 :: d') i) as [e|] eqn:Ee.
  - exists e. split.
    + rewrite nth_error_app1 by lia. exact Hnth.
    + apply dict_row_entries. exact Ee.
  - exfalso. apply nth_error_None in Hnth. lia.
Qed.

Lemma flatten_list_of_dicts_entry_witness :
  flatten_list_of_dicts
    ([[("a"%string, [6]%Z)]] ++
     [("a"%string, [1; 2]%Z); ("b"%string, [3; 4; 5]%Z)] :: []) =
  Some [[("a"%string, 6%Z)];
        [("a"%string, 1%Z); ("b"%string, 3%Z)];
        [("a"%string, 2%Z); ("b"%string, 4%Z)]] /\
  exists o1,
    flatten_list_of_dicts [[("a"%string, [6]%Z)]] = Some o1 /\
    forall i,
      (i < dict_rows [("a"%string, [1; 2]%Z); ("b"%string, [3; 4; 5]%Z)])%nat ->
      exists e,
        nth_error [[("a"%string, 6%Z)];
                   [("a"%string, 1%Z); ("b"%string, 3%Z)];
                   [("a"%string, 2%Z); ("b"%string, 4%Z)]]
                  (length o1 + i) = Some e /\
        map fst e =
          map fst [("a"%string, [1; 2]%Z); ("b"%string, [3; 4; 5]%Z)] /\
        forall k v,
          dict_get k [("a"%string, [1; 2]%Z); ("b"%string, [3; 4; 5]%Z)]
            = Some v ->
          dict_get k e = nth_error v i.
Proof.
  split; [reflexivity|].
  apply (flatten_list_of_dicts_entry
           [[("a"%string, [6]%Z)]]
           [("a"%string, [1; 2]%Z); ("b"%string, [3; 4; 5]%Z)] []).
  reflexivity.
Defined.

(** ** More on the two distance functions *)

Lemma combine_swap_map {A B C : Type} (f : A -> B -> C) x y :
  map (fun p => f (fst p) (snd p)) (combine x y) =
  map (fun p => f (snd p) (fst p)) (combine y x).
Proof.
  revert y. induction x as [|a x IH]; intros [|b y]; simpl; try reflexivity.
  rewrite IH. reflexivity.
Qed.

(** Broadcasting treats its two operands alike. *)
Lemma broadcast2_swap f x y :
  broadcast2 f x y = broadcast2 (fun a b => f b a) y x.
Proof.
  unfold broadcast2. rewrite (Nat.eqb_sym (length y) (length x)).
  destruct (Nat.eqb (length x) (length y)) eqn:E.
  - rewrite combine_swap_map. reflexivity.
  - destruct x as [|a [|a' x]], y as [|b [|b' y]];
      try reflexivity; discriminate E.
Qed.

Lemma broadcast2_ext f g x y :
  (forall a b, f a b = g a b) -> broadcast2 f x y = broadcast2 g x y.
Proof.
  intros H. unfold broadcast2.
  destruct (Nat.eqb (length x) (length y)).
  - f_equal. apply map_ext. intros p. apply H.
  - destruct x as [|a [|a' x]], y as [|b [|b' y]]; try reflexivity;
      f_equal; apply map_ext; intros c; apply H.
Qed.

Lemma broadcast2_map (g : R -> R) f x y :
  broadcast2 (fun a b => g (f a b)) x y = option_map (map g) (broadcast2 f x y).
Proof.
  unfold broadcast2. destruct (Nat.eqb (length x) (length y)).
  - cbn [option_map]. rewrite map_map. reflexivity.
  - destruct x as [|a [|a' x]], y as [|b [|b' y]]; try reflexivity;
      cbn [option_map]; rewrite map_map; reflexivity.
Qed.

(** X4: both distance functions are symmetric in their two arguments, for
    all shapes: they fail together, and return the same number otherwise. *)
Theorem distance_fns_symmetric (x y : list R) :
  protoken_emb_distance_fn x y = protoken_emb_distance_fn y x /\
  aatype_emb_distance_fn x y = aatype_emb_distance_fn y x.
Proof.
  split.
  - unfold protoken_emb_distance_fn. rewrite !normalized_eq. cbn [bind].
    rewrite broadcast2_swap.
    rewrite (broadcast2_ext (fun a b => b * a) Rmult)
      by (intros; apply Rmult_comm).
    reflexivity.
  - unfold aatype_emb_distance_fn. rewrite broadcast2_swap.
    rewrite (broadcast2_ext (fun a b => b - a) (fun a b => - (a - b)))
      by (intros; ring).
    rewrite (broadcast2_map Ropp Rminus).
    destruct (broadcast2 Rminus y x) as [d|]; [|reflexivity].
    cbn [option_map bind]. rewrite map_map. do 2 f_equal.
    apply map_ext. intros a. ring.
Qed.

Lemma squared_euclidean_nonneg x y : 0 <= Reference.squared_euclidean x y.
Proof.
  revert y. induction x as [|a x IH]; intros [|b y]; simpl; try lra.
  specialize (IH y). pose proof (pow2_ge_0 (a - b)). simpl in *. lra.
Qed.

Lemma squared_euclidean_zero x y :
  length x = length y ->
  (Reference.squared_euclidean x y = 0 <-> x = y).
Proof.
  revert y. induction x as [|a x IH]; intros [|b y] H; try discriminate.
  - simpl. tauto.
  - simpl in H. assert (Hl : length x = length y) by lia.
    specialize (IH y Hl). cbn [Reference.squared_euclidean].
    pose proof (squared_euclidean_nonneg x y) as Hn.
    pose proof (pow2_ge_0 (a - b)) as Hp. split.
    + intros E. assert (E1 : (a - b) ^ 2 = 0) by lra.
      assert (E2 : Reference.squared_euclidean x y = 0) by lra.
      apply IH in E2. simpl in E1.
      assert (a - b = 0) by nra. f_equal; [lra | exact E2].
    + intros E. inversion E. subst.
      replace (Reference.squared_euclidean y y) with 0
        by (symmetry; apply IH; reflexivity).
      simpl. ring.
Qed.

Lemma aatype_emb_distance_fn_eq x y :
  length x = length y ->
  aatype_emb_distance_fn x y = Some (Reference.squared_euclidean x y).
Proof.
  intros H. unfold aatype_emb_distance_fn.
  rewrite (broadcast2_same_length Rminus x y H). cbn [bind].
  rewrite np_sum_squared_differences. reflexivity.
Qed.

(** X5: on two vectors of one dimension the amino-acid distance is never
    negative, and it is zero from a vector to itself. *)
Theorem aatype_emb_distance_fn_nonnegative (x y : list R) :
  length x = length y ->
  exists d, aatype_emb_distance_fn x y = Some d /\
            0 <= d /\ (x = y -> d = 0).
Proof.
  intros H. exists (Reference.squared_euclidean x y).
  split; [apply aatype_emb_distance_fn_eq; exact H|].
  split; [apply squared_euclidean_nonneg|].
  intros E. apply squared_euclidean_zero; assumption.
Qed.

Lemma aatype_emb_distance_fn_nonnegative_witness :
  length [1; 2] = length [1; 2] /\
  exists d, aatype_emb_distance_fn [1; 2] [1; 2] = Some d /\
            0 <= d /\ ([1; 2] = [1; 2] -> d = 0).
Proof.
  split; [reflexivity|].
  apply (aatype_emb_distance_fn_nonnegative [1; 2] [1; 2]). reflexivity.
Defined.

(** ** Range and shape of the returned indexes *)

Lemma argmin_Some_lt ds k : argmin ds = Some k -> (k < length ds)%nat.
Proof.
  intros H. destruct ds as [|v l]; [discriminate|].
  destruct (argmin_first_minimum (v :: l)) as (k' & Hk' & Hlt & _);
    [discriminate|].
  congruence.
Qed.

Lemma nearest_lt dist emb v k :
  nearest dist emb v = Some k -> (k < length emb)%nat.
Proof.
  unfold nearest. intros H. apply bind_Some in H.
  destruct H as (ds & Hds & Hk). apply argmin_Some_lt in Hk.
  rewrite (mapM_length _ _ _ Hds) in Hk. exact Hk.
Qed.

Lemma mapM_mapM_shape {A B : Type} (f : A -> option B) (P : B -> Prop) x r :
  (forall a b, f a = Some b -> P b) ->
  mapM (mapM f) x = Some r ->
  map (@length _) r = map (@length _) x /\ Forall (Forall P) r.
Proof.
  intros HP. revert r. induction x as [|row x IH]; intros r H.
  - inversion H. split; [reflexivity | constructor].
  - apply mapM_cons_Some in H. destruct H as (b & bs & Hb & Hbs & ->).
    destruct (IH bs Hbs) as [Hshape Hall]. split.
    + simpl. rewrite (mapM_length _ _ _ Hb), Hshape. reflexivity.
    + constructor; [|exact Hall].
      apply Forall_forall. intros y Hy. apply In_nth_error in Hy.
      destruct Hy as [n Hn]. rewrite (mapM_nth_error _ _ _ n Hb) in Hn.
      destruct (nth_error row n) as [a|]; [|discriminate].
      exact (HP a y Hn).
Qed.

(** X6: whenever [index_from_embedding] returns, its two index arrays have
    the (B, Nres) shape of the input, every ProToken index is below the
    number of rows of protoken_emb and every amino-acid index below the
    number of rows of aatype_emb. *)
Theorem index_from_embedding_shape_and_range
    (protoken_emb aatype_emb : list (list R)) (x : list (list (list R)))
    (ret : index_dict) :
  index_from_embedding protoken_emb aatype_emb x = Some ret ->
  map (@length _) (protoken_indexes ret) = map (@length _) x /\
  Forall (Forall (fun k => (k < length protoken_emb)%nat))
         (protoken_indexes ret) /\
  exists a,
    aatype_indexes ret = Some a /\
    map (@length _) a = map (@length _) x /\
    Forall (Forall (fun k => (k < length aatype_emb)%nat)) a.
Proof.
  intros H. apply index_from_embedding_Some in H.
  destruct H as (p & a & Hp & Ha & ->). cbn [protoken_indexes aatype_indexes].
  apply mapM_mapM_shape with (P := fun k => (k < length protoken_emb)%nat)
    in Hp; [|intros v k; apply nearest_lt].
  apply mapM_mapM_shape with (P := fun k => (k < length aatype_emb)%nat)
    in Ha; [|intros v k; apply nearest_lt].
  destruct Hp as [Hp1 Hp2]. destruct Ha as [Ha1 Ha2].
  split; [exact Hp1|]. split; [exact Hp2|]. exists a. auto.
Qed.

Lemma index_from_embedding_shape_and_range_witness :
  index_from_embedding [[1]] [[1]] [[[0.5; 0.25]; [9; 9]]] =
    Some {| protoken_indexes := [[0; 0]];
            aatype_indexes := Some [[0; 0]] |}%nat /\
  map (@length _) [[0; 0]]%nat = map (@length _) [[[0.5; 0.25]; [9; 9]]] /\
  Forall (Forall (fun k => (k < length [[1]]%R)%nat)) [[0; 0]]%nat /\
  exists a,
    Some [[0; 0]]%nat = Some a /\
    map (@length _) a = map (@length _) [[[0.5; 0.25]; [9; 9]]] /\
    Forall (Forall (fun k => (k < length [[1]]%R)%nat)) a.
Proof.
  split; [reflexivity|].
  apply (index_from_embedding_shape_and_range [[1]] [[1]]
           [[[0.5; 0.25]; [9; 9]]]
           {| protoken_indexes := [[0; 0]];
              aatype_indexes := Some [[0; 0]] |}%nat).
  reflexivity.
Defined.

(** X7: when the amino-acid table has at most 20 rows, every row of
    amino-acid indexes that [index_from_embedding] returns is turned into a
    residue string of the same length by [aatype_index_to_resname]: the
    lookup in the 20-entry table cannot go out of range. *)
Theorem index_from_embedding_resnames
    (protoken_emb aatype_emb : list (list R)) (x : list (list (list R)))
    (ret : index_dict) (a : list (list nat)) :
  (length aatype_emb <= 20)%nat ->
  index_from_embedding protoken_emb aatype_emb x = Some ret ->
  aatype_indexes ret = Some a ->
  Forall (fun row => exists names,
            aatype_index_to_resname (map Z.of_nat row) = Some names /\
            String.length names = length row) a.
Proof.
  intros Hlen H Ha. apply index_from_embedding_Some in H.
  destruct H as (p & a' & _ & Ha' & ->). cbn [aatype_indexes] in Ha.
  inversion Ha. subst a'. clear Ha.
  apply mapM_mapM_shape with (P := fun k => (k < length aatype_emb)%nat)
    in Ha'; [|intros v k; apply nearest_lt].
  destruct Ha' as [_ Hall]. eapply Forall_impl; [|exact Hall].
  intros row Hrow.
  assert (Hcan : Forall canonical (map Z.of_nat row)).
  { apply Forall_map. eapply Forall_impl; [|exact Hrow].
    intros k Hk. unfold canonical. cbn beta in Hk. lia. }
  destruct (mapM_getitem_index _ Hcan) as (cs & Hcs & _).
  exists (string_of_list_ascii cs). unfold aatype_index_to_resname.
  rewrite Hcs. cbn [bind]. split; [reflexivity|].
  rewrite <- (length_map Z.of_nat row), <- (mapM_length _ _ _ Hcs).
  clear. induction cs as [|c cs IH]; simpl; congruence.
Qed.

Lemma index_from_embedding_resnames_witness :
  (length [[1]]%R <= 20)%nat /\
  index_from_embedding [[1]] [[1]] [[[0.5; 0.25]; [9; 9]]] =
    Some {| protoken_indexes := [[0; 0]];
            aatype_indexes := Some [[0; 0]] |}%nat /\
  Forall (fun row => exists names,
            aatype_index_to_resname (map Z.of_nat row) = Some names /\
            String.length names = length row) [[0; 0]]%nat.
Proof.
  assert (H : index_from_embedding [[1]] [[1]] [[[0.5; 0.25]; [9; 9]]] =
    Some {| protoken_indexes := [[0; 0]];
            aatype_indexes := Some [[0; 0]] |}%nat) by reflexivity.
  split; [simpl; lia|]. split; [exact H|].
  apply (index_from_embedding_resnames [[1]] [[1]] [[[0.5; 0.25]; [9; 9]]]
           {| protoken_indexes := [[0; 0]];
              aatype_indexes := Some [[0; 0]] |}%nat [[0; 0]]%nat).
  - simpl. lia.
  - exact H.
  - reflexivity.
Defined.

(** ** The all-zero ProToken slice *)

Lemma mapM_Forall_results {A B : Type} (f : A -> option B) (P : B -> Prop) l r :
  (forall a b, f a = Some b -> P b) ->
  mapM f l = Some r -> Forall P r.
Proof.
  intros HP. revert r. induction l as [|a l IH]; intros r H.
  - inversion H. constructor.
  - apply mapM_cons_Some in H. destruct H as (b & bs & Hb & Hbs & ->).
    constructor; eauto.
Qed.

Lemma lookup2_mapM_Some {A B : Type} (f : A -> option B) x r b i v :
  mapM (mapM f) x = Some r ->
  lookup2 x b i = Some v ->
  exists k, f v = Some k /\ lookup2 r b i = Some k.
Proof.
  intros H Hv. pose proof (lookup2_mapM f x r b i H) as E.
  rewrite Hv in E. cbn [bind] in E.
  unfold lookup2 in Hv. destruct (nth_error x b) as [row|] eqn:Eb;
    [|discriminate]. cbn [bind] in Hv.
  apply mapM_Some_Forall in H. rewrite Forall_forall in H.
  destruct (H row (nth_error_In _ _ Eb)) as [rrow Hrow].
  apply mapM_Some_Forall in Hrow. rewrite Forall_forall in Hrow.
  destruct (Hrow v (nth_error_In _ _ Hv)) as [k Hk].
  exists k. split; [exact Hk | congruence].
Qed.

Lemma np_sum_zeros p : Forall (fun c => c = 0) p -> np_sum p = 0.
Proof. induction 1 as [|c p Hc _ IH]; simpl; [reflexivity | lra]. Qed.

(** The three ways a broadcast goes through. *)
Lemma broadcast2_Some f x y p :
  broadcast2 f x y = Some p ->
  p = map (fun q => f (fst q) (snd q)) (combine x y) \/
  (exists a, x = [a] /\ p = map (fun b => f a b) y) \/
  (exists b, y = [b] /\ p = map (fun a => f a b) x).
Proof.
  unfold broadcast2. destruct (Nat.eqb (length x) (length y)).
  - intros E. injection E as <-. left. reflexivity.
  - destruct x as [|a [|a' x]], y as [|b [|b' y]]; intros E;
      try discriminate; injection E as <-;
      first [ right; left; eexists; split; reflexivity
            | right; right; eexists; split; reflexivity ].
Qed.

Lemma broadcast2_Rmult_zeros x y p :
  Forall (fun a => a = 0) x ->
  broadcast2 Rmult x y = Some p -> Forall (fun c => c = 0) p.
Proof.
  intros Hx H. apply broadcast2_Some in H.
  destruct H as [-> | [(a & -> & ->) | (b & -> & ->)]].
  - revert y. induction Hx as [|a x Ha _ IH]; intros [|b y]; simpl;
      try constructor; [subst; ring | apply IH].
  - inversion Hx. subst. apply Forall_forall. intros c Hc.
    apply in_map_iff in Hc. destruct Hc as (z & <- & _). ring.
  - induction Hx as [|a x Ha _ IH]; simpl; constructor;
      [subst; ring | exact IH].
Qed.

Lemma protoken_emb_distance_fn_zeros x y d :
  Forall (fun a => a = 0) x ->
  protoken_emb_distance_fn x y = Some d -> d = 0.
Proof.
  intros Hx. unfold protoken_emb_distance_fn. rewrite !normalized_eq.
  cbn [bind]. intros H. apply bind_Some in H. destruct H as (p & Hp & E).
  inversion E. apply broadcast2_Rmult_zeros in Hp.
  - rewrite (np_sum_zeros p Hp). ring.
  - apply Forall_forall. intros c Hc. apply in_map_iff in Hc.
    destruct Hc as (a & <- & Ha). rewrite Forall_forall in Hx.
    rewrite (Hx a Ha). unfold Rdiv. ring.
Qed.

Lemma argmin_from_stays best bv i l :
  Forall (fun v => Rltb v bv = false) l ->
  argmin_from Rltb best bv i l = best.
Proof.
  revert i. induction l as [|v l IH]; intros i H; [reflexivity|].
  inversion H as [|? ? Hv Hl]. subst. cbn [argmin_from]. rewrite Hv.
  apply IH. exact Hl.
Qed.

Lemma argmin_constant ds c :
  ds <> [] -> Forall (fun v => v = c) ds -> argmin ds = Some 0%nat.
Proof.
  intros Hne H. destruct ds as [|v l]; [congruence|].
  inversion H. subst. unfold argmin, argmin_by. f_equal.
  apply argmin_from_stays. eapply Forall_impl; [|eassumption].
  intros w ->. apply Rltb_false. lra.
Qed.

(** X8: at a position whose ProToken slice is all zeros, every codebook row
    is at distance 0 (the epsilon keeps the division defined), so the
    arg-min breaks the tie and [index_from_embedding] returns ProToken
    index 0 there. *)
Theorem index_from_embedding_zero_slice
    (protoken_emb aatype_emb : list (list R)) (x : list (list (list R)))
    (ret : index_dict) (b i : nat) (v : list R) :
  index_from_embedding protoken_emb aatype_emb x = Some ret ->
  lookup2 x b i = Some v ->
  Forall (fun a => a = 0) (firstn (DIM_EMB_PTK protoken_emb) v) ->
  protoken_index_at ret b i = Some 0%nat.
Proof.
  intros H Hv Hz. apply index_from_embedding_Some in H.
  destruct H as (p & a & Hp & _ & ->).
  destruct (lookup2_mapM_Some _ x p b i v Hp Hv) as (k & Hk & Hlk).
  unfold protoken_index_at. cbn [protoken_indexes]. rewrite Hlk.
  unfold nearest in Hk. apply bind_Some in Hk.
  destruct Hk as (ds & Hds & Hargmin).
  assert (Hall : Forall (fun d => d = 0) ds).
  { eapply mapM_Forall_results; [|exact Hds]. intros e d.
    apply protoken_emb_distance_fn_zeros. exact Hz. }
  assert (Hne : ds <> []) by (intros ->; discriminate Hargmin).
  rewrite (argmin_constant ds 0 Hne Hall) in Hargmin. congruence.
Qed.

Lemma index_from_embedding_zero_slice_witness :
  index_from_embedding [[1]] [[1]] [[[0; 0.25]]] =
    Some {| protoken_indexes := [[0]]; aatype_indexes := Some [[0]] |}%nat /\
  lookup2 [[[0; 0.25]]] 0 0 = Some [0; 0.25] /\
  Forall (fun a => a = 0) (firstn (DIM_EMB_PTK [[1]]) [0; 0.25]) /\
  protoken_index_at
    {| protoken_indexes := [[0]]; aatype_indexes := Some [[0]] |}%nat 0 0 =
  Some 0%nat.
Proof.
  assert (Hz : Forall (fun a => a = 0) (firstn (DIM_EMB_PTK [[1]]) [0; 0.25]))
    by (repeat constructor).
  split; [reflexivity|]. split; [reflexivity|]. split; [exact Hz|].
  apply (index_from_embedding_zero_slice [[1]] [[1]] [[[0; 0.25]]]
           {| protoken_indexes := [[0]]; aatype_indexes := Some [[0]] |}%nat
           0%nat 0%nat [0; 0.25]); [reflexivity | reflexivity | exact Hz].
Defined.

(** ** Clamping *)

Lemma nearest_Some_entry dist emb v k :
  nearest dist emb v = Some k -> nearest_entry dist emb v k.
Proof.
  intros H. pose proof H as H0. unfold nearest in H. apply bind_Some in H.
  destruct H as (ds & Hds & Hk).
  assert (Hne : emb <> []).
  { intros ->. inversion Hds. subst. discriminate Hk. }
  destruct (nearest_returns_nearest_entry dist emb v Hne
              (mapM_Some_Forall _ _ _ Hds)) as (k' & Hk' & Hentry).
  congruence.
Qed.

(** When every row of the table is nearest to itself, and as near to
    itself only as to an equal row, projecting the row that a projection
    selected selects the same row again. *)
Lemma nearest_stable dist emb v k :
  nearest dist emb v = Some k ->
  (forall j, (j < length emb)%nat ->
     exists d0 dj,
       dist (nth k emb []) (nth k emb []) = Some d0 /\
       dist (nth k emb []) (nth j emb []) = Some dj /\
       d0 <= dj /\ (dj = d0 -> nth j emb [] = nth k emb [])) ->
  nearest dist emb (nth k emb []) = Some k.
Proof.
  intros Hk Hself. apply nearest_Some_entry in Hk.
  destruct Hk as (Hlt & dk & Hdk & Hmin).
  assert (Hne : emb <> []) by (intros ->; simpl in Hlt; lia).
  destruct (nearest_returns_nearest_entry dist emb (nth k emb []) Hne)
    as (k' & Hk' & Hlt' & dk' & Hdk' & Hmin').
  { apply Forall_forall. intros e He. apply In_nth with (d := []) in He.
    destruct He as (j & Hj & <-).
    destruct (Hself j Hj) as (d0 & dj & _ & E & _). eauto. }
  rewrite Hk'. f_equal.
  destruct (Hself k' Hlt') as (d0 & d1 & Hd0 & Hd1 & Hle & Heq).
  assert (d1 = dk') by congruence. subst d1.
  destruct (Hmin' k Hlt) as (d2 & Hd2 & Hle2 & Hlt2).
  assert (d2 = d0) by congruence. subst d2.
  assert (Hrow : nth k' emb [] = nth k emb []) by (apply Heq; lra).
  destruct (Nat.lt_trichotomy k' k) as [Hc | [Hc | Hc]]; [|exact Hc|].
  - destruct (Hmin k' Hlt') as (d3 & Hd3 & _ & Hstrict).
    rewrite Hrow in Hd3. assert (d3 = dk) by congruence. subst d3.
    specialize (Hstrict Hc). lra.
  - specialize (Hlt2 Hc). lra.
Qed.

Lemma rectangular_row_length emb k :
  rectangular emb -> (k < length emb)%nat ->
  length (nth k emb []) = shape_last emb.
Proof.
  intros [_ H] Hk. rewrite Forall_forall in H. apply H, nth_In, Hk.
Qed.

Lemma dot_scaled2 c1 c2 x y :
  c1 <> 0 -> c2 <> 0 ->
  Reference.dot (map (fun a => a / c1) x) (map (fun a => a / c2) y) =
  Reference.dot x y / (c1 * c2).
Proof.
  intros H1 H2. revert y. induction x as [|a x IH]; intros [|b y]; simpl;
    try (field; auto).
  rewrite IH. field. auto.
Qed.

Lemma squared_euclidean_expand x y :
  length x = length y ->
  Reference.squared_euclidean x y =
  Reference.dot x x - 2 * Reference.dot x y + Reference.dot y y.
Proof.
  revert y. induction x as [|a x IH]; intros [|b y] H; try discriminate.
  - simpl. ring.
  - simpl in H. simpl. rewrite IH by lia. ring.
Qed.

Lemma equal_norm_equal_dot x y :
  norm x = norm y -> Reference.dot x x = Reference.dot y y.
Proof.
  intros H. rewrite <- !np_sum_squares_dot, <- !norm_squared, H. reflexivity.
Qed.

(** Among vectors of one length and one norm, a vector has its largest dot
    product with itself, and with no other vector the same. *)
Lemma dot_le_self x y :
  length x = length y -> norm x = norm y ->
  Reference.dot x y <= Reference.dot x x /\
  (Reference.dot x y = Reference.dot x x -> y = x).
Proof.
  intros Hlen Hn. pose proof (equal_norm_equal_dot x y Hn) as E.
  pose proof (squared_euclidean_nonneg x y) as Hpos.
  pose proof (squared_euclidean_expand x y Hlen) as Hexp.
  split; [lra|]. intros Heq. symmetry.
  apply squared_euclidean_zero; [exact Hlen | lra].
Qed.

Lemma aatype_rows_separated emb k j :
  rectangular emb -> (k < length emb)%nat -> (j < length emb)%nat ->
  exists d0 dj,
    aatype_emb_distance_fn (nth k emb []) (nth k emb []) = Some d0 /\
    aatype_emb_distance_fn (nth k emb []) (nth j emb []) = Some dj /\
    d0 <= dj /\ (dj = d0 -> nth j emb [] = nth k emb []).
Proof.
  intros Hrect Hk Hj.
  assert (Hlen : length (nth k emb []) = length (nth j emb []))
    by (rewrite !rectangular_row_length by assumption; reflexivity).
  exists (Reference.squared_euclidean (nth k emb []) (nth k emb [])),
         (Reference.squared_euclidean (nth k emb []) (nth j emb [])).
  split; [apply aatype_emb_distance_fn_eq; reflexivity|].
  split; [apply aatype_emb_distance_fn_eq; exact Hlen|].
  assert (E0 : Reference.squared_euclidean (nth k emb []) (nth k emb []) = 0)
    by (apply squared_euclidean_zero; reflexivity).
  rewrite E0. split; [apply squared_euclidean_nonneg|].
  intros E. symmetry. apply squared_euclidean_zero; assumption.
Qed.

Lemma protoken_rows_separated emb n k j :
  rectangular emb -> Forall (fun r => norm r = n) emb ->
  (k < length emb)%nat -> (j < length emb)%nat ->
  exists d0 dj,
    protoken_emb_distance_fn (nth k emb []) (nth k emb []) = Some d0 /\
    protoken_emb_distance_fn (nth k emb []) (nth j emb []) = Some dj /\
    d0 <= dj /\ (dj = d0 -> nth j emb [] = nth k emb []).
Proof.
  intros Hrect Hnorm Hk Hj. rewrite Forall_forall in Hnorm.
  assert (Hnk : norm (nth k emb []) = n) by (apply Hnorm, nth_In, Hk).
  assert (Hnj : norm (nth j emb []) = n) by (apply Hnorm, nth_In, Hj).
  assert (Hlen : length (nth k emb []) = length (nth j emb []))
    by (rewrite !rectangular_row_length by assumption; reflexivity).
  pose proof (denominator_pos (nth k emb [])) as Hc. rewrite Hnk in Hc.
  destruct (dot_le_self (nth k emb []) (nth j emb []) Hlen) as [Hle Heq];
    [congruence|].
  eexists. eexists.
  split; [apply protoken_emb_distance_fn_eq; reflexivity|].
  split; [apply protoken_emb_distance_fn_eq; exact Hlen|].
  rewrite Hnk, Hnj, !dot_scaled2 by lra.
  assert (Hs : 0 < / ((n + eps) * (n + eps)))
    by (apply Rinv_0_lt_compat; nra).
  unfold Rdiv. split; [nra|]. intros E. apply Heq. nra.
Qed.

(** In exact arithmetic every rectangular table is [self_nearest] for the
    amino-acid distance, and every rectangular table with rows of one norm
    is for the ProToken distance.  In floating point it is a condition on
    the table: the square of a small difference can round to zero, and the
    distance from a row to itself can tie with the distance to a nearly
    parallel row. *)
Lemma aatype_self_nearest emb :
  rectangular emb -> self_nearest aatype_emb_distance_fn emb.
Proof.
  intros Hrect k j dkk dkj Hk Hj Ekk Ekj.
  destruct (aatype_rows_separated emb k j Hrect Hk Hj)
    as (d0 & dj & E0 & Ej & Hle & Heq).
  assert (d0 = dkk) by congruence. assert (dj = dkj) by congruence.
  subst. split; assumption.
Qed.

Lemma protoken_self_nearest emb n :
  rectangular emb -> Forall (fun r => norm r = n) emb ->
  self_nearest protoken_emb_distance_fn emb.
Proof.
  intros Hrect Hn k j dkk dkj Hk Hj Ekk Ekj.
  destruct (protoken_rows_separated emb n k j Hrect Hn Hk Hj)
    as (d0 & dj & E0 & Ej & Hle & Heq).
  assert (d0 = dkk) by congruence. assert (dj = dkj) by congruence.
  subst. split; assumption.
Qed.

(** Over a [self_nearest] table on whose rows the distance is defined, a
    row compares with the rows of the table as [nearest_stable] and
    [nearest_self] ask. *)
Lemma self_nearest_rows dist emb k j :
  self_nearest dist emb ->
  (forall i, (i < length emb)%nat ->
     exists d, dist (nth k emb []) (nth i emb []) = Some d) ->
  (k < length emb)%nat -> (j < length emb)%nat ->
  exists d0 dj,
    dist (nth k emb []) (nth k emb []) = Some d0 /\
    dist (nth k emb []) (nth j emb []) = Some dj /\
    d0 <= dj /\ (dj = d0 -> nth j emb [] = nth k emb []).
Proof.
  intros Hself Htot Hk Hj.
  destruct (Htot k Hk) as (d0 & E0). destruct (Htot j Hj) as (dj & Ej).
  exists d0, dj. split; [exact E0|]. split; [exact Ej|].
  exact (Hself k j d0 dj Hk Hj E0 Ej).
Qed.

Lemma aatype_rows_total emb k i :
  rectangular emb -> (k < length emb)%nat -> (i < length emb)%nat ->
  exists d, aatype_emb_distance_fn (nth k emb []) (nth i emb []) = Some d.
Proof.
  intros Hrect Hk Hi. apply aatype_emb_distance_fn_total.
  rewrite !rectangular_row_length by assumption. reflexivity.
Qed.

Lemma protoken_rows_total emb k i :
  rectangular emb -> (k < length emb)%nat -> (i < length emb)%nat ->
  exists d, protoken_emb_distance_fn (nth k emb []) (nth i emb []) = Some d.
Proof.
  intros Hrect Hk Hi. apply protoken_emb_distance_fn_total.
  rewrite !rectangular_row_length by assumption. reflexivity.
Qed.

Lemma aatype_nearest_stable emb v k :
  rectangular emb ->
  self_nearest aatype_emb_distance_fn emb ->
  nearest aatype_emb_distance_fn emb v = Some k ->
  nearest aatype_emb_distance_fn emb (nth k emb []) = Some k.
Proof.
  intros Hrect Hself Hk. apply nearest_stable with (v := v); [exact Hk|].
  pose proof (nearest_lt _ _ _ _ Hk) as Hlt.
  intros j Hj. apply self_nearest_rows; try assumption.
  intros i Hi. apply aatype_rows_total; assumption.
Qed.

Lemma protoken_nearest_stable emb v k :
  rectangular emb ->
  self_nearest protoken_emb_distance_fn emb ->
  nearest protoken_emb_distance_fn emb v = Some k ->
  nearest protoken_emb_distance_fn emb (nth k emb []) = Some k.
Proof.
  intros Hrect Hself Hk. apply nearest_stable with (v := v); [exact Hk|].
  pose proof (nearest_lt _ _ _ _ Hk) as Hlt.
  intros j Hj. apply self_nearest_rows; try assumption.
  intros i Hi. apply protoken_rows_total; assumption.
Qed.

Lemma jnp_take_in_range emb r :
  Forall (fun k => (k < length emb)%nat) r ->
  jnp_take emb (map Z.of_nat r) = map (fun k => nth k emb []) r.
Proof.
  intros H. unfold jnp_take. rewrite map_map. apply map_ext_in.
  intros k Hk. rewrite Forall_forall in H. specialize (H k Hk).
  destruct (Z.ltb_spec (Z.of_nat k) 0) as [|_]; [lia|].
  f_equal. lia.
Qed.

Lemma nth_error_combine_both {A B : Type} (l1 : list A) (l2 : list B) n :
  nth_error (combine l1 l2) n =
  match nth_error l1 n, nth_error l2 n with
  | Some a, Some b => Some (a, b)
  | _, _ => None
  end.
Proof.
  revert l2 n. induction l1 as [|a l1 IH]; intros [|b l2] [|n]; simpl;
    try reflexivity.
  - destruct (nth_error l1 n); reflexivity.
  - apply IH.
Qed.

Lemma lookup2_zip {A B C : Type} (h : A * B -> C)
    (p : list (list A)) (a : list (list B)) b i :
  lookup2 (map (fun q => map h (combine (fst q) (snd q))) (combine p a)) b i =
  match lookup2 p b i, lookup2 a b i with
  | Some kp, Some ka => Some (h (kp, ka))
  | _, _ => None
  end.
Proof.
  unfold lookup2. rewrite nth_error_map, nth_error_combine_both.
  destruct (nth_error p b) as [pr|]; [|reflexivity].
  destruct (nth_error a b) as [ar|]; cbn [option_map bind fst snd].
  - rewrite nth_error_map, nth_error_combine_both.
    destruct (nth_error pr i), (nth_error ar i); reflexivity.
  - destruct (nth_error pr i); reflexivity.
Qed.

Lemma concatenate_last_map {A B : Type} (f : A -> list R) (g : B -> list R)
    l1 l2 :
  concatenate_last (map f l1) (map g l2) =
  map (fun q => f (fst q) ++ g (snd q)) (combine l1 l2).
Proof.
  unfold concatenate_last. revert l2.
  induction l1 as [|a l1 IH]; intros [|b l2]; simpl; try reflexivity.
  rewrite IH. reflexivity.
Qed.

Section ClampProperties.
Variables protoken_emb aatype_emb : list (list R).

Local Abbreviation protoken_of :=
  (fun v : list R =>
     nearest protoken_emb_distance_fn protoken_emb
             (firstn (DIM_EMB_PTK protoken_emb) v)).
Local Abbreviation aatype_of :=
  (fun v : list R =>
     nearest aatype_emb_distance_fn aatype_emb
             (skipn (DIM_EMB_PTK protoken_emb) v)).
Local Abbreviation joined :=
  (fun q : nat * nat => nth (fst q) protoken_emb [] ++ nth (snd q) aatype_emb []).

(** The clamped batch in terms of the two index arrays. *)
Lemma clamp_x0_fn_Some x0 y :
  clamp_x0_fn protoken_emb aatype_emb x0 = Some y <->
  exists p a,
    mapM (mapM protoken_of) x0 = Some p /\
    mapM (mapM aatype_of) x0 = Some a /\
    y = map (fun q => map joined (combine (fst q) (snd q))) (combine p a).
Proof.
  unfold clamp_x0_fn. cbn [infer_protuple].
  assert (Hy : forall p a,
    mapM (mapM protoken_of) x0 = Some p ->
    mapM (mapM aatype_of) x0 = Some a ->
    map (fun q => concatenate_last
                    (jnp_take protoken_emb (map Z.of_nat (fst q)))
                    (jnp_take aatype_emb (map Z.of_nat (snd q))))
        (combine p a) =
    map (fun q => map joined (combine (fst q) (snd q))) (combine p a)).
  { intros p a Hp Ha.
    apply mapM_mapM_shape with (P := fun k => (k < length protoken_emb)%nat)
      in Hp; [|intros v k; apply nearest_lt].
    apply mapM_mapM_shape with (P := fun k => (k < length aatype_emb)%nat)
      in Ha; [|intros v k; apply nearest_lt].
    destruct Hp as [_ Hp]. destruct Ha as [_ Ha].
    rewrite Forall_forall in Hp, Ha.
    apply map_ext_in. intros [pr ar] Hin. cbn [fst snd].
    rewrite !jnp_take_in_range.
    - exact (concatenate_last_map (fun k => nth k protoken_emb [])
               (fun k => nth k aatype_emb []) pr ar).
    - apply Ha. eapply in_combine_r. exact Hin.
    - apply Hp. eapply in_combine_l. exact Hin. }
  split.
  - intros H. apply bind_Some in H. destruct H as (p & Hp & H).
    apply bind_Some in H. destruct H as (a & Ha & H).
    exists p, a. split; [exact Hp|]. split; [exact Ha|].
    rewrite <- (Hy p a Hp Ha). congruence.
  - intros (p & a & Hp & Ha & ->). rewrite Hp. cbn [bind]. rewrite Ha.
    cbn [bind]. rewrite (Hy p a Hp Ha). reflexivity.
Qed.

End ClampProperties.

(** X9: whenever [clamp_x0_fn] returns, [index_from_embedding] returns on
    the same batch, and the clamped embedding at every position is the
    protoken_emb row and the aatype_emb row of the two indexes found there,
    joined: clamping only ever outputs rows of the two tables. *)
Theorem clamp_x0_fn_codebook_rows
    (protoken_emb aatype_emb : list (list R)) (x0 y : list (list (list R))) :
  clamp_x0_fn protoken_emb aatype_emb x0 = Some y ->
  exists ret,
    index_from_embedding protoken_emb aatype_emb x0 = Some ret /\
    forall b i v, lookup2 x0 b i = Some v ->
      exists kp ka,
        protoken_index_at ret b i = Some kp /\
        aatype_index_at ret b i = Some ka /\
        (kp < length protoken_emb)%nat /\ (ka < length aatype_emb)%nat /\
        lookup2 y b i =
          Some (nth kp protoken_emb [] ++ nth ka aatype_emb []).
Proof.
  intros H. apply clamp_x0_fn_Some in H. destruct H as (p & a & Hp & Ha & ->).
  exists {| protoken_indexes := p; aatype_indexes := Some a |}.
  split; [apply index_from_embedding_Some; eauto|].
  intros b i v Hv.
  destruct (lookup2_mapM_Some _ x0 p b i v Hp Hv) as (kp & Hkp & Hlp).
  destruct (lookup2_mapM_Some _ x0 a b i v Ha Hv) as (ka & Hka & Hla).
  exists kp, ka. unfold protoken_index_at, aatype_index_at.
  cbn [protoken_indexes aatype_indexes bind].
  split; [exact Hlp|]. split; [exact Hla|].
  split; [eapply nearest_lt; exact Hkp|].
  split; [eapply nearest_lt; exact Hka|].
  rewrite lookup2_zip, Hlp, Hla. reflexivity.
Qed.

Lemma clamp_x0_fn_codebook_rows_witness :
  clamp_x0_fn [[1]] [[2]] [[[0.5; 0.25]]] = Some [[[1; 2]]] /\
  exists ret,
    index_from_embedding [[1]] [[2]] [[[0.5; 0.25]]] = Some ret /\
    forall b i v, lookup2 [[[0.5; 0.25]]] b i = Some v ->
      exists kp ka,
        protoken_index_at ret b i = Some kp /\
        aatype_index_at ret b i = Some ka /\
        (kp < length [[1]]%R)%nat /\ (ka < length [[2]]%R)%nat /\
        lookup2 [[[1; 2]]] b i = Some (nth kp [[1]] [] ++ nth ka [[2]] []).
Proof.
  split; [reflexivity|].
  apply (clamp_x0_fn_codebook_rows [[1]] [[2]] [[[0.5; 0.25]]] [[[1; 2]]]).
  reflexivity.
Defined.

Lemma skipn_length_app {A : Type} (l1 l2 : list A) n :
  length l1 = n -> skipn n (l1 ++ l2) = l2.
Proof.
  intros <-. induction l1 as [|a l1 IH]; simpl; [reflexivity | exact IH].
Qed.

Lemma firstn_length_app {A : Type} (l1 l2 : list A) n :
  length l1 = n -> firstn n (l1 ++ l2) = l1.
Proof.
  intros <-. induction l1 as [|a l1 IH]; simpl;
    [reflexivity | rewrite IH; reflexivity].
Qed.

(** Mapping a projection over re-joined rows, position by position. *)
Lemma mapM_zip_rows {A : Type} (fp fa : A -> option nat)
    (h : nat * nat -> A) (g : A -> option nat) (sel : nat * nat -> nat)
    x p a :
  mapM (mapM fp) x = Some p ->
  mapM (mapM fa) x = Some a ->
  (forall v kp ka, fp v = Some kp -> fa v = Some ka ->
                   g (h (kp, ka)) = Some (sel (kp, ka))) ->
  mapM (mapM g) (map (fun q => map h (combine (fst q) (snd q))) (combine p a)) =
  Some (map (fun q => map sel (combine (fst q) (snd q))) (combine p a)).
Proof.
  intros Hp Ha Hpos. revert p a Hp Ha.
  induction x as [|row x IH]; intros p a Hp Ha.
  - inversion Hp. inversion Ha. reflexivity.
  - apply mapM_cons_Some in Hp. destruct Hp as (pr & ps & Hpr & Hps & ->).
    apply mapM_cons_Some in Ha. destruct Ha as (ar & as' & Har & Has & ->).
    cbn [combine map mapM fst snd]. rewrite (IH ps as' Hps Has).
    assert (Hrow : mapM g (map h (combine pr ar)) =
                   Some (map sel (combine pr ar))).
    { clear IH Hps Has. revert pr ar Hpr Har.
      induction row as [|v row IHr]; intros pr ar Hpr Har.
      - inversion Hpr. inversion Har. reflexivity.
      - apply mapM_cons_Some in Hpr.
        destruct Hpr as (kp & pr' & Hkp & Hpr' & ->).
        apply mapM_cons_Some in Har.
        destruct Har as (ka & ar' & Hka & Har' & ->).
        cbn [combine map mapM]. rewrite (Hpos v kp ka Hkp Hka).
        cbn [bind]. rewrite (IHr pr' ar' Hpr' Har'). reflexivity. }
    rewrite Hrow. reflexivity.
Qed.

Lemma zip_rows_snd {A B : Type} (p : list (list A)) (a : list (list B)) :
  map (@length _) p = map (@length _) a ->
  map (fun q => map snd (combine (fst q) (snd q))) (combine p a) = a.
Proof.
  revert a. induction p as [|pr p IH]; intros [|ar a] H; try discriminate;
    [reflexivity|].
  simpl in H. injection H as Hrow Hrest. cbn [combine map fst snd].
  rewrite (IH a Hrest). f_equal.
  clear -Hrow. revert ar Hrow.
  induction pr as [|x pr IH]; intros [|y ar] H; try discriminate;
    [reflexivity|].
  simpl in H. cbn [combine map snd]. rewrite IH by lia. reflexivity.
Qed.

Lemma zip_rows_fst {A B : Type} (p : list (list A)) (a : list (list B)) :
  map (@length _) p = map (@length _) a ->
  map (fun q => map fst (combine (fst q) (snd q))) (combine p a) = p.
Proof.
  revert a. induction p as [|pr p IH]; intros [|ar a] H; try discriminate;
    [reflexivity|].
  simpl in H. injection H as Hrow Hrest. cbn [combine map fst snd].
  rewrite (IH a Hrest). f_equal.
  clear -Hrow. revert ar Hrow.
  induction pr as [|x pr IH]; intros [|y ar] H; try discriminate;
    [reflexivity|].
  simpl in H. cbn [combine map fst]. rewrite IH by lia. reflexivity.
Qed.

Section ClampStability.
Variables protoken_emb aatype_emb : list (list R).
Hypothesis protoken_rect : rectangular protoken_emb.
Hypothesis aatype_rect : rectangular aatype_emb.

Local Abbreviation protoken_of :=
  (fun v : list R =>
     nearest protoken_emb_distance_fn protoken_emb
             (firstn (DIM_EMB_PTK protoken_emb) v)).
Local Abbreviation aatype_of :=
  (fun v : list R =>
     nearest aatype_emb_distance_fn aatype_emb
             (skipn (DIM_EMB_PTK protoken_emb) v)).
Local Abbreviation joined :=
  (fun q : nat * nat => nth (fst q) protoken_emb [] ++ nth (snd q) aatype_emb []).

Lemma aatype_of_joined v kp ka :
  self_nearest aatype_emb_distance_fn aatype_emb ->
  protoken_of v = Some kp -> aatype_of v = Some ka ->
  aatype_of (joined (kp, ka)) = Some ka.
Proof.
  intros Hself Hkp Hka. cbn [fst snd].
  rewrite skipn_length_app
    by (apply rectangular_row_length;
        [exact protoken_rect | eapply nearest_lt; exact Hkp]).
  eapply aatype_nearest_stable; [exact aatype_rect | exact Hself | exact Hka].
Qed.

(** Without a condition on the ProToken table the ProToken index of a
    clamped position is some index of the table ... *)
Lemma protoken_of_joined_total v kp ka :
  protoken_of v = Some kp -> aatype_of v = Some ka ->
  exists k, protoken_of (joined (kp, ka)) = Some k.
Proof.
  intros Hkp Hka. cbn [fst snd].
  pose proof (nearest_lt _ _ _ _ Hkp) as Hlt.
  rewrite firstn_length_app
    by (apply rectangular_row_length; assumption).
  destruct (nearest_returns_nearest_entry protoken_emb_distance_fn
              protoken_emb (nth kp protoken_emb [])) as (k & Hk & _).
  - exact (proj1 protoken_rect).
  - apply Forall_forall. intros e He. apply In_nth with (d := []) in He.
    destruct He as (j & Hj & <-). apply protoken_emb_distance_fn_total.
    rewrite !rectangular_row_length by assumption. reflexivity.
  - eauto.
Qed.

(** ... and over a [self_nearest] table it is the index itself. *)
Lemma protoken_of_joined v kp ka :
  self_nearest protoken_emb_distance_fn protoken_emb ->
  protoken_of v = Some kp -> aatype_of v = Some ka ->
  protoken_of (joined (kp, ka)) = Some kp.
Proof.
  intros Hself Hkp Hka. cbn [fst snd].
  rewrite firstn_length_app
    by (apply rectangular_row_length;
        [exact protoken_rect | eapply nearest_lt; exact Hkp]).
  eapply protoken_nearest_stable;
    [exact protoken_rect | exact Hself | exact Hkp].
Qed.

End ClampStability.

(** *** A two-row example: the scenario codebook and two residue types *)

Lemma scenario_codebook_rectangular : rectangular scenario_codebook.
Proof. split; [discriminate | repeat constructor]. Qed.

Lemma two_residue_table_rectangular : rectangular [[0]; [1]].
Proof. split; [discriminate | repeat constructor]. Qed.

Lemma scenario_codebook_self_nearest :
  self_nearest protoken_emb_distance_fn scenario_codebook.
Proof.
  apply protoken_self_nearest with (n := norm [1; 0]);
    [exact scenario_codebook_rectangular|].
  constructor; [reflexivity|]. constructor; [|constructor].
  unfold norm. f_equal. simpl. ring.
Qed.

Lemma two_residue_table_self_nearest :
  self_nearest aatype_emb_distance_fn [[0]; [1]].
Proof. apply aatype_self_nearest, two_residue_table_rectangular. Qed.

Lemma nearest_two_residue_table a :
  a < 1 / 2 -> nearest aatype_emb_distance_fn [[0]; [1]] [a] = Some 0%nat.
Proof.
  intros Ha. unfold nearest. cbn [mapM].
  rewrite !aatype_emb_distance_fn_eq by reflexivity. cbn [bind].
  unfold argmin. rewrite argmin_pair.
  replace (Rltb _ _) with false; [reflexivity|].
  symmetry. apply Rltb_false. simpl. nra.
Qed.

Lemma scenario_clamp :
  clamp_x0_fn scenario_codebook [[0]; [1]] [[[0.9; 0.1; 0.2]]] =
  Some [[[1; 0; 0]]].
Proof.
  unfold clamp_x0_fn, infer_protuple.
  change (DIM_EMB_PTK scenario_codebook) with 2%nat.
  cbn [mapM firstn skipn].
  rewrite nearest_scenario_sign by lra.
  replace (Rltb 0.9 0) with false by (symmetry; apply Rltb_false; lra).
  rewrite nearest_two_residue_table by lra.
  reflexivity.
Qed.

(** X10: over rectangular tables of which the amino-acid table is
    [self_nearest], projecting a clamped batch back gives the amino-acid
    indexes of the batch it was clamped from: clamping does not change the
    decoded residue types. *)
Theorem clamp_x0_fn_keeps_aatype_indexes
    (protoken_emb aatype_emb : list (list R)) (x0 y : list (list (list R))) :
  rectangular protoken_emb ->
  rectangular aatype_emb ->
  self_nearest aatype_emb_distance_fn aatype_emb ->
  clamp_x0_fn protoken_emb aatype_emb x0 = Some y ->
  exists ret ret',
    index_from_embedding protoken_emb aatype_emb x0 = Some ret /\
    index_from_embedding protoken_emb aatype_emb y = Some ret' /\
    aatype_indexes ret' = aatype_indexes ret.
Proof.
  intros Hp Ha Hsa H. apply clamp_x0_fn_Some in H.
  destruct H as (p & a & Ep & Ea & ->).
  pose proof (mapM_mapM_shape _ (fun _ => True) x0 p
                (fun _ _ _ => I) Ep) as [Sp _].
  pose proof (mapM_mapM_shape _ (fun _ => True) x0 a
                (fun _ _ _ => I) Ea) as [Sa _].
  pose (sel := fun q : nat * nat =>
    match nearest protoken_emb_distance_fn protoken_emb
            (firstn (DIM_EMB_PTK protoken_emb)
               (nth (fst q) protoken_emb [] ++ nth (snd q) aatype_emb []))
    with Some k => k | None => 0%nat end).
  eexists. eexists. split; [apply index_from_embedding_Some; eauto|].
  split.
  - apply index_from_embedding_Some. eexists. exists a.
    split; [|split; [|reflexivity]].
    + apply (mapM_zip_rows _ _ _ _ sel x0 p a Ep Ea).
      intros v kp ka Hkp Hka. unfold sel.
      destruct (protoken_of_joined_total protoken_emb aatype_emb Hp
                  v kp ka Hkp Hka) as [k Hk].
      cbn [fst snd] in *. rewrite Hk. reflexivity.
    + rewrite (mapM_zip_rows _ _ _ _ snd x0 p a Ep Ea).
      * rewrite zip_rows_snd by congruence. reflexivity.
      * intros v kp ka Hkp Hka.
        exact (aatype_of_joined protoken_emb aatype_emb Hp Ha v kp ka
                 Hsa Hkp Hka).
  - reflexivity.
Qed.

Lemma clamp_x0_fn_keeps_aatype_indexes_witness :
  rectangular scenario_codebook /\ rectangular [[0]; [1]] /\
  self_nearest aatype_emb_distance_fn [[0]; [1]] /\
  clamp_x0_fn scenario_codebook [[0]; [1]] [[[0.9; 0.1; 0.2]]] =
    Some [[[1; 0; 0]]] /\
  exists ret ret',
    index_from_embedding scenario_codebook [[0]; [1]] [[[0.9; 0.1; 0.2]]] =
      Some ret /\
    index_from_embedding scenario_codebook [[0]; [1]] [[[1; 0; 0]]] =
      Some ret' /\
    aatype_indexes ret' = aatype_indexes ret.
Proof.
  split; [exact scenario_codebook_rectangular|].
  split; [exact two_residue_table_rectangular|].
  split; [exact two_residue_table_self_nearest|].
  split; [exact scenario_clamp|].
  exact (clamp_x0_fn_keeps_aatype_indexes scenario_codebook [[0]; [1]]
           [[[0.9; 0.1; 0.2]]] [[[1; 0; 0]]]
           scenario_codebook_rectangular two_residue_table_rectangular
           two_residue_table_self_nearest scenario_clamp).
Defined.

(** X11: over rectangular tables that are both [self_nearest], clamping is
    idempotent, and a clamped batch projects to the very ProToken and
    amino-acid indexes of the batch it was clamped from. *)
Theorem clamp_x0_fn_idempotent
    (protoken_emb aatype_emb : list (list R))
    (x0 y : list (list (list R))) :
  rectangular protoken_emb ->
  rectangular aatype_emb ->
  self_nearest protoken_emb_distance_fn protoken_emb ->
  self_nearest aatype_emb_distance_fn aatype_emb ->
  clamp_x0_fn protoken_emb aatype_emb x0 = Some y ->
  clamp_x0_fn protoken_emb aatype_emb y = Some y /\
  index_from_embedding protoken_emb aatype_emb y =
  index_from_embedding protoken_emb aatype_emb x0.
Proof.
  intros Hp Ha Hsp Hsa H. apply clamp_x0_fn_Some in H.
  destruct H as (p & a & Ep & Ea & ->).
  pose proof (mapM_mapM_shape _ (fun _ => True) x0 p
                (fun _ _ _ => I) Ep) as [Sp _].
  pose proof (mapM_mapM_shape _ (fun _ => True) x0 a
                (fun _ _ _ => I) Ea) as [Sa _].
  assert (Ep' : mapM (mapM (fun v =>
                  nearest protoken_emb_distance_fn protoken_emb
                          (firstn (DIM_EMB_PTK protoken_emb) v)))
                  (map (fun q => map (fun q' =>
                          nth (fst q') protoken_emb [] ++
                          nth (snd q') aatype_emb [])
                        (combine (fst q) (snd q))) (combine p a)) = Some p).
  { rewrite (mapM_zip_rows _ _ _ _ fst x0 p a Ep Ea).
    - rewrite zip_rows_fst by congruence. reflexivity.
    - intros v kp ka Hkp Hka.
      exact (protoken_of_joined protoken_emb aatype_emb Hp v kp ka
               Hsp Hkp Hka). }
  assert (Ea' : mapM (mapM (fun v =>
                  nearest aatype_emb_distance_fn aatype_emb
                          (skipn (DIM_EMB_PTK protoken_emb) v)))
                  (map (fun q => map (fun q' =>
                          nth (fst q') protoken_emb [] ++
                          nth (snd q') aatype_emb [])
                        (combine (fst q) (snd q))) (combine p a)) = Some a).
  { rewrite (mapM_zip_rows _ _ _ _ snd x0 p a Ep Ea).
    - rewrite zip_rows_snd by congruence. reflexivity.
    - intros v kp ka Hkp Hka.
      exact (aatype_of_joined protoken_emb aatype_emb Hp Ha v kp ka
               Hsa Hkp Hka). }
  split.
  - apply clamp_x0_fn_Some. exists p, a. auto.
  - transitivity (Some {| protoken_indexes := p; aatype_indexes := Some a |}).
    + apply index_from_embedding_Some. eauto.
    + symmetry. apply index_from_embedding_Some. eauto.
Qed.

Lemma clamp_x0_fn_idempotent_witness :
  rectangular scenario_codebook /\ rectangular [[0]; [1]] /\
  self_nearest protoken_emb_distance_fn scenario_codebook /\
  self_nearest aatype_emb_distance_fn [[0]; [1]] /\
  clamp_x0_fn scenario_codebook [[0]; [1]] [[[0.9; 0.1; 0.2]]] =
    Some [[[1; 0; 0]]] /\
  clamp_x0_fn scenario_codebook [[0]; [1]] [[[1; 0; 0]]] =
    Some [[[1; 0; 0]]] /\
  index_from_embedding scenario_codebook [[0]; [1]] [[[1; 0; 0]]] =
  index_from_embedding scenario_codebook [[0]; [1]] [[[0.9; 0.1; 0.2]]].
Proof.
  split; [exact scenario_codebook_rectangular|].
  split; [exact two_residue_table_rectangular|].
  split; [exact scenario_codebook_self_nearest|].
  split; [exact two_residue_table_self_nearest|].
  split; [exact scenario_clamp|].
  exact (clamp_x0_fn_idempotent scenario_codebook [[0]; [1]]
           [[[0.9; 0.1; 0.2]]] [[[1; 0; 0]]]
           scenario_codebook_rectangular two_residue_table_rectangular
           scenario_codebook_self_nearest two_residue_table_self_nearest
           scenario_clamp).
Defined.

(** ** More on [make_repaint_info] *)

Lemma in_ids_filter_range i n ids :
  (i < n)%nat ->
  in_ids i (filter (fun z => (0 <=? z)%Z && (z <? Z.of_nat n)%Z) ids) =
  in_ids i ids.
Proof.
  intros Hi.
  destruct (in_ids i ids) eqn:E.
  - apply in_ids_spec. apply in_ids_spec in E. apply filter_In.
    split; [exact E|]. apply andb_true_iff. split.
    + apply Z.leb_le. lia.
    + apply Z.ltb_lt. lia.
  - apply in_ids_false. apply in_ids_false in E. intros H.
    apply filter_In in H. tauto.
Qed.

(** X12: context ids outside [range(seq_len)] count for nothing: negative
    ids do not address positions from the end and ids past the end are
    dropped, so [make_repaint_info] returns the same context and mask as
    with those ids filtered out. *)
Theorem make_repaint_info_ignores_out_of_range_ids
    (protoken_emb aatype_emb : list (list R))
    (aatypes protokens aatype_context_ids protoken_context_ids : list Z) :
  make_repaint_info protoken_emb aatype_emb aatypes protokens
                    aatype_context_ids protoken_context_ids =
  make_repaint_info protoken_emb aatype_emb aatypes protokens
    (filter (fun z => (0 <=? z)%Z && (z <? Z.of_nat (length protokens))%Z)
            aatype_context_ids)
    (filter (fun z => (0 <=? z)%Z && (z <? Z.of_nat (length protokens))%Z)
            protoken_context_ids).
Proof.
  unfold make_repaint_info, jnp_take. rewrite !length_map.
  destruct (Nat.eqb (length protokens) (length aatypes)); [|reflexivity].
  f_equal. f_equal. unfold repaint_mask_aa, repaint_mask_ptk. f_equal.
  - apply map_ext_in. intros i Hi. apply in_seq in Hi.
    rewrite in_ids_filter_range by lia. reflexivity.
  - apply map_ext_in. intros i Hi. apply in_seq in Hi.
    rewrite in_ids_filter_range by lia. reflexivity.
Qed.

Example make_repaint_info_negative_id :
  make_repaint_info [[1; 0]; [0; 1]] [[5]; [6]] [1; 0]%Z [0; 1]%Z [-1]%Z [2]%Z =
  Some ([[1; 0; 6]; [0; 1; 5]],
        [[false; false; false]; [false; false; false]]).
Proof. reflexivity. Qed.

Lemma jnp_take_in_range_Z emb idx :
  Forall (fun z => (0 <= z < Z.of_nat (length emb))%Z) idx ->
  jnp_take emb idx = map (fun z => nth (Z.to_nat z) emb []) idx.
Proof.
  intros H. unfold jnp_take. apply map_ext_in. intros z Hz.
  rewrite Forall_forall in H. specialize (H z Hz).
  destruct (Z.ltb_spec z 0) as [|_]; [lia|]. f_equal. lia.
Qed.

Lemma length_jnp_take emb idx : length (jnp_take emb idx) = length idx.
Proof. unfold jnp_take. apply length_map. Qed.

Lemma make_repaint_info_rows
    (protoken_emb aatype_emb : list (list R))
    (aatypes protokens aatype_context_ids protoken_context_ids : list Z) :
  length aatypes = length protokens ->
  Forall (fun z => (0 <= z < Z.of_nat (length protoken_emb))%Z) protokens ->
  Forall (fun z => (0 <= z < Z.of_nat (length aatype_emb))%Z) aatypes ->
  exists repaint_mask,
    make_repaint_info protoken_emb aatype_emb aatypes protokens
                      aatype_context_ids protoken_context_ids
      = Some (map (fun q => nth (Z.to_nat (fst q)) protoken_emb [] ++
                            nth (Z.to_nat (snd q)) aatype_emb [])
                  (combine protokens aatypes),
              repaint_mask) /\
    length repaint_mask = length protokens.
Proof.
  intros Hlen Hp Ha.
  destruct (make_repaint_info_mask protoken_emb aatype_emb aatypes protokens
              aatype_context_ids protoken_context_ids Hlen) as (ctx & Hmk).
  eexists. split.
  - rewrite Hmk. f_equal. f_equal.
    unfold make_repaint_info in Hmk. rewrite !length_jnp_take in Hmk.
    rewrite Hlen, Nat.eqb_refl in Hmk. injection Hmk as <- _.
    rewrite !jnp_take_in_range_Z by assumption.
    exact (concatenate_last_map
             (fun z => nth (Z.to_nat z) protoken_emb [])
             (fun z => nth (Z.to_nat z) aatype_emb []) protokens aatypes).
  - rewrite length_map, length_seq. reflexivity.
Qed.

(** X13: for two context arrays of one length with token ids inside the
    two tables, [make_repaint_info] returns a context with one row per
    residue, row i being the protoken_emb row of protokens[i] followed by
    the aatype_emb row of aatypes[i], and a mask with one row per residue. *)
Theorem make_repaint_info_context
    (protoken_emb aatype_emb : list (list R))
    (aatypes protokens aatype_context_ids protoken_context_ids : list Z) :
  length aatypes = length protokens ->
  Forall (fun z => (0 <= z < Z.of_nat (length protoken_emb))%Z) protokens ->
  Forall (fun z => (0 <= z < Z.of_nat (length aatype_emb))%Z) aatypes ->
  exists repaint_mask,
    make_repaint_info protoken_emb aatype_emb aatypes protokens
                      aatype_context_ids protoken_context_ids
      = Some (map (fun q => nth (Z.to_nat (fst q)) protoken_emb [] ++
                            nth (Z.to_nat (snd q)) aatype_emb [])
                  (combine protokens aatypes),
              repaint_mask) /\
    length repaint_mask = length protokens.
Proof.
  exact (make_repaint_info_rows protoken_emb aatype_emb aatypes protokens
           aatype_context_ids protoken_context_ids).
Qed.

Lemma make_repaint_info_context_witness :
  length [1; 0]%Z = length [0; 1]%Z /\
  Forall (fun z => (0 <= z < Z.of_nat (length [[1; 0]; [0; 1]]%R))%Z) [0; 1]%Z /\
  Forall (fun z => (0 <= z < Z.of_nat (length [[5]; [6]]%R))%Z) [1; 0]%Z /\
  exists repaint_mask,
    make_repaint_info [[1; 0]; [0; 1]] [[5]; [6]] [1; 0]%Z [0; 1]%Z [0]%Z [1]%Z
      = Some (map (fun q => nth (Z.to_nat (fst q)) [[1; 0]; [0; 1]] [] ++
                            nth (Z.to_nat (snd q)) [[5]; [6]] [])
                  (combine [0; 1]%Z [1; 0]%Z),
              repaint_mask) /\
    length repaint_mask = length [0; 1]%Z.
Proof.
  assert (Hp : Forall (fun z =>
                (0 <= z < Z.of_nat (length [[1; 0]; [0; 1]]%R))%Z) [0; 1]%Z)
    by (repeat constructor; simpl; lia).
  assert (Ha : Forall (fun z =>
                (0 <= z < Z.of_nat (length [[5]; [6]]%R))%Z) [1; 0]%Z)
    by (repeat constructor; simpl; lia).
  split; [reflexivity|]. split; [exact Hp|]. split; [exact Ha|].
  exact (make_repaint_info_context [[1; 0]; [0; 1]] [[5]; [6]]
           [1; 0]%Z [0; 1]%Z [0]%Z [1]%Z eq_refl Hp Ha).
Defined.

(** ** From token ids to embeddings and back *)

(** In a table without repeated rows, a row that is nearest to itself
    only projects to its own index. *)
Lemma nearest_self dist emb k :
  NoDup emb -> (k < length emb)%nat ->
  (forall j, (j < length emb)%nat ->
     exists d0 dj,
       dist (nth k emb []) (nth k emb []) = Some d0 /\
       dist (nth k emb []) (nth j emb []) = Some dj /\
       d0 <= dj /\ (dj = d0 -> nth j emb [] = nth k emb [])) ->
  nearest dist emb (nth k emb []) = Some k.
Proof.
  intros Hnd Hlt Hself.
  assert (Hne : emb <> []) by (intros ->; simpl in Hlt; lia).
  destruct (nearest_returns_nearest_entry dist emb (nth k emb []) Hne)
    as (k' & Hk' & Hlt' & dk' & Hdk' & Hmin').
  { apply Forall_forall. intros e He. apply In_nth with (d := []) in He.
    destruct He as (j & Hj & <-).
    destruct (Hself j Hj) as (d0 & dj & _ & E & _). eauto. }
  rewrite Hk'. f_equal.
  destruct (Hself k' Hlt') as (d0 & d1 & Hd0 & Hd1 & Hle & Heq).
  assert (d1 = dk') by congruence. subst d1.
  destruct (Hmin' k Hlt) as (d2 & Hd2 & Hle2 & _).
  assert (d2 = d0) by congruence. subst d2.
  apply (proj1 (NoDup_nth emb []) Hnd); [exact Hlt' | exact Hlt |].
  apply Heq. lra.
Qed.

Lemma mapM_map_Some {A B C : Type} (f : B -> option C) (h : A -> B)
    (g : A -> C) l :
  (forall a, In a l -> f (h a) = Some (g a)) ->
  mapM f (map h l) = Some (map g l).
Proof.
  induction l as [|a l IH]; intros H; [reflexivity|].
  cbn [map mapM]. rewrite (H a (or_introl eq_refl)). cbn [bind].
  rewrite IH by (intros b Hb; apply H; right; exact Hb). reflexivity.
Qed.

Lemma map_fst_combine_same {A B C : Type} (g : A -> C) (l1 : list A)
    (l2 : list B) :
  length l1 = length l2 ->
  map (fun q => g (fst q)) (combine l1 l2) = map g l1.
Proof.
  revert l2. induction l1 as [|a l1 IH]; intros [|b l2] H; try discriminate;
    [reflexivity|].
  simpl in H. simpl. rewrite IH by lia. reflexivity.
Qed.

Lemma map_snd_combine_same {A B C : Type} (g : B -> C) (l1 : list A)
    (l2 : list B) :
  length l1 = length l2 ->
  map (fun q => g (snd q)) (combine l1 l2) = map g l2.
Proof.
  revert l2. induction l1 as [|a l1 IH]; intros [|b l2] H; try discriminate;
    [reflexivity|].
  simpl in H. simpl. rewrite IH by lia. reflexivity.
Qed.

(** X14: over rectangular, [self_nearest] tables without repeated rows,
    the RePaint context built from in-range token ids projects back to
    exactly those ids: [index_from_embedding] inverts the embedding lookup
    of [make_repaint_info]. *)
Theorem repaint_context_round_trip
    (protoken_emb aatype_emb : list (list R))
    (aatypes protokens aatype_context_ids protoken_context_ids : list Z) :
  rectangular protoken_emb -> rectangular aatype_emb ->
  NoDup protoken_emb -> NoDup aatype_emb ->
  self_nearest protoken_emb_distance_fn protoken_emb ->
  self_nearest aatype_emb_distance_fn aatype_emb ->
  length aatypes = length protokens ->
  Forall (fun z => (0 <= z < Z.of_nat (length protoken_emb))%Z) protokens ->
  Forall (fun z => (0 <= z < Z.of_nat (length aatype_emb))%Z) aatypes ->
  exists repaint_context repaint_mask,
    make_repaint_info protoken_emb aatype_emb aatypes protokens
                      aatype_context_ids protoken_context_ids
      = Some (repaint_context, repaint_mask) /\
    index_from_embedding protoken_emb aatype_emb [repaint_context] =
    Some {| protoken_indexes := [map Z.to_nat protokens];
            aatype_indexes := Some [map Z.to_nat aatypes] |}.
Proof.
  intros Hpr Har Hpnd Hand Hsp Hsa Hlen Hp Ha.
  destruct (make_repaint_info_rows protoken_emb aatype_emb aatypes
              protokens aatype_context_ids protoken_context_ids Hlen Hp Ha)
    as (mask & Hmk & _).
  eexists. exists mask. split; [exact Hmk|].
  apply index_from_embedding_Some. eexists. eexists.
  rewrite Forall_forall in Hp, Ha.
  split; [|split; [|reflexivity]]; cbn [mapM].
  - rewrite (mapM_map_Some _ _ (fun q => Z.to_nat (fst q))).
    + cbn [bind]. rewrite map_fst_combine_same by congruence. reflexivity.
    + intros [zp za] Hin. cbn [fst snd].
      pose proof (Hp zp (in_combine_l _ _ _ _ Hin)) as Hzp.
      assert (Hk : (Z.to_nat zp < length protoken_emb)%nat) by lia.
      rewrite firstn_length_app by (apply rectangular_row_length; assumption).
      apply nearest_self; [exact Hpnd | exact Hk |].
      intros j Hj. apply self_nearest_rows; try assumption.
      intros i Hi. apply protoken_rows_total; assumption.
  - rewrite (mapM_map_Some _ _ (fun q => Z.to_nat (snd q))).
    + cbn [bind]. rewrite map_snd_combine_same by congruence. reflexivity.
    + intros [zp za] Hin. cbn [fst snd].
      pose proof (Hp zp (in_combine_l _ _ _ _ Hin)) as Hzp.
      pose proof (Ha za (in_combine_r _ _ _ _ Hin)) as Hza.
      assert (Hk : (Z.to_nat zp < length protoken_emb)%nat) by lia.
      assert (Hk' : (Z.to_nat za < length aatype_emb)%nat) by lia.
      rewrite skipn_length_app by (apply rectangular_row_length; assumption).
      apply nearest_self; [exact Hand | exact Hk' |].
      intros j Hj. apply self_nearest_rows; try assumption.
      intros i Hi. apply aatype_rows_total; assumption.
Qed.

Lemma repaint_context_round_trip_witness :
  rectangular scenario_codebook /\ rectangular [[0]; [1]] /\
  NoDup scenario_codebook /\ NoDup [[0]; [1]] /\
  self_nearest protoken_emb_distance_fn scenario_codebook /\
  self_nearest aatype_emb_distance_fn [[0]; [1]] /\
  length [0; 1]%Z = length [1; 0]%Z /\
  Forall (fun z => (0 <= z < Z.of_nat (length scenario_codebook))%Z) [1; 0]%Z /\
  Forall (fun z => (0 <= z < Z.of_nat (length [[0]; [1]]%R))%Z) [0; 1]%Z /\
  exists repaint_context repaint_mask,
    make_repaint_info scenario_codebook [[0]; [1]] [0; 1]%Z [1; 0]%Z [0]%Z []
      = Some (repaint_context, repaint_mask) /\
    index_from_embedding scenario_codebook [[0]; [1]] [repaint_context] =
    Some {| protoken_indexes := [map Z.to_nat [1; 0]%Z];
            aatype_indexes := Some [map Z.to_nat [0; 1]%Z] |}.
Proof.
  assert (Hpnd : NoDup scenario_codebook).
  { constructor; [|constructor; [simpl; tauto | constructor]].
    simpl. intros [H | []]. injection H as H. lra. }
  assert (Hand : NoDup [[0]; [1]]).
  { constructor; [|constructor; [simpl; tauto | constructor]].
    simpl. intros [H | []]. injection H as H. lra. }
  assert (Hp : Forall (fun z =>
                 (0 <= z < Z.of_nat (length scenario_codebook))%Z) [1; 0]%Z)
    by (repeat constructor; simpl; lia).
  assert (Ha : Forall (fun z =>
                 (0 <= z < Z.of_nat (length [[0]; [1]]%R))%Z) [0; 1]%Z)
    by (repeat constructor; simpl; lia).
  split; [exact scenario_codebook_rectangular|].
  split; [exact two_residue_table_rectangular|].
  split; [exact Hpnd|]. split; [exact Hand|].
  split; [exact scenario_codebook_self_nearest|].
  split; [exact two_residue_table_self_nearest|].
  split; [reflexivity|]. split; [exact Hp|]. split; [exact Ha|].
  exact (repaint_context_round_trip scenario_codebook [[0]; [1]]
           [0; 1]%Z [1; 0]%Z [0]%Z []
           scenario_codebook_rectangular two_residue_table_rectangular
           Hpnd Hand scenario_codebook_self_nearest
           two_residue_table_self_nearest eq_refl Hp Ha).
Defined.

(** ** Padding and tiling *)

Example reshape_tile_pad_x_too_long :
  reshape_tile_pad_x 2 false (repeat true 513) = None.
Proof. reflexivity. Qed.

Lemma Some_eq {A : Type} (a b : A) : Some a = Some b -> a = b.
Proof. congruence. Qed.

Lemma reshape_first_repeat {T : Type} (a : T) n k :
  reshape_first n k (repeat a (k * n)) = repeat (repeat a k) n.
Proof.
  induction n as [|n IH]; [reflexivity|].
  replace (k * S n)%nat with (k + k * n)%nat by lia.
  rewrite repeat_app. cbn [reshape_first repeat].
  rewrite firstn_length_app, skipn_length_app by apply repeat_length.
  rewrite IH. reflexivity.
Qed.

Lemma reshape_tile_pad_x_eq {T : Type} NDEVICES (zero : T) x :
  (length x <= NRES)%nat ->
  reshape_tile_pad_x NDEVICES zero x =
  Some (repeat (repeat (x ++ repeat zero (NRES - length x))
                       NSAMPLE_PER_DEVICE) NDEVICES).
Proof.
  intros H. unfold reshape_tile_pad_x, np_pad_first.
  destruct (Nat.leb_spec (length x) NRES) as [_|]; [|lia].
  cbn [bind]. unfold BATCH_SIZE. rewrite reshape_first_repeat. reflexivity.
Qed.

(** X15: [reshape_tile_pad_x] raises exactly on inputs longer than NRES;
    otherwise it returns NDEVICES x NSAMPLE_PER_DEVICE copies of the input
    padded to NRES entries: each copy starts with the input and continues
    with zero entries only. *)
Theorem reshape_tile_pad_x_copies {T : Type} (NDEVICES : nat) (zero : T)
    (x : list T) :
  (reshape_tile_pad_x NDEVICES zero x = None <-> (NRES < length x)%nat) /\
  forall r, reshape_tile_pad_x NDEVICES zero x = Some r ->
    length r = NDEVICES /\
    forall dev, In dev r ->
      length dev = NSAMPLE_PER_DEVICE /\
      forall sample, In sample dev ->
        length sample = NRES /\
        firstn (length x) sample = x /\
        skipn (length x) sample = repeat zero (NRES - length x).
Proof.
  destruct (Nat.le_gt_cases (length x) NRES) as [Hle | Hgt].
  - rewrite (reshape_tile_pad_x_eq NDEVICES zero x Hle).
    split; [split; [discriminate | lia]|].
    intros r E. apply Some_eq in E. subst r. split; [apply repeat_length|].
    intros dev Hdev. apply repeat_spec in Hdev. subst dev.
    split; [apply repeat_length|].
    intros sample Hs. apply repeat_spec in Hs. subst sample.
    rewrite length_app, repeat_length.
    rewrite firstn_length_app, skipn_length_app by reflexivity.
    repeat split. lia.
  - assert (E : reshape_tile_pad_x NDEVICES zero x = None).
    { unfold reshape_tile_pad_x, np_pad_first.
      destruct (Nat.leb_spec (length x) NRES) as [|_]; [lia | reflexivity]. }
    rewrite E. split; [tauto|]. intros r H. discriminate H.
Qed.

Lemma astype_float32_app m1 m2 :
  astype_float32 (m1 ++ m2) = astype_float32 m1 ++ astype_float32 m2.
Proof. unfold astype_float32. apply map_app. Qed.

Lemma astype_float32_zero_rows w k :
  astype_float32 (repeat (repeat false w) k) = repeat (repeat 0 w) k.
Proof. unfold astype_float32. rewrite !map_repeat. reflexivity. Qed.

Lemma lookup2_app_l {A : Type} (a b : list (list A)) i j :
  (i < length a)%nat -> lookup2 (a ++ b) i j = lookup2 a i j.
Proof. intros H. unfold lookup2. rewrite nth_error_app1 by exact H. reflexivity. Qed.

Lemma lookup2_padding {A : Type} (a : list (list A)) (z : A) w k i j :
  (length a <= i)%nat ->
  lookup2 (a ++ repeat (repeat z w) k) i j = Some z \/
  lookup2 (a ++ repeat (repeat z w) k) i j = None.
Proof.
  intros H. unfold lookup2. rewrite nth_error_app2 by exact H.
  destruct (nth_error (repeat (repeat z w) k) (i - length a)) as [row|] eqn:E;
    [|right; reflexivity].
  apply nth_error_In, repeat_spec in E. subst row. cbn [bind].
  destruct (nth_error (repeat z w) j) as [c|] eqn:Ec; [|right; reflexivity].
  apply nth_error_In, repeat_spec in Ec. subst c. left. reflexivity.
Qed.

Lemma make_repaint_info_Some_length pe ae aatypes protokens aa ptk r :
  make_repaint_info pe ae aatypes protokens aa ptk = Some r ->
  length aatypes = length protokens.
Proof.
  unfold make_repaint_info. rewrite !length_jnp_take.
  destruct (Nat.eqb_spec (length protokens) (length aatypes));
    [congruence | discriminate].
Qed.

(** X16: with the mask of [make_repaint_info] cast to floats, padded to
    NRES and tiled by [reshape_tile_pad_x], the blending step applied to any
    sample leaves every padding position (at or past the sequence length)
    unchanged, and every residue position that is in neither context id
    list as well. *)
Theorem repaint_never_touches_padding
    (protoken_emb aatype_emb : list (list R)) (NDEVICES : nat)
    (aatypes protokens aatype_context_ids protoken_context_ids : list Z)
    (repaint_context : list (list R)) (repaint_mask : list (list bool))
    (tiled : list (list (list (list R)))) (d s : nat)
    (repaint_mask_ repaint_context_t x : list (list R)) :
  make_repaint_info protoken_emb aatype_emb aatypes protokens
                    aatype_context_ids protoken_context_ids
    = Some (repaint_context, repaint_mask) ->
  (0 < length protokens)%nat ->
  reshape_tile_pad_x_2d NDEVICES (astype_float32 repaint_mask) = Some tiled ->
  lookup2 tiled d s = Some repaint_mask_ ->
  length repaint_context_t = NRES -> length x = NRES ->
  Forall (fun r => length r = DIM_EMB protoken_emb aatype_emb)
         repaint_context_t ->
  Forall (fun r => length r = DIM_EMB protoken_emb aatype_emb) x ->
  exists out,
    repaint_blend repaint_mask_ repaint_context_t x = Some out /\
    forall i,
      (length protokens <= i)%nat \/
      (~ In (Z.of_nat i) aatype_context_ids /\
       ~ In (Z.of_nat i) protoken_context_ids) ->
      nth_error out i = nth_error x i.
Proof.
  intros Hmk Hpos Htile Hsample Hct Hx Hct_rows Hx_rows.
  pose proof (make_repaint_info_Some_length _ _ _ _ _ _ _ Hmk) as Hlen.
  destruct (make_repaint_info_mask protoken_emb aatype_emb aatypes protokens
              aatype_context_ids protoken_context_ids Hlen) as (ctx & Hmk').
  rewrite Hmk in Hmk'. apply Some_eq in Hmk'.
  assert (Hmask : repaint_mask =
    map (fun i => repeat (in_ids i protoken_context_ids)
                         (DIM_EMB_PTK protoken_emb) ++
                  repeat (in_ids i aatype_context_ids)
                         (DIM_EMB_AA aatype_emb))
        (seq 0 (length protokens))) by congruence.
  clear Hmk' ctx.
  set (p := DIM_EMB_PTK protoken_emb) in *.
  set (q := DIM_EMB_AA aatype_emb) in *.
  set (n := length protokens) in *.
  assert (Hd : DIM_EMB protoken_emb aatype_emb = (p + q)%nat) by reflexivity.
  rewrite Hd in *.
  assert (Hmask_len : length repaint_mask = n)
    by (rewrite Hmask, length_map, length_seq; reflexivity).
  assert (Hmask_rows : Forall (fun r => length r = (p + q)%nat) repaint_mask).
  { rewrite Hmask. apply Forall_forall. intros r Hr. apply in_map_iff in Hr.
    destruct Hr as (i & <- & _). rewrite length_app, !repeat_length.
    reflexivity. }
  assert (Hwidth : shape_last (astype_float32 repaint_mask) = (p + q)%nat).
  { destruct repaint_mask as [|r0 rest]; [simpl in Hmask_len; lia|].
    inversion Hmask_rows. subst. cbn [astype_float32 map shape_last].
    rewrite length_map. assumption. }
  unfold reshape_tile_pad_x_2d in Htile. rewrite Hwidth in Htile.
  assert (Hfloat_len : length (astype_float32 repaint_mask) = n)
    by (unfold astype_float32; rewrite length_map; exact Hmask_len).
  assert (Hle : (n <= NRES)%nat).
  { destruct (Nat.le_gt_cases n NRES) as [H|H]; [exact H|].
    unfold reshape_tile_pad_x, np_pad_first in Htile.
    rewrite Hfloat_len in Htile.
    destruct (Nat.leb_spec n NRES); [lia | discriminate Htile]. }
  rewrite reshape_tile_pad_x_eq in Htile by (rewrite Hfloat_len; exact Hle).
  apply Some_eq in Htile. subst tiled.
  assert (Hm : repaint_mask_ =
    astype_float32 (repaint_mask ++ repeat (repeat false (p + q)) (NRES - n))).
  { unfold lookup2 in Hsample.
    destruct (nth_error (repeat _ NDEVICES) d) as [dev|] eqn:Ed;
      [|discriminate]. cbn [bind] in Hsample.
    apply nth_error_In, repeat_spec in Ed. subst dev.
    apply nth_error_In, repeat_spec in Hsample.
    rewrite Hsample, astype_float32_app, astype_float32_zero_rows, Hfloat_len.
    reflexivity. }
  set (bmask := repaint_mask ++ repeat (repeat false (p + q)) (NRES - n)) in *.
  assert (Hb_len : length bmask = NRES)
    by (unfold bmask; rewrite length_app, repeat_length; lia).
  assert (Hb_rows : Forall (fun r => length r = (p + q)%nat) bmask).
  { unfold bmask. apply Forall_app. split; [exact Hmask_rows|].
    apply Forall_forall. intros r Hr. apply repeat_spec in Hr. subst r.
    apply repeat_length. }
  destruct (repaint_blend_spec (p + q) bmask repaint_context_t x)
    as (out & Hout & Hout_len & _ & Hentries); try congruence.
  exists out. split; [rewrite Hm; exact Hout|].
  intros i Hi.
  destruct (Nat.lt_ge_cases i NRES) as [Hin | Hpast].
  - apply rows_equal_by_entries; [lia | lia |].
    intros j. rewrite Hentries.
    destruct (Nat.lt_ge_cases i n) as [Hres | Hpad].
    + destruct Hi as [Hi | [Haa Hptk]]; [lia|].
      apply in_ids_false in Haa, Hptk.
      unfold bmask. rewrite lookup2_app_l by lia.
      rewrite Hmask, two_block_mask_entry, Haa, Hptk.
      destruct (i <? n)%nat, (j <? p)%nat, (j <? p + q)%nat; reflexivity.
    + destruct (lookup2_padding repaint_mask false (p + q) (NRES - n) i j)
        as [E | E]; [lia | |]; unfold bmask; rewrite E; reflexivity.
  - transitivity (@None (list R));
      [|symmetry]; apply nth_error_None; lia.
Qed.

Lemma repaint_never_touches_padding_witness :
  make_repaint_info [[1; 0]] [[5]] [0; 0]%Z [0; 0]%Z [0]%Z [0]%Z =
    Some ([[1; 0; 5]; [1; 0; 5]],
          [[true; true; true]; [false; false; false]]) /\
  (0 < length [0; 0]%Z)%nat /\
  reshape_tile_pad_x_2d 1
    (astype_float32 [[true; true; true]; [false; false; false]]) =
    Some (repeat (repeat ([[1; 1; 1]; [0; 0; 0]] ++
                          repeat (repeat 0 3) (NRES - 2))
                         NSAMPLE_PER_DEVICE) 1) /\
  lookup2 (repeat (repeat ([[1; 1; 1]; [0; 0; 0]] ++
                           repeat (repeat 0 3) (NRES - 2))
                          NSAMPLE_PER_DEVICE) 1) 0 0 =
    Some ([[1; 1; 1]; [0; 0; 0]] ++ repeat (repeat 0 3) (NRES - 2)) /\
  exists out,
    repaint_blend ([[1; 1; 1]; [0; 0; 0]] ++ repeat (repeat 0 3) (NRES - 2))
                  (repeat [1; 2; 3] NRES) (repeat [7; 8; 9] NRES) = Some out /\
    forall i,
      (length [0; 0]%Z <= i)%nat \/
      (~ In (Z.of_nat i) [0]%Z /\ ~ In (Z.of_nat i) [0]%Z) ->
      nth_error out i = nth_error (repeat [7; 8; 9] NRES) i.
Proof.
  assert (Hmk : make_repaint_info [[1; 0]] [[5]] [0; 0]%Z [0; 0]%Z [0]%Z [0]%Z =
    Some ([[1; 0; 5]; [1; 0; 5]],
          [[true; true; true]; [false; false; false]])) by reflexivity.
  assert (Htile : reshape_tile_pad_x_2d 1
    (astype_float32 [[true; true; true]; [false; false; false]]) =
    Some (repeat (repeat ([[1; 1; 1]; [0; 0; 0]] ++
                          repeat (repeat 0 3) (NRES - 2))
                         NSAMPLE_PER_DEVICE) 1)).
  { unfold reshape_tile_pad_x_2d. apply reshape_tile_pad_x_eq.
    unfold NRES. simpl. lia. }
  assert (Hs : lookup2 (repeat (repeat ([[1; 1; 1]; [0; 0; 0]] ++
                           repeat (repeat 0 3) (NRES - 2))
                          NSAMPLE_PER_DEVICE) 1) 0 0 =
    Some ([[1; 1; 1]; [0; 0; 0]] ++ repeat (repeat 0 3) (NRES - 2)))
    by reflexivity.
  assert (Hrows : forall v : list R, length v = DIM_EMB [[1; 0]] [[5]] ->
            Forall (fun r => length r = DIM_EMB [[1; 0]] [[5]])
                   (repeat v NRES)).
  { intros v Hv. apply Forall_forall. intros r Hr.
    apply repeat_spec in Hr. subst r. exact Hv. }
  split; [exact Hmk|]. split; [simpl; lia|]. split; [exact Htile|].
  split; [exact Hs|].
  refine (repaint_never_touches_padding [[1; 0]] [[5]] 1
            [0; 0]%Z [0; 0]%Z [0]%Z [0]%Z _ _ _ 0%nat 0%nat _
            (repeat [1; 2; 3] NRES) (repeat [7; 8; 9] NRES)
            Hmk _ Htile Hs _ _ _ _).
  - simpl. lia.
  - apply repeat_length.
  - apply repeat_length.
  - apply Hrows. reflexivity.
  - apply Hrows. reflexivity.
Defined.

(** ** [str.find] and [parse_annotation] *)

Example str_find_samples :
  str_find "MKVLAAGKV" "KV" = 1%Z /\ str_find "MKV" "" = 0%Z /\
  str_find "" "" = 0%Z /\ str_find "MKV" "VK" = (-1)%Z /\
  str_find "MKV" "MKVL" = (-1)%Z.
Proof. repeat split; reflexivity. Qed.

Example parse_annotation_sample :
  parse_annotation [("H-CDR3"%string, "AG"%string); ("FWR"%string, "MK"%string)]
                   [12; 11; 19; 10; 0; 0; 7; 11; 19]%Z =
  Some [("H-CDR3"%string, [5; 6]%Z); ("FWR"%string, [0; 1]%Z)].
Proof. reflexivity. Qed.

Example parse_annotation_first_occurrence :
  parse_annotation [("a"%string, "KV"%string)]
                   [12; 11; 19; 10; 0; 0; 7; 11; 19]%Z =
  Some [("a"%string, [1; 2]%Z)].
Proof. reflexivity. Qed.

Example parse_annotation_missing_segment :
  parse_annotation [("a"%string, "WW"%string)] [12; 11; 19]%Z = None.
Proof. reflexivity. Qed.

Lemma prefix_firstn sub s :
  String.prefix sub s = true <->
  firstn (length (list_ascii_of_string sub)) (list_ascii_of_string s) =
  list_ascii_of_string sub.
Proof.
  revert sub. induction s as [|b s IH]; intros [|a sub]; simpl.
  - tauto.
  - split; discriminate.
  - tauto.
  - destruct (ascii_dec a b) as [->|Hne].
    + rewrite IH. split; [intros ->; reflexivity | intros E; congruence].
    + split; [discriminate | intros E; congruence].
Qed.

(** What [str.find] returns: -1 when the pattern occurs nowhere, otherwise
    the lowest position of an occurrence, which lies inside the string. *)
Lemma str_find_spec s sub :
  let ls := list_ascii_of_string s in
  let lsub := list_ascii_of_string sub in
  (str_find s sub = (-1)%Z /\
   forall n, firstn (length lsub) (skipn n ls) <> lsub) \/
  ((0 <= str_find s sub)%Z /\
   (Z.to_nat (str_find s sub) + length lsub <= length ls)%nat /\
   firstn (length lsub) (skipn (Z.to_nat (str_find s sub)) ls) = lsub /\
   forall m, (m < Z.to_nat (str_find s sub))%nat ->
             firstn (length lsub) (skipn m ls) <> lsub).
Proof.
  cbn zeta. induction s as [|c s IH].
  - cbn [str_find]. destruct (String.prefix sub "") eqn:E.
    + right. apply prefix_firstn in E. cbn [skipn Z.to_nat].
      split; [lia|]. split; [|split; [exact E | intros m Hm; lia]].
      rewrite <- E at 1. rewrite length_firstn. simpl. lia.
    + left. split; [reflexivity|]. intros n H.
      assert (E' : String.prefix sub "" = true).
      { apply prefix_firstn. simpl in *. rewrite skipn_nil in H. exact H. }
      congruence.
  - cbn [str_find]. destruct (String.prefix sub (String c s)) eqn:E.
    + right. apply prefix_firstn in E. cbn [skipn Z.to_nat].
      split; [lia|]. split; [|split; [exact E | intros m Hm; lia]].
      rewrite <- E at 1. rewrite length_firstn. lia.
    + assert (Hno0 : firstn (length (list_ascii_of_string sub))
                       (list_ascii_of_string (String c s)) <>
                     list_ascii_of_string sub).
      { intros H. apply prefix_firstn in H. congruence. }
      destruct IH as [[Er Hnone] | (Hr & Hin & Hocc & Hlow)].
      * left. rewrite Er. cbn. split; [reflexivity|].
        intros [|n]; [exact Hno0 | apply Hnone].
      * right. destruct (Z.ltb_spec (str_find s sub) 0) as [|_]; [lia|].
        replace (Z.to_nat (str_find s sub + 1))
          with (S (Z.to_nat (str_find s sub))) by lia.
        cbn [list_ascii_of_string skipn length].
        split; [lia|]. split; [lia|]. split; [exact Hocc|].
        intros [|m] Hm; [exact Hno0 | apply Hlow; lia].
Qed.

Lemma mapM_Forall2 {A B : Type} (f : A -> option B) l r :
  mapM f l = Some r -> Forall2 (fun a b => f a = Some b) l r.
Proof.
  revert r. induction l as [|a l IH]; intros r H.
  - inversion H. constructor.
  - apply mapM_cons_Some in H. destruct H as (b & bs & Hb & Hbs & ->).
    constructor; auto.
Qed.

Lemma mapM_skipn {A B : Type} (f : A -> option B) l r n :
  mapM f l = Some r -> mapM f (skipn n l) = Some (skipn n r).
Proof.
  revert l r. induction n as [|n IH]; intros l r H; [exact H|].
  destruct l as [|a l].
  - inversion H. reflexivity.
  - apply mapM_cons_Some in H. destruct H as (b & bs & _ & Hbs & ->).
    cbn [skipn]. apply IH. exact Hbs.
Qed.

Lemma mapM_firstn {A B : Type} (f : A -> option B) l r n :
  mapM f l = Some r -> mapM f (firstn n l) = Some (firstn n r).
Proof.
  revert l r. induction n as [|n IH]; intros l r H; [reflexivity|].
  destruct l as [|a l].
  - inversion H. reflexivity.
  - apply mapM_cons_Some in H. destruct H as (b & bs & Hb & Hbs & ->).
    cbn [firstn mapM]. rewrite Hb. cbn [bind]. rewrite (IH l bs Hbs).
    reflexivity.
Qed.

Lemma string_length_list s :
  String.length s = length (list_ascii_of_string s).
Proof. induction s as [|c s IH]; simpl; congruence. Qed.

Lemma aatype_index_to_resname_Some idx v :
  aatype_index_to_resname idx = Some v <->
  mapM (py_getitem restypes) idx = Some (list_ascii_of_string v).
Proof.
  unfold aatype_index_to_resname.
  destruct (mapM (py_getitem restypes) idx) as [cs|]; cbn [bind].
  - split; intros E.
    + injection E as <-. rewrite list_ascii_of_string_of_list_ascii.
      reflexivity.
    + injection E as ->. rewrite string_of_list_ascii_of_string.
      reflexivity.
  - split; discriminate.
Qed.

Lemma seq_nth_firstn {A : Type} (l : list A) d m :
  (m <= length l)%nat ->
  map (fun i => nth i l d) (seq 0 m) = firstn m l.
Proof.
  revert l. induction m as [|m IH]; intros l H; [reflexivity|].
  destruct l as [|a l]; [simpl in H; lia|].
  cbn [seq map firstn nth]. f_equal.
  rewrite <- seq_shift, map_map. apply IH. simpl in H. lia.
Qed.

Lemma nth_skipn_add {A : Type} (l : list A) d n i :
  nth i (skipn n l) d = nth (n + i) l d.
Proof.
  revert l. induction n as [|n IH]; intros l; [reflexivity|].
  destruct l as [|a l]; [destruct i; reflexivity|]. apply IH.
Qed.

(** The entries of an array at the ids [np.arange(n, n + m)]. *)
Lemma np_arange_sublist {A : Type} (l : list A) d n m :
  (n + m <= length l)%nat ->
  map (fun i => nth (Z.to_nat i) l d)
      (np_arange (Z.of_nat n) (Z.of_nat n + Z.of_nat m)) =
  firstn m (skipn n l).
Proof.
  intros H. unfold np_arange.
  replace (Z.to_nat (Z.of_nat n + Z.of_nat m - Z.of_nat n)) with m by lia.
  rewrite map_map. rewrite <- (seq_nth_firstn (skipn n l) d m)
    by (rewrite length_skipn; lia).
  apply map_ext. intros i. rewrite nth_skipn_add. f_equal. lia.
Qed.

(** X17: when [parse_annotation] returns, its dictionary has the keys of
    the annotation dictionary in the same order, and each value is the run
    of consecutive residue ids of the first occurrence of the annotated
    segment: the ids lie inside the sequence, the residues at these ids
    spell the segment, and the segment occurs at no earlier position. *)
Theorem parse_annotation_segments
    (annotation_dict : dict string) (aatype_indexes : list Z)
    (annotation_resid_dict : dict (list Z)) :
  parse_annotation annotation_dict aatype_indexes
    = Some annotation_resid_dict ->
  Forall2
    (fun kv kr =>
       fst kr = fst kv /\
       exists start : nat,
         snd kr = np_arange (Z.of_nat start)
                    (Z.of_nat start + Z.of_nat (String.length (snd kv))) /\
         (start + String.length (snd kv) <= length aatype_indexes)%nat /\
         aatype_index_to_resname
           (map (fun i => nth (Z.to_nat i) aatype_indexes 0%Z) (snd kr))
           = Some (snd kv) /\
         forall m, (m < start)%nat ->
           aatype_index_to_resname
             (firstn (String.length (snd kv)) (skipn m aatype_indexes))
             <> Some (snd kv))
    annotation_dict annotation_resid_dict.
Proof.
  unfold parse_annotation. intros H. apply bind_Some in H.
  destruct H as (seq_str & Hseq & H).
  pose proof (proj1 (aatype_index_to_resname_Some _ _) Hseq) as Hcs.
  pose proof (mapM_length _ _ _ Hcs) as Hlen.
  apply mapM_Forall2 in H. eapply Forall2_impl; [|exact H].
  intros [k v] [k' ids]. cbn [fst snd]. intros E.
  destruct (str_find_spec seq_str v) as [[Er _] | (Hr & Hin & Hocc & Hlow)].
  { rewrite Er in E. discriminate E. }
  destruct (Z.eqb_spec (str_find seq_str v) (-1)) as [|_]; [lia|].
  injection E as <- <-. split; [reflexivity|].
  exists (Z.to_nat (str_find seq_str v)).
  rewrite Z2Nat.id by exact Hr.
  rewrite <- string_length_list in Hin, Hocc, Hlow.
  split; [reflexivity|]. split; [lia|]. split.
  - rewrite <- (Z2Nat.id (str_find seq_str v)) at 1 2 by exact Hr.
    rewrite np_arange_sublist by lia.
    apply aatype_index_to_resname_Some.
    rewrite (mapM_firstn _ _ _ _ (mapM_skipn _ _ _ _ Hcs)). f_equal.
    exact Hocc.
  - intros m Hm Habs. apply aatype_index_to_resname_Some in Habs.
    rewrite (mapM_firstn _ _ _ _ (mapM_skipn _ _ _ _ Hcs)) in Habs.
    injection Habs as Habs. exact (Hlow m Hm Habs).
Qed.

Lemma parse_annotation_segments_witness :
  parse_annotation [("a"%string, "KV"%string)]
                   [12; 11; 19; 10; 0; 0; 7; 11; 19]%Z =
    Some [("a"%string, [1; 2]%Z)] /\
  Forall2
    (fun kv kr =>
       fst kr = fst kv /\
       exists start : nat,
         snd kr = np_arange (Z.of_nat start)
                    (Z.of_nat start + Z.of_nat (String.length (snd kv))) /\
         (start + String.length (snd kv) <=
          length [12; 11; 19; 10; 0; 0; 7; 11; 19]%Z)%nat /\
         aatype_index_to_resname
           (map (fun i => nth (Z.to_nat i)
                              [12; 11; 19; 10; 0; 0; 7; 11; 19]%Z 0%Z)
                (snd kr))
           = Some (snd kv) /\
         forall m, (m < start)%nat ->
           aatype_index_to_resname
             (firstn (String.length (snd kv))
                     (skipn m [12; 11; 19; 10; 0; 0; 7; 11; 19]%Z))
             <> Some (snd kv))
    [("a"%string, "KV"%string)] [("a"%string, [1; 2]%Z)].
Proof.
  split; [reflexivity|].
  apply (parse_annotation_segments [("a"%string, "KV"%string)]
           [12; 11; 19; 10; 0; 0; 7; 11; 19]%Z [("a"%string, [1; 2]%Z)]).
  reflexivity.
Defined.

(** ** The sampling loop *)

Lemma in_default_repaint_time_steps t :
  existsb (Z.eqb t) default_repaint_time_steps = true <->
  (0 <= t < num_diffusion_timesteps)%Z.
Proof.
  unfold default_repaint_time_steps, np_arange. rewrite existsb_exists. split.
  - intros (z & Hz & E). apply Z.eqb_eq in E. subst z.
    apply in_map_iff in Hz. destruct Hz as (i & <- & Hi).
    apply in_seq in Hi. unfold num_diffusion_timesteps in *. lia.
  - intros H. exists t. split; [|apply Z.eqb_refl].
    apply in_map_iff. exists (Z.to_nat t). split; [lia|].
    apply in_seq. unfold num_diffusion_timesteps in *. lia.
Qed.

Lemma in_timesteps t :
  In t timesteps <-> (1 <= t <= num_diffusion_timesteps)%Z.
Proof.
  unfold timesteps. rewrite in_map_iff. split.
  - intros (ti & <- & Hi). apply in_seq in Hi.
    unfold num_diffusion_timesteps in *. lia.
  - intros H. exists (Z.to_nat (num_diffusion_timesteps - t)).
    split; [lia|]. apply in_seq. unfold num_diffusion_timesteps in *. lia.
Qed.

(** X18: with the default [repaint_time_steps] the loop visits the timesteps
    500 down to 1 but re-injects the context only at the timesteps 499 down
    to 1: at the first timestep, t = 500, the RePaint block is skipped and
    the batch and the keys pass unchanged, whatever context and mask are
    given. *)
Theorem repaint_default_time_steps
    (Key : Type) (pjit_q_sample : batch -> Z -> Key -> batch * Key)
    (repaint_context : repaint_array) (repaint_mask : option repaint_array)
    (t : Z) (x : batch) (rng_keys : Key) :
  In t timesteps ->
  repaint pjit_q_sample (Some repaint_context) repaint_mask
          default_repaint_time_steps t x rng_keys =
  if (t =? num_diffusion_timesteps)%Z then Some (x, rng_keys)
  else
    repaint pjit_q_sample (Some repaint_context) repaint_mask [t] t x rng_keys.
Proof.
  intros Ht. apply in_timesteps in Ht. unfold repaint.
  destruct (Z.eqb_spec t num_diffusion_timesteps) as [E|E].
  - destruct (existsb (Z.eqb t) default_repaint_time_steps) eqn:Hin;
      [|reflexivity].
    apply in_default_repaint_time_steps in Hin. lia.
  - replace (existsb (Z.eqb t) default_repaint_time_steps) with true
      by (symmetry; apply in_default_repaint_time_steps; lia).
    cbn [existsb]. rewrite Z.eqb_refl. reflexivity.
Qed.

Lemma repaint_default_time_steps_witness :
  In 500%Z timesteps /\
  repaint (fun (a : batch) (_ : Z) (k : unit) => (a, k))
          (Some (SameRank [[[[1]]]])) None
          default_repaint_time_steps 500 [[[[2]]]] tt =
  Some ([[[[2]]]], tt).
Proof.
  assert (H : In 500%Z timesteps).
  { apply in_timesteps. unfold num_diffusion_timesteps. lia. }
  split; [exact H|].
  exact (repaint_default_time_steps unit
           (fun (a : batch) (_ : Z) (k : unit) => (a, k))
           (SameRank [[[[1]]]]) None 500%Z [[[[2]]]] tt H).
Defined.

Lemma repaint_blend_row_total m c x :
  length m = length x -> length c = length x ->
  exists out, repaint_blend_row m c x = Some out /\ length out = length x.
Proof.
  intros Hm Hc. unfold repaint_blend_row.
  rewrite (broadcast2_same_length Rmult m c) by congruence. cbn [bind].
  rewrite (broadcast2_same_length Rmult _ x) by (rewrite length_map; exact Hm).
  cbn [bind].
  rewrite broadcast2_same_length
    by (rewrite !length_map, !length_combine, !length_map; lia).
  eexists. split; [reflexivity|].
  rewrite !length_map, !length_combine, !length_map, !length_combine,
    !length_map. lia.
Qed.

Lemma zip3M_shape {A B C D S : Type} (f : A -> B -> C -> option D)
    (ga : A -> S) (gb : B -> S) (gc : C -> S) (gd : D -> S) a b c :
  (forall x y z, ga x = gc z -> gb y = gc z ->
                 exists r, f x y z = Some r /\ gd r = gc z) ->
  map ga a = map gc c -> map gb b = map gc c ->
  exists out, zip3M f a b c = Some out /\ map gd out = map gc c.
Proof.
  intros Hf. revert a b. induction c as [|z c IH]; intros [|x a] [|y b] Ha Hb;
    try discriminate.
  - exists []. split; reflexivity.
  - simpl in Ha, Hb. injection Ha as Hx Ha. injection Hb as Hy Hb.
    destruct (Hf x y z Hx Hy) as (r & Hr & Hgr).
    destruct (IH a b Ha Hb) as (rs & Hrs & Hgrs).
    exists (r :: rs). cbn [zip3M]. rewrite Hr. cbn [bind]. rewrite Hrs.
    split; [reflexivity|]. simpl. congruence.
Qed.

Lemma repaint_blend_zip3M m c x :
  repaint_blend m c x = zip3M repaint_blend_row m c x.
Proof.
  revert c x. induction m as [|r m IH]; intros [|r' c] [|r'' x];
    try reflexivity.
  cbn [repaint_blend zip3M]. rewrite IH. reflexivity.
Qed.

(** Blending three batches of one shape goes through and keeps the shape. *)
Lemma repaint_blend_batch_shape mask ctx x :
  batch_shape mask = batch_shape x -> batch_shape ctx = batch_shape x ->
  exists out, repaint_blend_batch mask ctx x = Some out /\
              batch_shape out = batch_shape x.
Proof.
  unfold repaint_blend_batch, batch_shape.
  apply zip3M_shape. intros m1 c1 x1. apply zip3M_shape.
  intros m2 c2 x2 Hm Hc. rewrite repaint_blend_zip3M.
  revert Hm Hc. apply zip3M_shape.
  intros m3 c3 x3. apply repaint_blend_row_total.
Qed.

Lemma iterM_invariant {S : Type} (P : S -> Prop) (f : S -> option S) n s :
  (forall s, P s -> exists s', f s = Some s' /\ P s') ->
  P s -> exists s', iterM n f s = Some s' /\ P s'.
Proof.
  intros Hf. revert s. induction n as [|n IH]; intros s Hs.
  - exists s. split; [reflexivity | exact Hs].
  - destruct (Hf s Hs) as (s1 & E1 & H1). destruct (IH s1 H1) as (s2 & E2 & H2).
    exists s2. cbn [iterM]. rewrite E1. cbn [bind]. auto.
Qed.

Lemma foldM_invariant {S T : Type} (P : S -> Prop) (f : T -> S -> option S)
    l s :
  (forall t s, In t l -> P s -> exists s', f t s = Some s' /\ P s') ->
  P s -> exists s', foldM f l s = Some s' /\ P s'.
Proof.
  revert s. induction l as [|t l IH]; intros s Hf Hs.
  - exists s. split; [reflexivity | exact Hs].
  - destruct (Hf t s (or_introl eq_refl) Hs) as (s1 & E1 & H1).
    destruct (IH s1) as (s2 & E2 & H2); [|exact H1|].
    + intros t' s' Ht'. apply Hf. right. exact Ht'.
    + exists s2. cbn [foldM]. rewrite E1. cbn [bind]. auto.
Qed.

Lemma index_from_embedding_total protoken_emb aatype_emb x :
  rectangular protoken_emb -> rectangular aatype_emb ->
  Forall (Forall (fun v => length v = DIM_EMB protoken_emb aatype_emb)) x ->
  exists ret, index_from_embedding protoken_emb aatype_emb x = Some ret.
Proof.
  intros [Hpne Hprect] [Hane Harect] Hx.
  assert (Htot : forall (dist : list R -> list R -> option R) emb
                        (cut : list R -> list R),
    emb <> [] ->
    (forall v e, length v = DIM_EMB protoken_emb aatype_emb -> In e emb ->
                 exists d, dist (cut v) e = Some d) ->
    exists r, mapM (mapM (fun v => nearest dist emb (cut v))) x = Some r).
  { intros dist emb cut Hne Hd. apply mapM_total.
    eapply Forall_impl; [|exact Hx]. intros row Hrow. apply mapM_total.
    eapply Forall_impl; [|exact Hrow]. intros v Hv.
    destruct (nearest_returns_nearest_entry dist emb (cut v) Hne)
      as (k & Hk & _); [|eauto].
    apply Forall_forall. intros e He. apply Hd; assumption. }
  rewrite Forall_forall in Hprect, Harect.
  destruct (Htot protoken_emb_distance_fn protoken_emb
              (firstn (DIM_EMB_PTK protoken_emb)) Hpne) as (p & Hp).
  { intros v e Hv He. apply protoken_emb_distance_fn_total.
    rewrite length_firstn, Hv, (Hprect e He).
    unfold DIM_EMB, DIM_EMB_PTK. lia. }
  destruct (Htot aatype_emb_distance_fn aatype_emb
              (skipn (DIM_EMB_PTK protoken_emb)) Hane) as (a & Ha).
  { intros v e Hv He. apply aatype_emb_distance_fn_total.
    rewrite length_skipn, Hv, (Harect e He).
    unfold DIM_EMB, DIM_EMB_AA, DIM_EMB_PTK. lia. }
  eexists. apply index_from_embedding_Some. eauto.
Qed.

Lemma pjit_index_from_embedding_shape protoken_emb aatype_emb x p a :
  pjit_index_from_embedding protoken_emb aatype_emb x = Some (p, a) ->
  map (map (@length _)) p = map (map (@length _)) x /\
  Forall (Forall (Forall (fun k => (k < length protoken_emb)%nat))) p /\
  exists a',
    a = Some a' /\
    map (map (@length _)) a' = map (map (@length _)) x /\
    Forall (Forall (Forall (fun k => (k < length aatype_emb)%nat))) a'.
Proof.
  unfold pjit_index_from_embedding. cbn [infer_protuple]. intros H.
  apply bind_Some in H. destruct H as (rets & Hrets & E).
  injection E as <- <-. revert rets Hrets.
  induction x as [|xd x IH]; intros rets Hrets.
  - inversion Hrets. cbn. repeat split; try constructor.
    exists []. repeat split; constructor.
  - apply mapM_cons_Some in Hrets.
    destruct Hrets as (ret & rets' & Hret & Hrets' & ->).
    destruct (IH rets' Hrets') as (S1 & R1 & a' & Ea & S2 & R2).
    apply index_from_embedding_Some in Hret.
    destruct Hret as (pd & ad & Hpd & Had & ->).
    apply mapM_mapM_shape with (P := fun k => (k < length protoken_emb)%nat)
      in Hpd; [|intros v k; apply nearest_lt].
    apply mapM_mapM_shape with (P := fun k => (k < length aatype_emb)%nat)
      in Had; [|intros v k; apply nearest_lt].
    destruct Hpd as [Sp Rp]. destruct Had as [Sa Ra].
    cbn [map mapM protoken_indexes aatype_indexes bind].
    split; [congruence|]. split; [constructor; assumption|].
    rewrite Ea. cbn [bind]. exists (ad :: a').
    split; [reflexivity|]. split; [simpl; congruence|].
    constructor; assumption.
Qed.

Lemma batch_shape_rows protoken_emb aatype_emb (x y : batch) :
  batch_shape y = batch_shape x ->
  Forall (Forall (Forall (fun v =>
            length v = DIM_EMB protoken_emb aatype_emb))) x ->
  Forall (Forall (Forall (fun v =>
            length v = DIM_EMB protoken_emb aatype_emb))) y.
Proof.
  assert (H1 : forall (a b : list (list R)) d,
            map (@length R) a = map (@length R) b ->
            Forall (fun v => length v = d) b ->
            Forall (fun v => length v = d) a).
  { intros a b d E Hb.
    rewrite <- (Forall_map (@length R) (fun n => n = d)) in *.
    rewrite E. exact Hb. }
  assert (H2 : forall (a b : list (list (list R))) d,
            map (map (@length R)) a = map (map (@length R)) b ->
            Forall (Forall (fun v => length v = d)) b ->
            Forall (Forall (fun v => length v = d)) a).
  { intros a. induction a as [|r a IH]; intros [|r' b] d E Hb;
      try discriminate; [constructor|].
    simpl in E. injection E as Er Ea. inversion Hb. subst.
    constructor; [eapply H1 | eapply IH]; eassumption. }
  unfold batch_shape. revert x.
  induction y as [|r y IH]; intros [|r' x] E Hx; try discriminate;
    [constructor|].
  simpl in E. injection E as Er Ey. inversion Hx. subst.
  constructor; [eapply H2 | eapply IH]; eassumption.
Qed.

Lemma batch_shape_outer (a b : batch) :
  batch_shape a = batch_shape b ->
  map (map (@length (list R))) a = map (map (@length (list R))) b.
Proof.
  unfold batch_shape. revert b.
  induction a as [|r a IH]; intros [|r' b] E; try discriminate;
    [reflexivity|].
  simpl in E. injection E as Er Ea. simpl. f_equal; [|apply IH; exact Ea].
  clear -Er. revert r' Er.
  induction r as [|v r IH]; intros [|v' r'] E; try discriminate;
    [reflexivity|].
  simpl in E. injection E as Ev Er. simpl. f_equal; [|apply IH; exact Er].
  apply (f_equal (@length nat)) in Ev. rewrite !length_map in Ev. exact Ev.
Qed.

(** X19: when the four model steps return batches of the shape of their
    input, the two tables are rectangular, the embedding vectors of the
    start batch have dimension DIM_EMB, and a given RePaint context comes
    with a mask, both of the shape of the batch at every timestep, then
    [run_infer] returns: no blend or projection raises, the final embedding
    has the shape of the start batch, mask and residue index are passed
    through, and there is one ProToken index and one amino-acid index per
    device, sample and residue, each inside its table. *)
Theorem run_infer_returns
    (Key SeqMask ResidueIndex : Type)
    (pjit_denoise_step pjit_denoise_step_clamped :
       batch -> SeqMask -> Z -> ResidueIndex -> Key -> batch * Key)
    (pjit_noise_step pjit_q_sample : batch -> Z -> Key -> batch * Key)
    (protoken_emb aatype_emb : list (list R))
    (x : batch) (seq_mask : SeqMask) (residue_index : ResidueIndex)
    (rng_keys : Key) (repaint_context repaint_mask : option repaint_array)
    (repaint_time_steps : list Z) :
  (forall a m t r k,
      batch_shape (fst (pjit_denoise_step a m t r k)) = batch_shape a) ->
  (forall a m t r k,
      batch_shape (fst (pjit_denoise_step_clamped a m t r k)) = batch_shape a) ->
  (forall a t k, batch_shape (fst (pjit_noise_step a t k)) = batch_shape a) ->
  (forall a t k, batch_shape (fst (pjit_q_sample a t k)) = batch_shape a) ->
  rectangular protoken_emb -> rectangular aatype_emb ->
  Forall (Forall (Forall (fun v =>
            length v = DIM_EMB protoken_emb aatype_emb))) x ->
  (forall c, repaint_context = Some c ->
     exists m, repaint_mask = Some m /\
       forall t, batch_shape (at_time c t) = batch_shape x /\
                 batch_shape (at_time m t) = batch_shape x) ->
  exists ret,
    run_infer pjit_denoise_step pjit_denoise_step_clamped pjit_noise_step
              pjit_q_sample protoken_emb aatype_emb x seq_mask residue_index
              rng_keys repaint_context repaint_mask repaint_time_steps
      = Some ret /\
    batch_shape (InferRet.embedding ret) = batch_shape x /\
    InferRet.seq_mask ret = seq_mask /\
    InferRet.residue_index ret = residue_index /\
    map (map (@length _)) (InferRet.protoken_indexes ret) =
      map (map (@length _)) x /\
    Forall (Forall (Forall (fun k => (k < length protoken_emb)%nat)))
           (InferRet.protoken_indexes ret) /\
    exists a,
      InferRet.aatype_indexes ret = Some a /\
      map (map (@length _)) a = map (map (@length _)) x /\
      Forall (Forall (Forall (fun k => (k < length aatype_emb)%nat))) a.
Proof.
  intros Hd Hdc Hn Hq Hpr Har Hx Hrep.
  set (Inv := fun st : batch * Key => batch_shape (fst st) = batch_shape x).
  assert (Hdfn : forall t a m r k,
            batch_shape (fst (denoise_fn pjit_denoise_step
                                pjit_denoise_step_clamped t a m t r k)) =
            batch_shape a).
  { intros t a m r k. unfold denoise_fn.
    destruct (phasing_time <? t)%Z; [apply Hd | apply Hdc]. }
  assert (Hrepaint : forall t a k, batch_shape a = batch_shape x ->
            exists st', repaint pjit_q_sample repaint_context repaint_mask
                          repaint_time_steps t a k = Some st' /\ Inv st').
  { intros t a k Ha. unfold repaint.
    destruct repaint_context as [c|]; [|exists (a, k); split; [reflexivity | exact Ha]].
    destruct (existsb (Z.eqb t) repaint_time_steps);
      [|exists (a, k); split; [reflexivity | exact Ha]].
    destruct (Hrep c eq_refl) as (m & -> & Hshape). cbn [bind].
    destruct (Hshape t) as [Hc Hm].
    pose proof (Hq (at_time c t) t k) as Hqs.
    destruct (pjit_q_sample (at_time c t) t k) as [ct k']. cbn [fst] in Hqs.
    destruct (repaint_blend_batch_shape (at_time m t) ct a)
      as (out & Hout & Hshape_out); [congruence | congruence |].
    rewrite Hout. cbn [bind]. exists (out, k').
    split; [reflexivity|]. unfold Inv. cbn [fst]. congruence. }
  assert (Heq : forall t st, Inv st ->
            exists st', eq_step pjit_denoise_step pjit_denoise_step_clamped
                          pjit_noise_step pjit_q_sample seq_mask residue_index
                          repaint_context repaint_mask repaint_time_steps
                          t st = Some st' /\ Inv st').
  { intros t st Hst. unfold eq_step.
    pose proof (Hdfn t (fst st) seq_mask residue_index (snd st)) as H1.
    destruct (denoise_fn pjit_denoise_step pjit_denoise_step_clamped t
                (fst st) seq_mask t residue_index (snd st)) as [x1 k1].
    cbn [fst] in H1. pose proof (Hn x1 t k1) as H2.
    destruct (pjit_noise_step x1 t k1) as [x2 k2]. cbn [fst] in H2.
    apply Hrepaint. unfold Inv in Hst. congruence. }
  assert (Hts : forall t st, Inv st ->
            exists st', timestep pjit_denoise_step pjit_denoise_step_clamped
                          pjit_noise_step pjit_q_sample seq_mask residue_index
                          repaint_context repaint_mask repaint_time_steps
                          t st = Some st' /\ Inv st').
  { intros t st Hst. unfold timestep.
    destruct (iterM_invariant Inv
                (eq_step pjit_denoise_step pjit_denoise_step_clamped
                   pjit_noise_step pjit_q_sample seq_mask residue_index
                   repaint_context repaint_mask repaint_time_steps t)
                n_eq_steps st (Heq t) Hst) as (st1 & E1 & H1).
    rewrite E1. cbn [bind]. eexists. split; [reflexivity|].
    unfold Inv in *. rewrite Hdfn. exact H1. }
  destruct (foldM_invariant Inv
              (timestep pjit_denoise_step pjit_denoise_step_clamped
                 pjit_noise_step pjit_q_sample seq_mask residue_index
                 repaint_context repaint_mask repaint_time_steps)
              timesteps (x, rng_keys)) as (st & Est & Hst).
  { intros t s _ Hs. apply Hts. exact Hs. }
  { reflexivity. }
  unfold Inv in Hst.
  pose proof (batch_shape_rows protoken_emb aatype_emb x (fst st) Hst Hx)
    as Hrows.
  destruct (mapM_total (index_from_embedding protoken_emb aatype_emb) (fst st))
    as (rets & Hrets).
  { eapply Forall_impl; [|exact Hrows]. intros xd Hxd.
    apply index_from_embedding_total; assumption. }
  destruct (pjit_index_from_embedding protoken_emb aatype_emb (fst st))
    as [[p a]|] eqn:Eidx.
  2:{ unfold pjit_index_from_embedding in Eidx. rewrite Hrets in Eidx.
      discriminate Eidx. }
  destruct (pjit_index_from_embedding_shape _ _ _ _ _ Eidx)
    as (S1 & R1 & a' & -> & S2 & R2).
  assert (Hdev : map (map (@length (list R))) (fst st) =
                 map (map (@length (list R))) x).
  { apply batch_shape_outer. exact Hst. }
  eexists. unfold run_infer. rewrite Est. cbn [bind]. rewrite Eidx.
  cbn [bind fst snd]. split; [reflexivity|].
  cbn [InferRet.embedding InferRet.seq_mask InferRet.residue_index
       InferRet.protoken_indexes InferRet.aatype_indexes].
  split; [exact Hst|]. split; [reflexivity|]. split; [reflexivity|].
  split; [congruence|]. split; [exact R1|].
  exists a'. split; [reflexivity|]. split; [congruence | exact R2].
Qed.

Lemma run_infer_returns_witness :
  (forall (a : batch) (m : unit) (t : Z) (r k : unit),
      batch_shape (fst (a, k)) = batch_shape a) /\
  (forall (a : batch) (t : Z) (k : unit),
      batch_shape (fst (a, k)) = batch_shape a) /\
  rectangular [[1]] /\ rectangular [[2]] /\
  Forall (Forall (Forall (fun v => length v = DIM_EMB [[1]] [[2]])))
         [[[[0.5; 0.25]]]] /\
  exists ret,
    run_infer (fun a (_ : unit) (_ : Z) (_ : unit) (k : unit) => (a, k))
              (fun a (_ : unit) (_ : Z) (_ : unit) (k : unit) => (a, k))
              (fun a (_ : Z) (k : unit) => (a, k))
              (fun a (_ : Z) (k : unit) => (a, k))
              [[1]] [[2]] [[[[0.5; 0.25]]]] tt tt tt
              (Some (SameRank [[[[1; 2]]]])) (Some (SameRank [[[[1; 0]]]]))
              default_repaint_time_steps
      = Some ret /\
    batch_shape (InferRet.embedding ret) = batch_shape [[[[0.5; 0.25]]]] /\
    InferRet.seq_mask ret = tt /\
    InferRet.residue_index ret = tt /\
    map (map (@length _)) (InferRet.protoken_indexes ret) =
      map (map (@length _)) [[[[0.5; 0.25]]]] /\
    Forall (Forall (Forall (fun k => (k < length [[1]]%R)%nat)))
           (InferRet.protoken_indexes ret) /\
    exists a,
      InferRet.aatype_indexes ret = Some a /\
      map (map (@length _)) a = map (map (@length _)) [[[[0.5; 0.25]]]] /\
      Forall (Forall (Forall (fun k => (k < length [[2]]%R)%nat))) a.
Proof.
  assert (H4 : forall (a : batch) (m : unit) (t : Z) (r k : unit),
             batch_shape (fst (a, k)) = batch_shape a) by reflexivity.
  assert (H2 : forall (a : batch) (t : Z) (k : unit),
             batch_shape (fst (a, k)) = batch_shape a) by reflexivity.
  assert (Hp : rectangular [[1]])
    by (split; [discriminate | repeat constructor]).
  assert (Ha : rectangular [[2]])
    by (split; [discriminate | repeat constructor]).
  assert (Hx : Forall (Forall (Forall (fun v =>
                 length v = DIM_EMB [[1]] [[2]]))) [[[[0.5; 0.25]]]])
    by (repeat constructor).
  split; [exact H4|]. split; [exact H2|]. split; [exact Hp|].
  split; [exact Ha|]. split; [exact Hx|].
  refine (run_infer_returns unit unit unit
            (fun a _ _ _ k => (a, k)) (fun a _ _ _ k => (a, k))
            (fun a _ k => (a, k)) (fun a _ k => (a, k))
            [[1]] [[2]] [[[[0.5; 0.25]]]] tt tt tt
            (Some (SameRank [[[[1; 2]]]])) (Some (SameRank [[[[1; 0]]]]))
            default_repaint_time_steps H4 H4 H2 H2 Hp Ha Hx _).
  intros c E. injection E as <-. eexists. split; [reflexivity|].
  intros t. split; reflexivity.
Defined.

(** ** The domains of the residue-name conversions *)

Lemma mapM_None {A B : Type} (f : A -> option B) l :
  mapM f l = None <-> Exists (fun a => f a = None) l.
Proof.
  split.
  - induction l as [|a l IH]; [discriminate|]. cbn [mapM].
    destruct (f a) as [b|] eqn:E; [|intros _; left; exact E].
    cbn [bind]. destruct (mapM f l); [discriminate|].
    intros _. right. apply IH. reflexivity.
  - intros H. apply Exists_exists in H. destruct H as (a & Hin & Ha).
    eapply mapM_In_None; eassumption.
Qed.

Lemma py_getitem_restypes_None i :
  py_getitem restypes i = None <-> (i < -20 \/ 20 <= i)%Z.
Proof.
  unfold py_getitem. change (Z.of_nat (length restypes)) with 20%Z.
  assert (Hn : forall n, nth_error restypes n = None <-> (20 <= n)%nat)
    by (intros n; apply nth_error_None).
  destruct (Z.leb_spec 0 i).
  - split; [intros E; apply Hn in E | intros E; apply Hn]; lia.
  - destruct (Z.leb_spec (- (20)) i).
    + split; [intros E; apply Hn in E | intros E; apply Hn]; lia.
    + split; [lia | reflexivity].
Qed.

Lemma py_index_None c l : py_index c l = None <-> ~ In c l.
Proof.
  induction l as [|b l IH]; simpl; [tauto|].
  destruct (Ascii.eqb_spec b c) as [->|Hne].
  - split; [discriminate | intros H; exfalso; apply H; left; reflexivity].
  - destruct (py_index c l); cbn [option_map].
    + split; [discriminate|]. intros H. exfalso. apply H. right.
      destruct (in_dec ascii_dec c l) as [Hin|Hnin]; [exact Hin|].
      apply IH in Hnin. discriminate Hnin.
    + split; [|reflexivity]. intros _ [E | Hin]; [congruence|].
      apply (proj1 IH); [reflexivity | exact Hin].
Qed.

(** X20: the two residue-name conversions raise exactly on an index outside
    [-20, 20) ([IndexError]) and on a symbol that is not one of the 20 of
    the table ([ValueError]). *)
Theorem resname_conversions_fail_exactly
    (aatype_index : list Z) (resnames : string) :
  (aatype_index_to_resname aatype_index = None <->
   Exists (fun i => (i < -20 \/ 20 <= i)%Z) aatype_index) /\
  (resname_to_aatype_index resnames = None <->
   Exists (fun c => ~ In c restypes) (list_ascii_of_string resnames)).
Proof.
  split.
  - unfold aatype_index_to_resname.
    destruct (mapM (py_getitem restypes) aatype_index) as [cs|] eqn:E.
    + split; [discriminate|]. intros H.
      assert (Hn : mapM (py_getitem restypes) aatype_index = None).
      { apply mapM_None. eapply Exists_impl; [|exact H].
        intros i Hi. apply py_getitem_restypes_None. exact Hi. }
      congruence.
    + split; [|reflexivity]. intros _. apply mapM_None in E.
      eapply Exists_impl; [|exact E].
      intros i Hi. apply py_getitem_restypes_None. exact Hi.
  - unfold resname_to_aatype_index. rewrite mapM_None.
    split; intros H; (eapply Exists_impl; [|exact H]); intros c Hc;
      apply py_index_None; exact Hc.
Qed.

(** X21: a negative index from -20 to -1 is accepted and counts from the
    end of the table: the array decodes to the same residue string as with
    20 added to every entry. *)
Theorem aatype_index_to_resname_negative_indexes (aatype_index : list Z) :
  Forall (fun i => (-20 <= i < 0)%Z) aatype_index ->
  exists names,
    aatype_index_to_resname aatype_index = Some names /\
    aatype_index_to_resname (map (fun i => (i + 20)%Z) aatype_index)
      = Some names.
Proof.
  intros H.
  assert (E : mapM (py_getitem restypes) (map (fun i => (i + 20)%Z) aatype_index)
              = mapM (py_getitem restypes) aatype_index).
  { induction H as [|i l Hi _ IH]; [reflexivity|].
    cbn [map mapM]. rewrite IH. f_equal.
    unfold py_getitem. change (Z.of_nat (length restypes)) with 20%Z.
    destruct (Z.leb_spec 0 (i + 20)); [|lia].
    destruct (Z.leb_spec 0 i); [lia|].
    destruct (Z.leb_spec (- (20)) i); [|lia].
    f_equal. lia. }
  unfold aatype_index_to_resname. rewrite E.
  destruct (mapM (py_getitem restypes) aatype_index) as [cs|] eqn:Ecs.
  - eexists. split; reflexivity.
  - exfalso. apply mapM_None in Ecs. apply Exists_exists in Ecs.
    destruct Ecs as (i & Hin & Hi). apply py_getitem_restypes_None in Hi.
    rewrite Forall_forall in H. specialize (H i Hin). lia.
Qed.

Lemma aatype_index_to_resname_negative_indexes_witness :
  Forall (fun i => (-20 <= i < 0)%Z) [-1; -20]%Z /\
  exists names,
    aatype_index_to_resname [-1; -20]%Z = Some names /\
    aatype_index_to_resname (map (fun i => (i + 20)%Z) [-1; -20]%Z)
      = Some names.
Proof.
  assert (H : Forall (fun i => (-20 <= i < 0)%Z) [-1; -20]%Z)
    by (repeat constructor; lia).
  split; [exact H|].
  exact (aatype_index_to_resname_negative_indexes [-1; -20]%Z H).
Defined.

(** X22: on an index array that decodes to a residue string,
    [parse_annotation] raises exactly when some annotated segment occurs
    nowhere in the sequence. *)
Theorem parse_annotation_fails_exactly
    (annotation_dict : dict string) (aatype_indexes : list Z)
    (seq_str : string) :
  aatype_index_to_resname aatype_indexes = Some seq_str ->
  (parse_annotation annotation_dict aatype_indexes = None <->
   Exists (fun kv =>
             forall n,
               aatype_index_to_resname
                 (firstn (String.length (snd kv)) (skipn n aatype_indexes))
               <> Some (snd kv))
          annotation_dict).
Proof.
  intros Hseq. unfold parse_annotation. rewrite Hseq. cbn [bind].
  pose proof (proj1 (aatype_index_to_resname_Some _ _) Hseq) as Hcs.
  assert (Hocc : forall v n,
    aatype_index_to_resname
      (firstn (String.length v) (skipn n aatype_indexes)) = Some v <->
    firstn (length (list_ascii_of_string v))
           (skipn n (list_ascii_of_string seq_str)) = list_ascii_of_string v).
  { intros v n. rewrite aatype_index_to_resname_Some.
    rewrite (mapM_firstn _ _ _ _ (mapM_skipn _ _ _ _ Hcs)).
    rewrite string_length_list. split; congruence. }
  split; intros H; [apply mapM_None in H | apply mapM_None];
    (eapply Exists_impl; [|exact H]); intros [k v]; cbn [fst snd].
  - intros E n Habs. apply Hocc in Habs.
    destruct (str_find_spec seq_str v) as [[_ Hnone] | (Hr & _)].
    + exact (Hnone n Habs).
    + destruct (Z.eqb_spec (str_find seq_str v) (-1)); [lia | discriminate E].
  - intros Hno.
    destruct (str_find_spec seq_str v) as [[Er _] | (_ & _ & Hat & _)].
    + rewrite Er. reflexivity.
    + exfalso. apply (Hno (Z.to_nat (str_find seq_str v))).
      apply Hocc. exact Hat.
Qed.

Lemma parse_annotation_fails_exactly_witness :
  aatype_index_to_resname [12; 11; 19]%Z = Some "MKV"%string /\
  (parse_annotation [("a"%string, "WW"%string)] [12; 11; 19]%Z = None <->
   Exists (fun kv =>
             forall n,
               aatype_index_to_resname
                 (firstn (String.length (snd kv)) (skipn n [12; 11; 19]%Z))
               <> Some (snd kv))
          [("a"%string, "WW"%string)]).
Proof.
  split; [reflexivity|].
  apply (parse_annotation_fails_exactly [("a"%string, "WW"%string)]
           [12; 11; 19]%Z "MKV"). reflexivity.
Defined.
